(** * Completion detection and exactly-once notification pipeline

    A shallow embedding of the background job of the ticket bot
    ([scripts/background/user_notifications.py],
    [scripts/background/meta_process.py], [scripts/common/s3.py],
    [scripts/common/constants.py] and the job wrapper of [run.py]),
    with the properties of its specification stated over it.

    Python dictionaries with string keys and string values are finite
    maps [gmap string string]; lists are lists; a Python exception is a
    [Raise] result; the object store, the chat platform, the workspace
    database and the clock are explicit state and oracles.

    The calls of the logger are left out: they change nothing that the
    properties mention.  The object store answers every request (a fetch
    fails only when no object is under the prefix) and stamps a put with a
    reading of the clock that the job reads.  The text of a CSV file is not
    modelled: an object holds the rows that [csv.DictWriter] wrote in it,
    and what [csv.DictReader] makes of them over the line reader of
    [codecs] is an oracle, like the other library functions. *)

From Stdlib Require Import String Ascii List Arith Lia Bool.
From stdpp Require Import gmap strings list fin_maps.

Local Open Scope string_scope.
Local Open Scope nat_scope.
Local Open Scope list_scope.

(** A record: a Python [dict] from field names to string values (the rows
    [csv.DictReader] yields, the pages [process_db_object] returns). *)
Abbreviation record := (gmap string string).

(** ** Exceptions and results *)

Module Py.

(** The exceptions the modelled code can raise. *)
Inductive exn : Type :=
| IndexError
| KeyError (k : string)
| UnboundLocalError (name : string)
| AttributeError (name : string)
| ValueError
| NoSuchKey (k : string)
| SlackApiError
| HTTPError.

Inductive result (A : Type) : Type :=
| Ok (a : A)
| Raise (e : exn).

Global Arguments Ok {A} a.
Global Arguments Raise {A} e.

Definition bind {A B} (r : result A) (k : A -> result B) : result B :=
  match r with
  | Ok a => k a
  | Raise e => Raise e
  end.

(** [l[i]] on a list. *)
Definition getitem {A} (l : list A) (i : nat) : result A :=
  match l !! i with
  | Some a => Ok a
  | None => Raise IndexError
  end.

(** [d[k]] on a dictionary. *)
Definition dict_get (d : gmap string string) (k : string) : result string :=
  match d !! k with
  | Some v => Ok v
  | None => Raise (KeyError k)
  end.

(** [x in l] on a list of strings. *)
Definition in_list (x : string) (l : list string) : bool :=
  bool_decide (x ∈ l).

(** The list comprehension [[out x for x in l if cond x]]: the condition of
    an element is evaluated before its output, elements left to right, and
    the first exception ends the evaluation. *)
Fixpoint list_comp {A B} (cond : A -> result bool) (out : A -> result B)
    (l : list A) : result (list B) :=
  match l with
  | [] => Ok []
  | x :: l' =>
      bind (cond x) (fun b : bool =>
        if b then
          bind (out x) (fun y =>
            bind (list_comp cond out l') (fun ys => Ok (y :: ys)))
        else list_comp cond out l')
  end.

End Py.

Export Py.

Global Instance result_ret : MRet result := @Ok.
Global Instance result_bind : MBind result := fun A B k r => Py.bind r k.

(** ** Naive datetimes and the formats of [DateTimeFormats] *)

Module Datetime.

Record datetime : Type := mk_datetime {
  year : N; month : N; day : N;
  hour : N; minute : N; second : N; microsecond : N
}.

Definition fields (d : datetime) : list N :=
  [year d; month d; day d; hour d; minute d; second d; microsecond d].

(** Naive datetimes compare field by field, most significant first. *)
Fixpoint lex_compare (a b : list N) : comparison :=
  match a, b with
  | [], [] => Eq
  | [], _ :: _ => Lt
  | _ :: _, [] => Gt
  | x :: a', y :: b' =>
      match N.compare x y with
      | Eq => lex_compare a' b'
      | c => c
      end
  end.

Definition compare (a b : datetime) : comparison :=
  lex_compare (fields a) (fields b).

(** [a < b] and [a == b] on naive datetimes. *)
Definition ltb (a b : datetime) : bool :=
  match compare a b with Lt => true | _ => false end.

Definition eqb (a b : datetime) : bool :=
  match compare a b with Eq => true | _ => false end.

(** The range of Python's [datetime]; [strftime] prints four year digits
    from year 1000 on. *)
Definition valid (d : datetime) : Prop :=
  (1000 <= year d <= 9999 /\ 1 <= month d <= 12 /\ 1 <= day d <= 31 /\
   hour d <= 23 /\ minute d <= 59 /\ second d <= 59 /\
   microsecond d <= 999999)%N.

Definition digit (n : N) : ascii := ascii_of_N (48 + n mod 10).

Definition pad2 (n : N) : string :=
  String (digit (n / 10)) (String (digit n) EmptyString).

Definition pad4 (n : N) : string :=
  String (digit (n / 1000)) (String (digit (n / 100)) (pad2 n)).

(** One [%] directive of [strftime]. *)
Definition directive (c : ascii) (d : datetime) : string :=
  if Ascii.eqb c "Y" then pad4 (year d)
  else if Ascii.eqb c "m" then pad2 (month d)
  else if Ascii.eqb c "d" then pad2 (day d)
  else if Ascii.eqb c "H" then pad2 (hour d)
  else if Ascii.eqb c "M" then pad2 (minute d)
  else if Ascii.eqb c "S" then pad2 (second d)
  else String "%" (String c EmptyString).

Fixpoint strftime (fmt : string) (d : datetime) : string :=
  match fmt with
  | EmptyString => EmptyString
  | String c rest =>
      if Ascii.eqb c "%" then
        match rest with
        | String c' rest' => directive c' d +:+ strftime rest' d
        | EmptyString => String c EmptyString
        end
      else String c (strftime rest d)
  end.

(** [d.date()]: the calendar day, the time of day dropped. *)
Definition date (d : datetime) : datetime :=
  mk_datetime (year d) (month d) (day d) 0 0 0 0.

Definition is_leap (y : N) : bool :=
  ((y mod 4 =? 0) && (negb (y mod 100 =? 0) || (y mod 400 =? 0)))%N.

Definition days_in_month (y m : N) : N :=
  if (m =? 2)%N then (if is_leap y then 29 else 28)%N
  else if ((m =? 4) || (m =? 6) || (m =? 9) || (m =? 11))%N then 30%N
  else 31%N.

(** [d - timedelta(days=1)] on a date. *)
Definition minus_one_day (d : datetime) : datetime :=
  if (1 <? day d)%N then mk_datetime (year d) (month d) (day d - 1) 0 0 0 0
  else if (1 <? month d)%N then
    mk_datetime (year d) (month d - 1)
                (days_in_month (year d) (month d - 1)) 0 0 0 0
  else mk_datetime (year d - 1) 12 31 0 0 0 0.

End Datetime.

Export Datetime.

(** [scripts/common/constants.py], [DateTimeFormats]. *)
Module DateTimeFormats.
Definition datetime_format : string := "%Y-%m-%d %H:%M:%S".
Definition date_format : string := "%Y-%m-%d".
Definition date_file_name_format : string := "%Y%m%d_%H%M".
End DateTimeFormats.

(** ** The object store

    A bucket is the list of its objects in the order S3 lists them (by
    key).  The body of an object is kept as the rows of its CSV file, as
    [csv.DictWriter] wrote them under the header; a directory placeholder
    has no rows. *)

Module Bucket.

Record s3_object : Type := mk_object {
  key : string;
  last_modified : datetime;
  body : list record
}.

(** [bucket.objects.filter(Prefix=prefix)] *)
Definition objects_filter (prefix : string) (b : list s3_object)
  : list s3_object :=
  List.filter (fun o => String.prefix prefix (key o)) b.

Fixpoint insert_by_key (o : s3_object) (b : list s3_object)
  : list s3_object :=
  match b with
  | [] => [o]
  | o' :: b' =>
      if String.ltb (key o) (key o') then o :: b
      else o' :: insert_by_key o b'
  end.

(** [bucket.put_object(Body=..., Key=k)]: a whole-object replacement. *)
Definition put (o : s3_object) (b : list s3_object) : list s3_object :=
  insert_by_key o (List.filter (fun o' => negb (String.eqb (key o') (key o))) b).

(** [client.delete_object(Bucket=..., Key=k)]: deleting a key that does not
    exist succeeds and changes nothing. *)
Definition delete (k : string) (b : list s3_object) : list s3_object :=
  List.filter (fun o => negb (String.eqb (key o) k)) b.

(** [bucket.Object(key=k).get()] *)
Definition get (k : string) (b : list s3_object) : option s3_object :=
  List.find (fun o => String.eqb (key o) k) b.

(** [list.sort(reverse=True)] on datetimes. *)
Fixpoint insert_desc (d : datetime) (l : list datetime) : list datetime :=
  match l with
  | [] => [d]
  | x :: l' => if Datetime.ltb d x then x :: insert_desc d l' else d :: l
  end.

Definition sort_reverse (l : list datetime) : list datetime :=
  foldr insert_desc [] l.

End Bucket.

Export Bucket.

(** ** State and effects *)

Module Effects.

(** What a run of the job can change or observe: the bucket, the messages
    the chat platform has delivered, the attribute [self.notif_log] of the
    notifier ([None] while it has not been assigned), and how many times
    the clock, the chat platform and the workspace database were asked. *)
Record state : Type := mk_state {
  s3 : list s3_object;
  outbox : list (string * string);
  notif_log : option (list record);
  reads : nat;
  posts : nat;
  pulls : nat
}.

Definition set_s3 (b : list s3_object) (st : state) : state :=
  mk_state b (outbox st) (notif_log st) (reads st) (posts st) (pulls st).
Definition set_outbox (o : list (string * string)) (st : state) : state :=
  mk_state (s3 st) o (notif_log st) (reads st) (posts st) (pulls st).
Definition set_notif_log (l : option (list record)) (st : state) : state :=
  mk_state (s3 st) (outbox st) l (reads st) (posts st) (pulls st).
Definition set_reads (n : nat) (st : state) : state :=
  mk_state (s3 st) (outbox st) (notif_log st) n (posts st) (pulls st).
Definition set_posts (n : nat) (st : state) : state :=
  mk_state (s3 st) (outbox st) (notif_log st) (reads st) n (pulls st).
Definition set_pulls (n : nat) (st : state) : state :=
  mk_state (s3 st) (outbox st) (notif_log st) (reads st) (posts st) n.

(** A computation: it ends with a value or an exception, and a state. *)
Definition M (A : Type) : Type := state -> result A * state.

Definition ret {A} (a : A) : M A := fun st => (Ok a, st).

Definition bindM {A B} (m : M A) (k : A -> M B) : M B :=
  fun st =>
    match m st with
    | (Ok a, st') => k a st'
    | (Raise e, st') => (Raise e, st')
    end.

Definition raise {A} (e : exn) : M A := fun st => (Raise e, st).

Definition lift {A} (r : result A) : M A := fun st => (r, st).

Definition gets {A} (f : state -> A) : M A := fun st => (Ok (f st), st).

Definition modify (f : state -> state) : M unit := fun st => (Ok tt, f st).

(** [try: body  except Exception as e: handler e] *)
Definition try_except {A} (body : M A) (handler : exn -> M A) : M A :=
  fun st =>
    match body st with
    | (Ok a, st') => (Ok a, st')
    | (Raise e, st') => handler e st'
    end.

(** [for x in l: body x] *)
Fixpoint for_each {A} (l : list A) (body : A -> M unit) : M unit :=
  match l with
  | [] => ret tt
  | x :: l' => bindM (body x) (fun _ => for_each l' body)
  end.

End Effects.

Export Effects.

Global Instance M_ret : MRet M := @ret.
Global Instance M_bind : MBind M := fun A B k m => bindM m k.

(** ** The background job *)

Module Job.

(** The entries of [NotionSourceConfig] the background job reads: the
    ["text"] name of each field, and the list of completed labels. *)
Record NotionSourceConfig : Type := mk_notion_args {
  notion_page_title : string;
  notion_page_due_date : string;
  notion_page_slack_id : string;
  notion_page_page_url : string;
  notion_page_ticket_id : string;
  notion_page_status : string;
  notion_page_created_at : string;
  notion_page_completion_labels : list string
}.

Definition nl : string := String (ascii_of_nat 10) EmptyString.
Definition sp12 : string := "            ".
Definition sp20 : string := "                    ".

Section Pipeline.

(** Configuration. *)
Variable notion_args : NotionSourceConfig.
Variable slack_channel : string.
Variable notifications_log_prefix : string.
Variable metafile_prefix : string.

(** The collaborators, as oracles: the [n]-th reading of the clock, whether
    the [n]-th call of [chat_postMessage] delivers, what the [n]-th pull of
    the workspace database yields once processed, and the library function
    [datetime.strptime value format] ([None] for its [ValueError]). *)
Variable clock : nat -> datetime.
Variable chat_postMessage : nat -> bool.
Variable notion_meta : nat -> result (list record).
Variable strptime : string -> string -> option datetime.

(** The library reader of [read_csv], as an oracle:
    [csv.DictReader(codecs.getreader("utf-8")(body))] for the file in which
    [csv.DictWriter] wrote the given rows.  The reader of [codecs] ends a
    line at every line boundary of [str.splitlines], so a cell that was
    written without quotes and has a form feed in it, say, does not read
    back as it was written, and neither does a row without fields. *)
Variable DictReader : list record -> list record.

(** [datetime.now()], [datetime.today()] *)
Definition datetime_now : M datetime :=
  fun st => (Ok (clock (reads st)), set_reads (S (reads st)) st).

(** *** [scripts/common/slack.py] *)

(** [SlackConnector.post_message] *)
Definition post_message (slack_id msg : string) : M unit :=
  fun st =>
    let st' := set_posts (S (posts st)) st in
    if chat_postMessage (posts st)
    then (Ok tt, set_outbox (outbox st ++ [(slack_id, msg)])%list st')
    else (Raise SlackApiError, st').

(** *** [scripts/common/s3.py] *)

(** [S3BucketConnector.read_csv] *)
Definition read_csv (file_name : string) (b : list s3_object)
  : result (list record) :=
  match Bucket.get file_name b with
  | Some o => Ok (DictReader (body o))
  | None => Raise (NoSuchKey file_name)
  end.

(** [S3BucketConnector.get_most_recent_modified_file].  Its two guards
    [obj != f"{prefix}/"] compare an object summary with a string and always
    hold, so the placeholder is not left out. *)
Definition get_most_recent_modified_file (prefix : string)
    (b : list s3_object) : result (list record * string) :=
  let file_dates := map last_modified (objects_filter prefix b) in
  let file_dates := sort_reverse file_dates in
  most_recent_date ← getitem file_dates 0;
  let files :=
    map key (List.filter
               (fun obj => Datetime.eqb (last_modified obj) most_recent_date)
               (objects_filter prefix b)) in
  file_name ← getitem files 0;
  csv_obj ← read_csv file_name b;
  Ok (csv_obj, file_name).

(** [list(d.keys())] *)
Definition dict_keys (d : record) : list string := (map_to_list d).*1.

(** The rows [csv.DictWriter(fieldnames=fields).writerows(data)] puts in
    the file: a row with a key outside [fields] is a [ValueError], a missing
    field is written empty. *)
Definition dict_to_row (fields : list string) (row : record) : result record :=
  if forallb (fun k => in_list k fields) (dict_keys row)
  then Ok (list_to_map ((fun f => (f, default EmptyString (row !! f))) <$> fields))
  else Raise ValueError.

Fixpoint writerows (fields : list string) (data : list record)
  : result (list record) :=
  match data with
  | [] => Ok []
  | row :: data' =>
      r ← dict_to_row fields row;
      rs ← writerows fields data';
      Ok (r :: rs)
  end.

(** [S3BucketConnector.__put_object]: the store stamps the object with its
    reading of the clock. *)
Definition __put_object (rows : list record) (file_name : string)
  : M (option bool) :=
  fun st =>
    let o := mk_object file_name (clock (reads st)) rows in
    (Ok (Some true), set_s3 (Bucket.put o (s3 st)) (set_reads (S (reads st)) st)).

(** [S3BucketConnector.write_to_s3]; [None] is its [return None]. *)
Definition write_to_s3 (data : list record) (file_name : string)
  : M (option bool) :=
  first ← lift (getitem data 0);
  let fields := dict_keys first in
  match data with
  | [] => mret None
  | _ :: _ =>
      rows ← lift (writerows fields data);
      __put_object rows file_name
  end.

(** [S3BucketConnector.remove_object] *)
Definition remove_object (file_name : string) : M unit :=
  modify (fun st => set_s3 (Bucket.delete file_name (s3 st)) st).

(** *** [scripts/background/meta_process.py] *)

(** [MetaProcess.generate_meta_file]: one pull of the workspace database,
    flattened and normalised by the connector. *)
Definition generate_meta_file : M (list record) :=
  fun st => (notion_meta (pulls st), set_pulls (S (pulls st)) st).

(** [MetaProcess.load_meta_file] *)
Definition load_meta_file (meta_file : list record) (prefix : string)
  : M unit :=
  now ← datetime_now;
  let log_date := strftime DateTimeFormats.datetime_format now in
  let file_date := strftime DateTimeFormats.date_file_name_format now in
  let meta_file := (fun file => <["uploaded_at" := log_date]> file) <$> meta_file in
  let file_name := prefix +:+ "/" +:+ file_date +:+ ".csv" in
  _ ← write_to_s3 meta_file file_name;
  mret tt.

(** [MetaProcess.delete_meta_files] *)
Definition delete_meta_files (prefix : string) (date_threshold : string)
  : M unit :=
  date_threshold ←
    match strptime date_threshold DateTimeFormats.datetime_format with
    | Some d => mret d
    | None => raise ValueError
    end;
  objects ← gets s3;
  let to_delete :=
    map key
      (List.filter
         (fun obj =>
            Datetime.ltb (last_modified obj) date_threshold
            && negb (String.eqb (key obj) (prefix +:+ "/")))
         (objects_filter prefix objects)) in
  match to_delete with
  | [] => mret tt
  | _ :: _ =>
      for_each to_delete (fun file => remove_object (file +:+ ".csv"))
  end.

(** *** [scripts/background/user_notifications.py] *)

(** [self.notif_log], read: an [AttributeError] while it is unassigned. *)
Definition get_notif_log : M (list record) :=
  fun st =>
    match notif_log st with
    | Some l => (Ok l, st)
    | None => (Raise (AttributeError "notif_log"), st)
    end.

(** [CompletedTicketNotifier.__filter_records_marked_completed_not_notified];
    the local variable [last_meta_file] is [None] while it is unbound. *)
Definition __filter_records_marked_completed_not_notified
    (completed_tickets : list record) : M (list record) :=
  last_meta_file ←
    try_except
      (objects ← gets s3;
       r ← lift (get_most_recent_modified_file "data_tickets" objects);
       mret (Some r.1))
      (fun e => mret None);
  last_meta_file ←
    match last_meta_file with
    | Some l => mret l
    | None => raise (UnboundLocalError "last_meta_file")
    end;
  previously_completed_tickets ←
    lift (list_comp
            (fun dct =>
               v ← dict_get dct (notion_page_status notion_args);
               Ok (in_list v (notion_page_completion_labels notion_args)))
            (fun dct => dict_get dct (notion_page_ticket_id notion_args))
            last_meta_file);
  recent_tickets ←
    lift (list_comp
            (fun dct =>
               v ← dict_get dct (notion_page_ticket_id notion_args);
               Ok (negb (in_list v previously_completed_tickets)))
            Ok
            completed_tickets);
  mret recent_tickets.

(** [CompletedTicketNotifier.__check_notifications_log] *)
Definition __check_notifications_log (ticket_data : list record)
  : M (list record) :=
  fetched ←
    try_except
      (objects ← gets s3;
       r ← lift (get_most_recent_modified_file "notifications" objects);
       _ ← modify (set_notif_log (Some r.1));
       mret true)
      (fun e => mret false);
  if (fetched : bool) then
    log ← get_notif_log;
    notified ←
      lift (list_comp
              (fun ticket =>
                 v ← dict_get ticket "notification_status";
                 Ok (String.eqb v "success"))
              (fun ticket => dict_get ticket "ticket_id")
              log);
    let ticket_id := notion_page_ticket_id notion_args in
    need_notifications ←
      lift (list_comp
              (fun item =>
                 v ← dict_get item ticket_id;
                 Ok (negb (in_list v notified)))
              Ok
              ticket_data);
    mret need_notifications
  else mret ticket_data.

(** [CompletedTicketNotifier.get_completed_tickets] *)
Definition get_completed_tickets : M (list record) :=
  today ← datetime_now;
  let completed_labels := notion_page_completion_labels notion_args in
  current_meta_file ← generate_meta_file;
  completed_tickets ←
    lift (list_comp
            (fun dct =>
               v ← dict_get dct (notion_page_status notion_args);
               Ok (in_list v completed_labels))
            Ok
            current_meta_file);
  filtered_tickets ←
    __filter_records_marked_completed_not_notified completed_tickets;
  to_notify ← __check_notifications_log filtered_tickets;
  mret to_notify.

Definition msg_to_user (request_title created_date deadline url : string)
  : string :=
  nl +:+ sp12 +:+ "*Your Data Ticket is complete!*  :rocket: " +:+ nl +:+ nl
  +:+ sp12 +:+ "*Ticket*: " +:+ request_title +:+ " " +:+ nl +:+ nl
  +:+ sp12 +:+ "*Created on*: " +:+ created_date +:+ " " +:+ nl +:+ nl
  +:+ sp12 +:+ "*Due Date*: " +:+ deadline +:+ " " +:+ nl +:+ nl
  +:+ sp12 +:+ "<" +:+ url +:+ "|:point_right: Review here.>" +:+ nl
  +:+ sp12.

Definition msg_to_team (user_id request_title created_date deadline url : string)
  : string :=
  nl +:+ sp12 +:+ "*<@" +:+ user_id +:+ ">'s Ticket is complete!* :rocket: "
  +:+ nl +:+ nl
  +:+ sp12 +:+ "*Ticket*: " +:+ request_title +:+ " " +:+ nl +:+ nl
  +:+ sp12 +:+ "*Created on*: " +:+ created_date +:+ " " +:+ nl +:+ nl
  +:+ sp12 +:+ "*Due Date*: " +:+ deadline +:+ " " +:+ nl +:+ nl
  +:+ sp12 +:+ "<" +:+ url +:+ "|:point_right: Review here.>" +:+ nl
  +:+ sp20.

(** The body of the loop of [send_notifications]: the log record of one
    candidate. *)
Definition notification_record (rec : record) : M record :=
  request_title ← lift (dict_get rec (notion_page_title notion_args));
  created_at ← lift (dict_get rec (notion_page_created_at notion_args));
  created_date ←
    match strptime created_at DateTimeFormats.datetime_format with
    | Some d => mret (strftime DateTimeFormats.date_format (date d))
    | None => raise ValueError
    end;
  deadline ← lift (dict_get rec (notion_page_due_date notion_args));
  url ← lift (dict_get rec (notion_page_page_url notion_args));
  user_id ← lift (dict_get rec (notion_page_slack_id notion_args));
  let msg_to_user := msg_to_user request_title created_date deadline url in
  let msg_to_team := msg_to_team user_id request_title created_date deadline url in
  now ← datetime_now;
  let now := strftime DateTimeFormats.datetime_format now in
  status ←
    try_except
      (_ ← post_message user_id msg_to_user;
       _ ← post_message slack_channel msg_to_team;
       mret "success")
      (fun e => mret "failed");
  let notification_record : record := {[ "notification_status" := status ]} in
  let notification_record := <["notified_at" := now]> notification_record in
  ticket ← lift (dict_get rec (notion_page_ticket_id notion_args));
  let notification_record := <["ticket_id" := ticket]> notification_record in
  mret notification_record.

Fixpoint send_loop (meta_data : list record) (notifications_log : list record)
  : M (list record) :=
  match meta_data with
  | [] => mret notifications_log
  | rec :: meta_data' =>
      r ← notification_record rec;
      send_loop meta_data' (notifications_log ++ [r])%list
  end.

(** [CompletedTicketNotifier.send_notifications] *)
Definition send_notifications (meta_data : list record) : M (list record) :=
  send_loop meta_data [].

(** [CompletedTicketNotifier.log_notifications] *)
Definition log_notifications (prefix : string) (data : list record)
  : M unit :=
  today ← datetime_now;
  let today := strftime DateTimeFormats.date_file_name_format today in
  let today_file_name := prefix +:+ "/" +:+ today +:+ ".csv" in
  previous ← get_notif_log;
  let data :=
    match previous with
    | _ :: _ => (data ++ previous)%list
    | [] => data
    end in
  _ ← write_to_s3 data today_file_name;
  mret tt.

(** [CompletedTicketNotifier.notify] *)
Definition notify : M unit :=
  contacts ← get_completed_tickets;
  match contacts with
  | _ :: _ =>
      log ← send_notifications contacts;
      log_notifications "notifications" log
  | [] => mret tt
  end.

(** *** [run.py] *)

(** [background_jobs]: a notifier is built anew, then the job runs. *)
Definition background_jobs : M unit :=
  _ ← modify (set_notif_log None);
  _ ← notify;
  today ← datetime_now;
  let yesterday :=
    strftime DateTimeFormats.datetime_format (minus_one_day (date today)) in
  _ ← delete_meta_files notifications_log_prefix yesterday;
  metafile ← generate_meta_file;
  _ ← load_meta_file metafile metafile_prefix;
  delete_meta_files metafile_prefix yesterday.

(** The scheduler runs the job at every interval; a job that raises is
    logged and the schedule goes on. *)
Definition tick (st : state) : state := (background_jobs st).2.

Fixpoint ticks (n : nat) (st : state) : state :=
  match n with
  | O => st
  | S n' => ticks n' (tick st)
  end.

End Pipeline.

End Job.

Export Job.

(** ** A concrete configuration, for the examples *)

Module Demo.

(** [strptime] on the stamps [strftime] prints: every directive is read as
    a field of fixed width, every other character of the format has to be
    matched. *)
Fixpoint read_digits (n : nat) (s : string) (acc : N) : option (N * string) :=
  match n with
  | O => Some (acc, s)
  | S n' =>
      match s with
      | String c s' =>
          let v := N_of_ascii c in
          if ((48 <=? v) && (v <=? 57))%N
          then read_digits n' s' (acc * 10 + (v - 48))
          else None
      | EmptyString => None
      end
  end.

Definition set_field (c : ascii) (v : N) (d : datetime) : datetime :=
  if Ascii.eqb c "Y" then mk_datetime v (month d) (day d) (hour d) (minute d) (second d) (microsecond d)
  else if Ascii.eqb c "m" then mk_datetime (year d) v (day d) (hour d) (minute d) (second d) (microsecond d)
  else if Ascii.eqb c "d" then mk_datetime (year d) (month d) v (hour d) (minute d) (second d) (microsecond d)
  else if Ascii.eqb c "H" then mk_datetime (year d) (month d) (day d) v (minute d) (second d) (microsecond d)
  else if Ascii.eqb c "M" then mk_datetime (year d) (month d) (day d) (hour d) v (second d) (microsecond d)
  else mk_datetime (year d) (month d) (day d) (hour d) (minute d) v (microsecond d).

Fixpoint parse (fmt : string) (s : string) (d : datetime) : option datetime :=
  match fmt with
  | EmptyString => match s with EmptyString => Some d | _ => None end
  | String c rest =>
      if Ascii.eqb c "%" then
        match rest with
        | String c' rest' =>
            match read_digits (if Ascii.eqb c' "Y" then 4 else 2) s 0 with
            | Some (v, s') => parse rest' s' (set_field c' v d)
            | None => None
            end
        | EmptyString => None
        end
      else
        match s with
        | String c0 s' => if Ascii.eqb c0 c then parse rest s' d else None
        | EmptyString => None
        end
  end.

Definition strptime (value fmt : string) : option datetime :=
  parse fmt value (mk_datetime 1900 1 1 0 0 0 0).

Definition notion_args : NotionSourceConfig :=
  mk_notion_args "title" "due_date" "slack_id" "url" "id" "status"
                 "created_at" ["Done"; "Launched"].

Definition team : string := "C0TEAM".

(** The clock: reading [n] is [n] seconds past 2024-03-07 09:05:00. *)
Definition clock (n : nat) : datetime :=
  mk_datetime 2024 3 7 9 5 (N.of_nat n) 0.

Definition ticket (id status : string) : record :=
  {[ "title" := "Quarterly report"; "due_date" := "2024-03-20";
     "slack_id" := "U" +:+ id; "url" := "https://notion.example/" +:+ id;
     "id" := id; "status" := status;
     "created_at" := "2024-03-01 10:00:00" ]}.

Definition entry (id status notified_at : string) : record :=
  {[ "notification_status" := status; "notified_at" := notified_at;
     "ticket_id" := id ]}.

Definition initial (b : list s3_object) : state := mk_state b [] None 0 0 0.

Definition old : datetime := mk_datetime 2024 3 1 12 0 30 0.

(** A chat platform that delivers every message, and one whose first
    delivery fails. *)
Definition delivers (n : nat) : bool := true.
Definition first_fails (n : nat) : bool := negb (n =? 0).

(** A workspace database with a completed and an open ticket. *)
Definition pull (n : nat) : result (list record) :=
  Ok [ticket "1" "Done"; ticket "2" "Open"].

(** A bucket with the two placeholders, one with a log besides, and one
    without anything under the prefix of the logs. *)
Definition placeholders : list s3_object :=
  [mk_object "data_tickets/" old []; mk_object "notifications/" old []].

Definition logged : list s3_object :=
  [mk_object "data_tickets/" old [];
   mk_object "notifications/20240301_1200.csv" old
             [entry "7" "success" "2024-03-01 12:00:00";
              entry "2" "failed" "2024-03-01 12:00:00"]].

Definition unlogged : list s3_object :=
  [mk_object "data_tickets/" old []].

(** The reader on the files of the examples: their cells are made of
    letters, digits and punctuation, and read back as they were written. *)
Definition DictReader (rows : list record) : list record := rows.

(** A clock whose readings are a minute apart, from 2024-03-07 09:00:00. *)
Definition minutes (n : nat) : datetime :=
  mk_datetime 2024 3 7 9 (N.of_nat n) 0 0.

(** A workspace database in which ticket 1 is completed, then reopened,
    then completed again, this time along with ticket 3. *)
Definition reopened (n : nat) : result (list record) :=
  match n with
  | 0 => Ok [ticket "1" "Done"; ticket "2" "Open"]
  | 1 => Ok [ticket "1" "Open"; ticket "3" "Open"]
  | _ => Ok [ticket "1" "Done"; ticket "3" "Done"]
  end.

End Demo.

(** ** Vocabulary of the specification *)

Module Spec.

Section Vocabulary.

Variable notion_args : NotionSourceConfig.

(** The ticket id of a ticket record. *)
Definition ticket_id_of (c : record) : option string :=
  c !! notion_page_ticket_id notion_args.

(** The status of a ticket record is one of the completed labels. *)
Definition completed (r : record) : Prop :=
  exists v, r !! notion_page_status notion_args = Some v
            /\ v ∈ notion_page_completion_labels notion_args.

(** The test the first comprehension of [get_completed_tickets] applies. *)
Definition status_in_labels (r : record) : bool :=
  match r !! notion_page_status notion_args with
  | Some v => in_list v (notion_page_completion_labels notion_args)
  | None => false
  end.

(** A log entry records a successful notification of ticket [tid]. *)
Definition success_for (tid : string) (e : record) : Prop :=
  e !! "ticket_id" = Some tid /\ e !! "notification_status" = Some "success".

(** The log has an entry with status [success] for ticket [tid]. *)
Definition has_success (log : list record) (tid : string) : Prop :=
  Exists (success_for tid) log.

(** The candidate's ticket id has a [success] entry in the log. *)
Definition already_notified (log : list record) (c : record) : Prop :=
  exists tid, ticket_id_of c = Some tid /\ has_success log tid.

(** The ticket id of the record was that of a completed record of the
    previous snapshot. *)
Definition previously_completed (previous : list record) (c : record) : Prop :=
  exists tid, ticket_id_of c = Some tid
              /\ Exists (fun p => completed p /\ ticket_id_of p = Some tid)
                        previous.

(** The number of [success] entries of a log for ticket [tid]. *)
Definition count_success (tid : string) (log : list record) : nat :=
  length (filter (success_for tid) log).

(** The fields of a notification log entry. *)
Definition log_fields : gset string :=
  {[ "notification_status"; "notified_at"; "ticket_id" ]}.

Definition is_log_entry (e : record) : Prop := dom e = log_fields.

(** The record [send_notifications] appends for a candidate. *)
Definition log_entry (tid status notified_at : string) : record :=
  <["ticket_id" := tid]>
    (<["notified_at" := notified_at]> {[ "notification_status" := status ]}).

(** The two messages of a candidate can be rendered: the fields the
    templates use are there, and the creation time parses. *)
Definition renderable (strptime : string -> string -> option datetime)
    (c : record) : Prop :=
  is_Some (c !! notion_page_title notion_args)
  /\ (exists v d, c !! notion_page_created_at notion_args = Some v
                  /\ strptime v DateTimeFormats.datetime_format = Some d)
  /\ is_Some (c !! notion_page_due_date notion_args)
  /\ is_Some (c !! notion_page_page_url notion_args)
  /\ is_Some (c !! notion_page_slack_id notion_args)
  /\ is_Some (ticket_id_of c).

(** The status logged for a candidate whose first send is attempt [p] of
    the chat platform: the user-facing send is attempt [p]; the team-facing
    send is attempt [p + 1], made when the first delivered. *)
Definition status_of_sends (chat_postMessage : nat -> bool) (p : nat) : string :=
  if chat_postMessage p && chat_postMessage (S p) then "success" else "failed".

(** A log entry can be read by the dedup filter. *)
Definition readable_entry (e : record) : Prop :=
  is_Some (e !! "ticket_id") /\ is_Some (e !! "notification_status").

End Vocabulary.

(** A string of printable ASCII characters: it has no line boundary of
    [str.splitlines] in it (line feed, carriage return, vertical tab, form
    feed, the separators of files, groups and records, next line, line and
    paragraph separator), so the line reader of [codecs] does not cut it. *)
Definition printable_char (c : ascii) : bool :=
  ((32 <=? N_of_ascii c) && (N_of_ascii c <=? 126))%N.

Fixpoint printableb (s : string) : bool :=
  match s with
  | EmptyString => true
  | String c s' => printable_char c && printableb s'
  end.

Definition printable (s : string) : Prop := printableb s = true.

(** A row whose cells are printable. *)
Definition printable_row (e : record) : Prop :=
  map_Forall (fun _ v => printable v) e.

(** The ids the dedup filter collects from a log, and the test it applies to
    a candidate. *)
Definition entry_is_success (e : record) : bool :=
  match e !! "notification_status" with
  | Some v => String.eqb v "success"
  | None => false
  end.

Definition entry_ticket_id (e : record) : string :=
  default EmptyString (e !! "ticket_id").

Definition notified_ids (log : list record) : list string :=
  map entry_ticket_id (List.filter entry_is_success log).

Global Instance has_success_dec log tid : Decision (has_success log tid).
Proof. unfold has_success. apply _. Defined.

Global Instance already_notified_dec args log c :
  Decision (already_notified args log c).
Proof.
  unfold already_notified.
  destruct (ticket_id_of args c) as [tid|].
  - destruct (decide (has_success log tid)) as [H|H].
    + left. exists tid. split; [reflexivity | exact H].
    + right. intros (t & Heq & Ht). inversion Heq. subst. contradiction.
  - right. intros (t & Heq & _). discriminate.
Defined.

Global Instance completed_dec args r : Decision (completed args r).
Proof.
  unfold completed.
  destruct (r !! notion_page_status args) as [v|].
  - destruct (decide (v ∈ notion_page_completion_labels args)) as [H|H].
    + left. exists v. split; [reflexivity | exact H].
    + right. intros (w & Heq & Hw). inversion Heq. subst. contradiction.
  - right. intros (w & Heq & _). discriminate.
Defined.

Global Instance previously_completed_dec args previous c :
  Decision (previously_completed args previous c).
Proof.
  unfold previously_completed.
  destruct (ticket_id_of args c) as [tid|].
  - destruct (decide (Exists (fun p => completed args p
                                       /\ ticket_id_of args p = Some tid)
                             previous)) as [H|H].
    + left. exists tid. split; [reflexivity | exact H].
    + right. intros (t & Heq & Ht). inversion Heq. subst. contradiction.
  - right. intros (t & Heq & _). discriminate.
Defined.

(** An object that the notifier lists when it looks for the previous log. *)
Definition is_log (o : s3_object) : Prop :=
  String.prefix "notifications" (key o) = true.

(** The keys the log writer gives its snapshots, and the placeholder. *)
Definition log_key (k : string) : Prop :=
  k = "notifications/"
  \/ exists stamp, k = "notifications/" +:+ stamp +:+ ".csv"
                   /\ String.length stamp = 13.

(** Some log snapshot of the bucket has a [success] entry for the ticket. *)
Definition notified (b : list s3_object) (tid : string) : Prop :=
  exists o, o ∈ b /\ is_log o /\ has_success (body o) tid.

(** [notified], as a test. *)
Definition notifiedb (b : list s3_object) (tid : string) : bool :=
  existsb (fun o =>
             String.prefix "notifications" (key o)
             && existsb (fun e => bool_decide (success_for tid e)) (body o))
          b.

(** The number of [success] entries for the ticket in all the log
    snapshots of the bucket together. *)
Fixpoint count_success_across (tid : string) (b : list s3_object) : nat :=
  match b with
  | [] => 0
  | o :: b' =>
      (if String.prefix "notifications" (key o)
       then count_success tid (body o) else 0)
      + count_success_across tid b'
  end.

(** The bucket of a deployment whose logs were written by the log writer,
    when the clock has been read [r] times: keys are unique, every object
    was stamped before the next reading of the clock, the objects listed as
    logs have the keys and the fields of the log writer and printable
    cells, no log has two [success] entries for a ticket, and a log that is
    not older than another one has all its [success] entries. *)
Record bucket_inv (clock : nat -> datetime) (b : list s3_object) (r : nat)
  : Prop := mk_bucket_inv {
  inv_keys : NoDup (map key b);
  inv_past : forall o, o ∈ b ->
               Datetime.ltb (last_modified o) (clock r) = true;
  inv_log_keys : forall o, o ∈ b -> is_log o -> log_key (key o);
  inv_entries : forall o, o ∈ b -> is_log o -> Forall is_log_entry (body o);
  inv_printable : forall o, o ∈ b -> is_log o ->
                    Forall printable_row (body o);
  inv_once : forall o tid, o ∈ b -> is_log o ->
               count_success tid (body o) <= 1;
  inv_history : forall o o' tid, o ∈ b -> o' ∈ b -> is_log o -> is_log o' ->
                  Datetime.ltb (last_modified o) (last_modified o') = false ->
                  has_success (body o') tid -> has_success (body o) tid
}.

(** A step from [st] to [st'] keeps the invariant of the bucket and the
    tickets already notified. *)
Definition advances (clock : nat -> datetime) (st st' : state) : Prop :=
  bucket_inv clock (s3 st) (reads st) ->
  bucket_inv clock (s3 st') (reads st')
  /\ forall tid, notified (s3 st) tid -> notified (s3 st') tid.

(** The candidates a tick that starts in [st] sends notifications for:
    the list [notify] passes to [send_notifications], the only caller of
    the chat platform in the job. *)
Definition tick_contacts (notion_args : NotionSourceConfig)
    (clock : nat -> datetime) (notion_meta : nat -> result (list record))
    (DictReader : list record -> list record)
    (st : state) : list record :=
  match get_completed_tickets notion_args clock notion_meta DictReader
          (set_notif_log None st) with
  | (Ok contacts, _) => contacts
  | (Raise _, _) => []
  end.

(** Every run of [m] relates the state it starts from to the state it
    ends in by [R], whether it returns or raises. *)
Definition preserves {A} (R : state -> state -> Prop) (m : M A) : Prop :=
  forall st r st', m st = (r, st') -> R st st'.

(** The bucket, the notifier and the outbox are left alone; the counters of
    the oracles may go up. *)
Definition only_reads (st st' : state) : Prop :=
  s3 st' = s3 st /\ notif_log st' = notif_log st /\ outbox st' = outbox st
  /\ posts st' = posts st /\ reads st <= reads st' /\ pulls st <= pulls st'.

(** The bucket is left alone and the clock does not go back. *)
Definition same_bucket (st st' : state) : Prop :=
  s3 st' = s3 st /\ reads st <= reads st'.

(** The bucket and the attribute of the notifier are left alone and the
    clock does not go back. *)
Definition keeps_notifier (st st' : state) : Prop :=
  s3 st' = s3 st /\ notif_log st' = notif_log st /\ reads st <= reads st'.

(** No message is delivered. *)
Definition same_outbox (st st' : state) : Prop := outbox st' = outbox st.

(** No object of the bucket is listed as a log; a step that writes no log
    where there is none. *)
Definition no_log (b : list s3_object) : Prop :=
  forall o, o ∈ b -> ~ is_log o.

Definition keeps_no_log (st st' : state) : Prop :=
  no_log (s3 st) -> no_log (s3 st').

(** The destinations of the two messages of a candidate. *)
Definition destinations (notion_args : NotionSourceConfig)
    (slack_channel : string) (c : record) : list string :=
  [default EmptyString (c !! notion_page_slack_id notion_args);
   slack_channel].

End Spec.

Export Spec.

(** * Properties *)

(** ** Results and comprehensions *)

Lemma list_comp_filter {A B} (cond : A -> result bool) (out : A -> result B)
    (c : A -> bool) (o : A -> B) (l : list A) :
  Forall (fun x => cond x = Ok (c x) /\ (c x = true -> out x = Ok (o x))) l ->
  list_comp cond out l = Ok (map o (List.filter c l)).
Proof.
  induction 1 as [|x l [Hc Ho] _ IH]; [reflexivity|].
  simpl. rewrite Hc. simpl. destruct (c x) eqn:E.
  - rewrite (Ho eq_refl). simpl. rewrite IH. reflexivity.
  - exact IH.
Qed.

Lemma list_comp_id_filter {A} (cond : A -> result bool) (c : A -> bool)
    (l : list A) :
  Forall (fun x => cond x = Ok (c x)) l ->
  list_comp cond Ok l = Ok (List.filter c l).
Proof.
  intros H. rewrite (list_comp_filter cond Ok c id).
  - rewrite map_id. reflexivity.
  - eapply Forall_impl; [exact H|]. intros x Hx. split; [exact Hx|reflexivity].
Qed.

Lemma in_list_true x l : in_list x l = true <-> x ∈ l.
Proof. unfold in_list. rewrite bool_decide_eq_true. reflexivity. Qed.

Lemma in_list_false x l : in_list x l = false <-> x ∉ l.
Proof. unfold in_list. rewrite bool_decide_eq_false. reflexivity. Qed.

Lemma filter_bool_prop {A} (c : A -> bool) (P : A -> Prop)
    `{forall x, Decision (P x)} (l : list A) :
  Forall (fun x => c x = true <-> P x) l ->
  List.filter c l = filter P l.
Proof.
  induction 1 as [|x l Hx _ IH]; [reflexivity|].
  simpl. rewrite filter_cons. destruct (c x) eqn:E.
  - rewrite decide_True by (apply Hx; reflexivity). rewrite IH. reflexivity.
  - rewrite decide_False; [exact IH|]. intros HP. apply Hx in HP. congruence.
Qed.

(** ** Computations *)

Ltac munfold :=
  unfold mbind, M_bind, mret, M_ret, result_bind, result_ret in *.

Lemma bindM_Ok {A B} (m : M A) (k : A -> M B) st a st1 :
  m st = (Ok a, st1) -> bindM m k st = k a st1.
Proof. intros H. unfold bindM. rewrite H. reflexivity. Qed.

Lemma bindM_Raise {A B} (m : M A) (k : A -> M B) st e st1 :
  m st = (Raise e, st1) -> bindM m k st = (Raise e, st1).
Proof. intros H. unfold bindM. rewrite H. reflexivity. Qed.

Lemma bindM_inv {A B} (m : M A) (k : A -> M B) st r st' :
  bindM m k st = (r, st') ->
  (exists a st1, m st = (Ok a, st1) /\ k a st1 = (r, st'))
  \/ (exists e, m st = (Raise e, st') /\ r = Raise e).
Proof.
  unfold bindM. destruct (m st) as [[a|e] st1]; intros H.
  - left. eauto.
  - right. inversion H. subst. eauto.
Qed.

(** ** C10: the write on an empty list *)

Section Write.

Variable clock : nat -> datetime.

(** C10. [write_to_s3] on an empty list raises [IndexError] and leaves the
    state as it was: the keys of the first record are read before the list
    is tested.  So the branch of the empty list, which returns [None], is
    never taken: for no input does the write return [None]. *)
Theorem write_to_s3_empty_branch_unreachable :
  (forall file_name st,
      write_to_s3 clock [] file_name st = (Raise IndexError, st))
  /\ (forall data file_name st,
         (write_to_s3 clock data file_name st).1 <> Ok None).
Proof.
  split.
  - intros file_name st. reflexivity.
  - intros data file_name st. destruct data as [|first data'].
    + discriminate.
    + unfold write_to_s3. munfold. unfold bindM, lift. simpl.
      unfold Py.bind. repeat case_match; simpl; discriminate.
Qed.

End Write.

(** ** C2: the dedup filter *)

Lemma notified_comprehension (log : list record) :
  Forall readable_entry log ->
  list_comp
    (fun ticket =>
       v ← dict_get ticket "notification_status"; Ok (String.eqb v "success"))
    (fun ticket => dict_get ticket "ticket_id")
    log
  = Ok (notified_ids log).
Proof.
  intros H. apply list_comp_filter.
  eapply Forall_impl; [exact H|]. intros e [[t Ht] [v Hv]].
  unfold entry_is_success, entry_ticket_id, dict_get. munfold.
  rewrite Ht, Hv. simpl. split; reflexivity.
Qed.

Lemma notified_ids_spec (log : list record) (t : string) :
  Forall readable_entry log ->
  t ∈ notified_ids log <-> has_success log t.
Proof.
  intros H. unfold notified_ids, has_success.
  rewrite Exists_exists, list_elem_of_In, in_map_iff. split.
  - intros (e & Het & Hin). apply filter_In in Hin as [Hin Hs].
    exists e. split; [apply list_elem_of_In; exact Hin|].
    rewrite Forall_forall in H.
    destruct (H e) as [[t' Ht'] [v Hv]]; [apply list_elem_of_In; exact Hin|].
    unfold entry_ticket_id in Het. unfold entry_is_success in Hs.
    rewrite Ht' in Het. rewrite Hv in Hs. simpl in Het. subst t'.
    apply String.eqb_eq in Hs. subst v. split; assumption.
  - intros (e & Hin & Ht & Hs). exists e. split.
    + unfold entry_ticket_id. rewrite Ht. reflexivity.
    + apply filter_In. split; [apply list_elem_of_In; exact Hin|].
      unfold entry_is_success. rewrite Hs. reflexivity.
Qed.

Lemma candidates_comprehension (idk : string) (notified : list string)
    (ticket_data : list record) :
  Forall (fun c => is_Some (c !! idk)) ticket_data ->
  list_comp
    (fun item => v ← dict_get item idk; Ok (negb (in_list v notified)))
    Ok ticket_data
  = Ok (List.filter
          (fun c => negb (in_list (default EmptyString (c !! idk)) notified))
          ticket_data).
Proof.
  intros H. apply list_comp_id_filter.
  eapply Forall_impl; [exact H|]. intros c [t Ht].
  unfold dict_get. munfold. rewrite Ht. reflexivity.
Qed.

Section Dedup.

Variable notion_args : NotionSourceConfig.
Variable DictReader : list record -> list record.

Lemma check_notifications_log_fetched ticket_data st log name :
  get_most_recent_modified_file DictReader "notifications" (s3 st) = Ok (log, name) ->
  Forall readable_entry log ->
  Forall (fun c => is_Some (ticket_id_of notion_args c)) ticket_data ->
  __check_notifications_log notion_args DictReader ticket_data st
  = (Ok (filter (fun c => ~ already_notified notion_args log c) ticket_data),
     set_notif_log (Some log) st).
Proof.
  intros Hget Hlog Hc.
  pose proof (notified_comprehension log Hlog) as Hn.
  pose proof (candidates_comprehension _ (notified_ids log) _ Hc) as Hk.
  unfold __check_notifications_log. munfold.
  unfold bindM, try_except, gets, lift, modify, get_notif_log. simpl.
  rewrite Hget. simpl. rewrite Hn. simpl. rewrite Hk. simpl.
  unfold ret. f_equal. f_equal. apply filter_bool_prop.
  eapply Forall_impl; [exact Hc|]. intros c [t Ht]. simpl.
  unfold ticket_id_of in Ht. rewrite Ht. simpl.
  rewrite negb_true_iff, in_list_false, (notified_ids_spec log t Hlog).
  unfold already_notified, ticket_id_of. rewrite Ht. split.
  - intros Hno (t' & Heq & Hs). inversion Heq. subst. contradiction.
  - intros Hno Hs. apply Hno. exists t. split; [reflexivity|exact Hs].
Qed.

Lemma check_notifications_log_absent ticket_data st e :
  get_most_recent_modified_file DictReader "notifications" (s3 st) = Raise e ->
  __check_notifications_log notion_args DictReader ticket_data st = (Ok ticket_data, st).
Proof.
  intros Hget.
  unfold __check_notifications_log. munfold.
  unfold bindM, try_except, gets, lift, modify, get_notif_log. simpl.
  rewrite Hget. reflexivity.
Qed.

(** C2. With a notification log retrieved, the dedup filter returns the
    candidates whose ticket id has no [success] entry in the log, in their
    order; a candidate whose ticket id only has entries that are not
    [success] (such as [failed]) is kept; with no log retrievable, the
    candidates are returned as they are. *)
Theorem check_notifications_log_dedup (ticket_data : list record) (st : state) :
  Forall (fun c => is_Some (ticket_id_of notion_args c)) ticket_data ->
  (forall log name,
      get_most_recent_modified_file DictReader "notifications" (s3 st) = Ok (log, name) ->
      Forall readable_entry log) ->
  (forall log name,
      get_most_recent_modified_file DictReader "notifications" (s3 st) = Ok (log, name) ->
      (__check_notifications_log notion_args DictReader ticket_data st).1
      = Ok (filter (fun c => ~ already_notified notion_args log c) ticket_data)
      /\ (forall c tid,
             c ∈ ticket_data -> ticket_id_of notion_args c = Some tid ->
             (forall e, e ∈ log -> e !! "ticket_id" = Some tid ->
                        e !! "notification_status" = Some "failed") ->
             exists need,
               (__check_notifications_log notion_args DictReader ticket_data st).1 = Ok need
               /\ c ∈ need))
  /\ (forall e,
         get_most_recent_modified_file DictReader "notifications" (s3 st) = Raise e ->
         (__check_notifications_log notion_args DictReader ticket_data st).1
         = Ok ticket_data).
Proof.
  intros Hc Hlog. split.
  - intros log name Hget.
    rewrite (check_notifications_log_fetched _ _ _ _ Hget (Hlog _ _ Hget) Hc).
    simpl. split; [reflexivity|].
    intros c tid Hin Hid Hfailed. eexists. split; [reflexivity|].
    apply list_elem_of_filter. split; [|exact Hin].
    intros (t & Ht & Hs). rewrite Hid in Ht. inversion Ht. subst t.
    apply Exists_exists in Hs as (e & He & Het & Hes).
    rewrite (Hfailed e He Het) in Hes. discriminate.
  - intros e Hget.
    rewrite (check_notifications_log_absent _ _ _ Hget). reflexivity.
Qed.

End Dedup.

(** ** C3, C4: the completion diff *)

Section Diff.

Variable notion_args : NotionSourceConfig.
Variable DictReader : list record -> list record.

Lemma status_in_labels_spec r :
  status_in_labels notion_args r = true <-> completed notion_args r.
Proof.
  unfold status_in_labels, completed.
  destruct (r !! notion_page_status notion_args) as [v|].
  - rewrite in_list_true. split.
    + intros H. exists v. split; [reflexivity|exact H].
    + intros (w & Heq & Hw). inversion Heq. subst. exact Hw.
  - split; [discriminate|]. intros (w & Heq & _). discriminate.
Qed.

(** The first comprehension of [get_completed_tickets]. *)
Lemma completed_comprehension (current : list record) :
  Forall (fun r => is_Some (r !! notion_page_status notion_args)) current ->
  list_comp
    (fun dct =>
       v ← dict_get dct (notion_page_status notion_args);
       Ok (in_list v (notion_page_completion_labels notion_args)))
    Ok current
  = Ok (filter (completed notion_args) current).
Proof.
  intros H. rewrite (list_comp_id_filter _ (status_in_labels notion_args)).
  - f_equal. apply filter_bool_prop. apply Forall_forall. intros r _.
    apply status_in_labels_spec.
  - eapply Forall_impl; [exact H|]. intros r [v Hv].
    unfold status_in_labels, dict_get. munfold. rewrite Hv. reflexivity.
Qed.

(** With no previous snapshot retrievable, the diff raises: the handler of
    the fetch binds nothing to [last_meta_file], which is read next. *)
Lemma filter_records_previous_absent completed_tickets st e :
  get_most_recent_modified_file DictReader "data_tickets" (s3 st) = Raise e ->
  __filter_records_marked_completed_not_notified notion_args DictReader completed_tickets st
  = (Raise (UnboundLocalError "last_meta_file"), st).
Proof.
  intros Hget.
  unfold __filter_records_marked_completed_not_notified. munfold.
  unfold bindM, try_except, gets, lift. simpl. rewrite Hget. reflexivity.
Qed.

(** With a previous snapshot, the diff keeps the completed records whose
    ticket id was not that of a completed record before, in their order. *)
Lemma filter_records_previous_present completed_tickets st previous name :
  get_most_recent_modified_file DictReader "data_tickets" (s3 st) = Ok (previous, name) ->
  Forall (fun r => is_Some (r !! notion_page_status notion_args)) previous ->
  Forall (fun r => completed notion_args r ->
                   is_Some (ticket_id_of notion_args r)) previous ->
  Forall (fun c => is_Some (ticket_id_of notion_args c)) completed_tickets ->
  __filter_records_marked_completed_not_notified notion_args DictReader completed_tickets st
  = (Ok (filter (fun c => ~ previously_completed notion_args previous c)
                completed_tickets), st).
Proof.
  intros Hget Hst Hid Hc.
  set (ids := map (fun r => default EmptyString (ticket_id_of notion_args r))
                  (List.filter (status_in_labels notion_args) previous)).
  assert (Hprev :
    list_comp
      (fun dct =>
         v ← dict_get dct (notion_page_status notion_args);
         Ok (in_list v (notion_page_completion_labels notion_args)))
      (fun dct => dict_get dct (notion_page_ticket_id notion_args))
      previous = Ok ids).
  { apply list_comp_filter. apply Forall_forall. intros r Hr.
    rewrite Forall_forall in Hst, Hid.
    destruct (Hst r Hr) as [v Hv]. split.
    - unfold status_in_labels, dict_get. munfold. rewrite Hv. reflexivity.
    - intros Hs. apply status_in_labels_spec in Hs.
      destruct (Hid r Hr Hs) as [t Ht]. unfold ticket_id_of in *.
      unfold dict_get. rewrite Ht. reflexivity. }
  pose proof (candidates_comprehension _ ids _ Hc) as Hk.
  unfold __filter_records_marked_completed_not_notified. munfold.
  unfold bindM, try_except, gets, lift. simpl. rewrite Hget. simpl.
  rewrite Hprev. simpl. rewrite Hk. simpl. unfold ret. f_equal. f_equal.
  apply filter_bool_prop.
  eapply Forall_impl; [exact Hc|]. intros c [t Ht]. simpl.
  unfold ticket_id_of in Ht. rewrite Ht. simpl.
  rewrite negb_true_iff, in_list_false.
  assert (Hids : t ∈ ids <->
                 Exists (fun p => completed notion_args p
                                  /\ ticket_id_of notion_args p = Some t)
                        previous).
  { unfold ids. rewrite Exists_exists, list_elem_of_In, in_map_iff. split.
    - intros (p & Hpt & Hin). apply filter_In in Hin as [Hin Hs].
      apply status_in_labels_spec in Hs.
      exists p. split; [apply list_elem_of_In; exact Hin|]. split; [exact Hs|].
      rewrite Forall_forall in Hid.
      destruct (Hid p) as [t' Ht']; [apply list_elem_of_In; exact Hin|exact Hs|].
      rewrite Ht' in Hpt. simpl in Hpt. subst. exact Ht'.
    - intros (p & Hin & Hs & Hpt). exists p. split.
      + rewrite Hpt. reflexivity.
      + apply filter_In. split; [apply list_elem_of_In; exact Hin|].
        apply status_in_labels_spec. exact Hs. }
  rewrite Hids. unfold previously_completed, ticket_id_of. rewrite Ht. split.
  - intros Hno (t' & Heq & Hs). inversion Heq. subst. contradiction.
  - intros Hno Hs. apply Hno. exists t. split; [reflexivity|exact Hs].
Qed.

(** C4. When the fetch of the previous meta snapshot raises, the diff stage
    does not fall back to a cold start: the handler binds nothing, and an
    [UnboundLocalError] escapes the stage, whatever the completed tickets
    are. *)
Theorem filter_records_fetch_failure_escapes completed_tickets st e :
  get_most_recent_modified_file DictReader "data_tickets" (s3 st) = Raise e ->
  (__filter_records_marked_completed_not_notified
     notion_args DictReader completed_tickets st).1
  = Raise (UnboundLocalError "last_meta_file").
Proof.
  intros Hget. rewrite (filter_records_previous_absent _ _ _ Hget).
  reflexivity.
Qed.

End Diff.

(** C3. The cold start of the specification: the current snapshot has a
    completed ticket 1 and an open ticket 2, and there is no previous
    snapshot.  The diff does not return ticket 1: it raises. *)
Theorem cold_start_diff_raises :
  (get_completed_tickets Demo.notion_args Demo.clock
     (fun _ => Ok [Demo.ticket "1" "Done"; Demo.ticket "2" "Open"])
     Demo.DictReader (Demo.initial [])).1
  = Raise (UnboundLocalError "last_meta_file").
Proof. vm_compute. reflexivity. Qed.

(** ** C6: the notifier *)

Section Notifier.

Variable notion_args : NotionSourceConfig.
Variable slack_channel : string.
Variable clock : nat -> datetime.
Variable chat_postMessage : nat -> bool.
Variable strptime : string -> string -> option datetime.

Local Abbreviation notification_record :=
  (Job.notification_record notion_args slack_channel clock chat_postMessage
                           strptime).
Local Abbreviation send_loop :=
  (Job.send_loop notion_args slack_channel clock chat_postMessage strptime).
Local Abbreviation send_notifications :=
  (Job.send_notifications notion_args slack_channel clock chat_postMessage
                          strptime).

(** One candidate: its entry, and what is left of the state. *)
Lemma notification_record_renderable c st :
  renderable notion_args strptime c ->
  exists tid st',
    ticket_id_of notion_args c = Some tid
    /\ notification_record c st
       = (Ok (log_entry tid (status_of_sends chat_postMessage (posts st))
                        (strftime DateTimeFormats.datetime_format
                                  (clock (reads st)))), st')
    /\ s3 st' = s3 st /\ notif_log st' = notif_log st
    /\ pulls st' = pulls st /\ reads st' = S (reads st)
    /\ S (posts st) <= posts st'.
Proof.
  intros ([ti Hti] & (v & d & Hv & Hd) & [du Hdu] & [u Hu] & [sl Hsl] & [tid Htid]).
  exists tid.
  unfold Job.notification_record, status_of_sends.
  munfold. unfold bindM, try_except, lift, dict_get, datetime_now, post_message.
  unfold ticket_id_of in *.
  rewrite Hti, Hv, Hd, Hdu, Hu, Hsl. simpl.
  destruct (chat_postMessage (posts st)) eqn:E1; simpl.
  - destruct (chat_postMessage (S (posts st))) eqn:E2; simpl;
      rewrite Htid; simpl; eexists; (split; [reflexivity|]);
      (split; [reflexivity|]); simpl; repeat split; lia.
  - rewrite Htid. simpl. eexists. split; [reflexivity|].
    split; [reflexivity|]. simpl. repeat split; lia.
Qed.

Lemma send_loop_acc l acc st :
  send_loop l acc st
  = match send_loop l [] st with
    | (Ok r, st') => (Ok (acc ++ r), st')
    | (Raise e, st') => (Raise e, st')
    end.
Proof.
  revert acc st. induction l as [|c l IH]; intros acc st.
  - simpl. unfold mret, M_ret, ret. rewrite app_nil_r. reflexivity.
  - simpl. munfold. unfold bindM.
    destruct (notification_record c st) as [[r|e] st1]; [|reflexivity].
    rewrite (IH (acc ++ [r]) st1), (IH [r] st1).
    destruct (send_loop l [] st1) as [[rs|e] st2]; [|reflexivity].
    rewrite <- app_assoc. reflexivity.
Qed.

Lemma send_notifications_cons c l st :
  send_notifications (c :: l) st
  = match notification_record c st with
    | (Ok r, st1) =>
        match send_notifications l st1 with
        | (Ok rs, st2) => (Ok (r :: rs), st2)
        | (Raise e, st2) => (Raise e, st2)
        end
    | (Raise e, st1) => (Raise e, st1)
    end.
Proof.
  unfold Job.send_notifications. simpl.
  munfold. unfold bindM.
  destruct (notification_record c st) as [[r|e] st1]; [|reflexivity].
  rewrite send_loop_acc. reflexivity.
Qed.

Lemma send_notifications_renderable meta_data st :
  Forall (renderable notion_args strptime) meta_data ->
  exists log st',
    send_notifications meta_data st = (Ok log, st')
    /\ length log = length meta_data
    /\ s3 st' = s3 st /\ notif_log st' = notif_log st
    /\ pulls st' = pulls st
    /\ reads st' = reads st + length meta_data
    /\ posts st + length meta_data <= posts st'
    /\ (forall i c, meta_data !! i = Some c ->
          let st_i := (send_notifications (take i meta_data) st).2 in
          exists tid,
            ticket_id_of notion_args c = Some tid
            /\ log !! i
               = Some (log_entry tid
                         (status_of_sends chat_postMessage (posts st_i))
                         (strftime DateTimeFormats.datetime_format
                                   (clock (reads st_i))))).
Proof.
  intros H. revert st. induction H as [|c l Hc _ IH]; intros st.
  - exists [], st. repeat split; simpl; try lia.
    intros i c Hi. rewrite lookup_nil in Hi. discriminate.
  - destruct (notification_record_renderable c st Hc)
      as (tid & st1 & Htid & Hrec & Hs3 & Hnl & Hpu & Hre & Hpo).
    destruct (IH st1) as (log & st2 & Hsend & Hlen & Hs3' & Hnl' & Hpu' & Hre' & Hpo' & Hith).
    eexists. exists st2. rewrite send_notifications_cons, Hrec, Hsend.
    split; [reflexivity|]. simpl. rewrite Hlen.
    repeat split; try congruence; try lia.
    intros [|i] c' Hi; simpl in Hi.
    + inversion Hi. subst c'. exists tid. split; [exact Htid|]. reflexivity.
    + destruct (Hith i c' Hi) as (tid' & Htid' & Hlog).
      exists tid'. split; [exact Htid'|]. simpl.
      rewrite send_notifications_cons, Hrec. simpl in Hlog.
      destruct (send_notifications (take i l) st1) as [[rs|e] st3]; exact Hlog.
Qed.

(** C6, as amended. For candidates that have the fields of the messages
    and a creation time that parses, the notifier returns one log entry per
    candidate, in the order of the candidates, and does not raise for a
    send that fails: the entry of the candidate at position [i] carries its
    ticket id, and its status is [success] when both of its sends deliver
    and [failed] when one of them raises; the entries of the other
    candidates are there all the same. *)
Theorem send_notifications_one_entry_per_candidate meta_data st :
  Forall (renderable notion_args strptime) meta_data ->
  exists log st',
    send_notifications meta_data st = (Ok log, st')
    /\ length log = length meta_data
    /\ (forall i c, meta_data !! i = Some c ->
          let st_i := (send_notifications (take i meta_data) st).2 in
          exists tid,
            ticket_id_of notion_args c = Some tid
            /\ log !! i
               = Some (log_entry tid
                         (status_of_sends chat_postMessage (posts st_i))
                         (strftime DateTimeFormats.datetime_format
                                   (clock (reads st_i))))).
Proof.
  intros H.
  destruct (send_notifications_renderable meta_data st H)
    as (log & st' & Hsend & Hlen & _ & _ & _ & _ & _ & Hith).
  exists log, st'. auto.
Qed.

End Notifier.

(** C6, as stated, fails: of three candidates, the second one lacks the
    chat-user id.  The first candidate gets its two messages, then the
    notifier raises [KeyError]: no entry is returned, neither that of the
    first candidate nor that of the third, which is not processed. *)
Lemma send_notifications_missing_field_raises :
  let run :=
    send_notifications Demo.notion_args Demo.team Demo.clock Demo.delivers
      Demo.strptime
      [Demo.ticket "1" "Done";
       base.delete "slack_id" (Demo.ticket "2" "Done");
       Demo.ticket "3" "Done"]
      (Demo.initial []) in
  run.1 = Raise (KeyError "slack_id")
  /\ map fst (outbox run.2) = ["U1"; "C0TEAM"].
Proof. split; vm_compute; reflexivity. Qed.

(** ** Frames: what a computation leaves alone *)

Section Frames.

Context {A : Type} (R : state -> state -> Prop).
Hypothesis R_refl : forall st, R st st.
Hypothesis R_trans : forall st1 st2 st3, R st1 st2 -> R st2 st3 -> R st1 st3.

Lemma preserves_ret (a : A) : preserves R (ret a).
Proof. intros st r st' H. inversion H. apply R_refl. Qed.

Lemma preserves_mret (a : A) : preserves R (mret a : M A).
Proof. apply preserves_ret. Qed.

Lemma preserves_raise (e : exn) : preserves R (raise e : M A).
Proof. intros st r st' H. inversion H. apply R_refl. Qed.

Lemma preserves_lift (x : result A) : preserves R (lift x).
Proof. intros st r st' H. inversion H. apply R_refl. Qed.

Lemma preserves_gets (f : state -> A) : preserves R (gets f).
Proof. intros st r st' H. inversion H. apply R_refl. Qed.

Lemma preserves_bind {B} (m : M B) (k : B -> M A) :
  preserves R m -> (forall b, preserves R (k b)) -> preserves R (m ≫= k).
Proof.
  intros Hm Hk st r st' H. munfold.
  apply bindM_inv in H as [(b & st1 & H1 & H2) | (e & H1 & _)].
  - eapply R_trans; [eapply Hm; exact H1 | eapply Hk; exact H2].
  - eapply Hm. exact H1.
Qed.

Lemma preserves_try_except (body : M A) (handler : exn -> M A) :
  preserves R body -> (forall e, preserves R (handler e)) ->
  preserves R (try_except body handler).
Proof.
  intros Hb Hh st r st' H. unfold try_except in H.
  destruct (body st) as [[a|e] st1] eqn:E.
  - inversion H. subst. eapply Hb. exact E.
  - eapply R_trans; [eapply Hb; exact E | eapply Hh; exact H].
Qed.

End Frames.

Lemma only_reads_refl st : only_reads st st.
Proof. unfold only_reads. repeat split; lia. Qed.

Lemma only_reads_trans st1 st2 st3 :
  only_reads st1 st2 -> only_reads st2 st3 -> only_reads st1 st3.
Proof. unfold only_reads. intros (?&?&?&?&?&?) (?&?&?&?&?&?). repeat split; try congruence; lia. Qed.

Lemma same_bucket_refl st : same_bucket st st.
Proof. unfold same_bucket. split; [reflexivity|lia]. Qed.

Lemma same_bucket_trans st1 st2 st3 :
  same_bucket st1 st2 -> same_bucket st2 st3 -> same_bucket st1 st3.
Proof. unfold same_bucket. intros [? ?] [? ?]. split; [congruence|lia]. Qed.

Lemma only_reads_same_bucket st st' : only_reads st st' -> same_bucket st st'.
Proof. unfold only_reads, same_bucket. intros (?&?&?&?&?&?). split; assumption. Qed.

Create HintDb frames.
#[export] Hint Resolve only_reads_refl only_reads_trans same_bucket_refl
  same_bucket_trans : frames.
#[export] Hint Resolve preserves_ret preserves_mret preserves_raise
  preserves_lift preserves_gets : frames.

(** Proves a frame of a computation built from binds, handlers, matches and
    the computations in the hint database. *)
Ltac frame :=
  repeat first
    [ solve [eauto with frames]
    | apply preserves_bind
    | apply preserves_try_except
    | progress intros
    | match goal with
      | |- preserves _ (match ?x with _ => _ end) => destruct x
      | |- preserves _ (if ?x then _ else _) => destruct x
      end ].

Lemma keeps_notifier_refl st : keeps_notifier st st.
Proof. unfold keeps_notifier. repeat split; lia. Qed.

Lemma keeps_notifier_trans st1 st2 st3 :
  keeps_notifier st1 st2 -> keeps_notifier st2 st3 -> keeps_notifier st1 st3.
Proof.
  unfold keeps_notifier. intros (?&?&?) (?&?&?).
  repeat split; try congruence; lia.
Qed.

Lemma only_reads_keeps_notifier st st' :
  only_reads st st' -> keeps_notifier st st'.
Proof. unfold only_reads, keeps_notifier. intros (?&?&?&?&?&?). auto. Qed.

Lemma keeps_notifier_same_bucket st st' :
  keeps_notifier st st' -> same_bucket st st'.
Proof. unfold keeps_notifier, same_bucket. intros (?&?&?). auto. Qed.

#[export] Hint Resolve keeps_notifier_refl keeps_notifier_trans : frames.

Lemma preserves_weaken {A} (R R' : state -> state -> Prop) (m : M A) :
  (forall st st', R st st' -> R' st st') -> preserves R m -> preserves R' m.
Proof. intros HR Hm st r st' H. apply HR. eapply Hm. exact H. Qed.

Lemma preserves_only_reads_same_bucket {A} (m : M A) :
  preserves only_reads m -> preserves same_bucket m.
Proof. apply preserves_weaken. apply only_reads_same_bucket. Qed.

Lemma preserves_only_reads_keeps_notifier {A} (m : M A) :
  preserves only_reads m -> preserves keeps_notifier m.
Proof. apply preserves_weaken. apply only_reads_keeps_notifier. Qed.

Lemma preserves_keeps_notifier_same_bucket {A} (m : M A) :
  preserves keeps_notifier m -> preserves same_bucket m.
Proof. apply preserves_weaken. apply keeps_notifier_same_bucket. Qed.

#[export] Hint Resolve preserves_only_reads_same_bucket
  preserves_only_reads_keeps_notifier preserves_keeps_notifier_same_bucket
  : frames.

Section JobFrames.

Variable notion_args : NotionSourceConfig.
Variable slack_channel : string.
Variable clock : nat -> datetime.
Variable chat_postMessage : nat -> bool.
Variable notion_meta : nat -> result (list record).
Variable strptime : string -> string -> option datetime.
Variable DictReader : list record -> list record.

Lemma datetime_now_only_reads : preserves only_reads (datetime_now clock).
Proof.
  intros st r st' H. inversion H. unfold only_reads. simpl.
  repeat split; lia.
Qed.

Lemma generate_meta_file_only_reads :
  preserves only_reads (generate_meta_file notion_meta).
Proof.
  intros st r st' H. inversion H. unfold only_reads. simpl.
  repeat split; lia.
Qed.

Lemma get_notif_log_only_reads : preserves only_reads get_notif_log.
Proof.
  intros st r st' H. unfold get_notif_log in H.
  destruct (notif_log st); inversion H; apply only_reads_refl.
Qed.

Lemma post_message_keeps_notifier slack_id msg :
  preserves keeps_notifier (post_message chat_postMessage slack_id msg).
Proof.
  intros st r st' H. unfold post_message in H.
  destruct (chat_postMessage (posts st)); inversion H;
    unfold keeps_notifier; simpl; repeat split; lia.
Qed.

Lemma set_notif_log_same_bucket l :
  preserves same_bucket (modify (set_notif_log l)).
Proof.
  intros st r st' H. inversion H. unfold same_bucket. simpl. split; [reflexivity|lia].
Qed.

Hint Resolve datetime_now_only_reads generate_meta_file_only_reads
  get_notif_log_only_reads post_message_keeps_notifier
  set_notif_log_same_bucket : frames.

Lemma filter_records_only_reads completed_tickets :
  preserves only_reads
    (__filter_records_marked_completed_not_notified notion_args DictReader completed_tickets).
Proof. unfold __filter_records_marked_completed_not_notified. frame. Qed.

Hint Resolve filter_records_only_reads : frames.

Lemma check_notifications_log_same_bucket ticket_data :
  preserves same_bucket (__check_notifications_log notion_args DictReader ticket_data).
Proof. unfold __check_notifications_log. frame. Qed.

Hint Resolve check_notifications_log_same_bucket : frames.

Lemma get_completed_tickets_same_bucket :
  preserves same_bucket (get_completed_tickets notion_args clock notion_meta DictReader).
Proof. unfold get_completed_tickets. frame. Qed.

Lemma notification_record_keeps_notifier rec :
  preserves keeps_notifier
    (notification_record notion_args slack_channel clock chat_postMessage
                         strptime rec).
Proof. unfold notification_record. frame. Qed.

Hint Resolve notification_record_keeps_notifier : frames.

Lemma send_loop_keeps_notifier meta_data acc :
  preserves keeps_notifier
    (send_loop notion_args slack_channel clock chat_postMessage strptime
               meta_data acc).
Proof.
  revert acc. induction meta_data as [|rec l IH]; intros acc; simpl; frame.
Qed.

Lemma send_notifications_keeps_notifier meta_data :
  preserves keeps_notifier
    (send_notifications notion_args slack_channel clock chat_postMessage
                        strptime meta_data).
Proof. apply send_loop_keeps_notifier. Qed.

End JobFrames.

(** ** The CSV rows of a write *)

Lemma elem_of_dict_keys (d : record) (k : string) :
  k ∈ dict_keys d <-> k ∈ dom d.
Proof.
  unfold dict_keys. rewrite elem_of_dom, list_elem_of_fmap. split.
  - intros ([k' v] & -> & Hin). apply elem_of_map_to_list in Hin. eauto.
  - intros [v Hv]. exists (k, v). split; [reflexivity|].
    apply elem_of_map_to_list. exact Hv.
Qed.

Lemma NoDup_dict_keys (d : record) : NoDup (dict_keys d).
Proof. apply NoDup_fst_map_to_list. Qed.

(** The row read back for [row]: its fields, or the empty string. *)
Lemma lookup_written_row (fields : list string) (row : record) (f : string) :
  NoDup fields ->
  (list_to_map ((fun f => (f, default EmptyString (row !! f))) <$> fields)
     : record) !! f
  = if decide (f ∈ fields) then Some (default EmptyString (row !! f)) else None.
Proof.
  intros Hnd. destruct (decide (f ∈ fields)) as [Hin|Hin].
  - apply elem_of_list_to_map.
    + rewrite <- list_fmap_compose. simpl.
      replace (fst ∘ _) with (@id string) by reflexivity.
      rewrite list_fmap_id. exact Hnd.
    + apply list_elem_of_fmap. exists f. split; [reflexivity|exact Hin].
  - apply not_elem_of_list_to_map.
    rewrite <- list_fmap_compose. simpl.
    replace (fst ∘ _) with (@id string) by reflexivity.
    rewrite list_fmap_id. exact Hin.
Qed.

Lemma dict_to_row_subset (first row : record) :
  dom row ⊆ dom first ->
  exists row',
    dict_to_row (dict_keys first) row = Ok row'
    /\ dom row' = dom first
    /\ (forall f v, row !! f = Some v -> row' !! f = Some v).
Proof.
  intros Hsub. unfold dict_to_row.
  assert (Hall : forallb (fun k => in_list k (dict_keys first)) (dict_keys row)
                 = true).
  { apply forallb_forall. intros k Hk. apply in_list_true.
    apply elem_of_dict_keys. apply Hsub. apply elem_of_dict_keys.
    apply list_elem_of_In. exact Hk. }
  rewrite Hall. eexists. split; [reflexivity|]. split.
  - apply set_eq. intros f. rewrite !elem_of_dom.
    rewrite (lookup_written_row _ _ _ (NoDup_dict_keys first)).
    destruct (decide (f ∈ dict_keys first)) as [Hin|Hin].
    + apply elem_of_dict_keys, elem_of_dom in Hin. split; eauto.
    + split; [intros [? ?]; discriminate|].
      intros Hf. exfalso. apply Hin. apply elem_of_dict_keys, elem_of_dom.
      exact Hf.
  - intros f v Hv. rewrite (lookup_written_row _ _ _ (NoDup_dict_keys first)).
    rewrite decide_True.
    + rewrite Hv. reflexivity.
    + apply elem_of_dict_keys. apply Hsub. apply elem_of_dom. eauto.
Qed.

Lemma dict_to_row_same (first row : record) :
  dom row = dom first ->
  dict_to_row (dict_keys first) row = Ok row.
Proof.
  intros Hdom.
  destruct (dict_to_row_subset first row) as (row' & Hrow & Hdom' & Hlook).
  { rewrite Hdom. reflexivity. }
  rewrite Hrow. f_equal. apply map_eq. intros f.
  destruct (row !! f) as [v|] eqn:E.
  - apply Hlook. exact E.
  - apply not_elem_of_dom. rewrite Hdom', <- Hdom. apply not_elem_of_dom.
    exact E.
Qed.

Lemma writerows_same (first : record) (data : list record) :
  Forall (fun row => dom row = dom first) data ->
  writerows (dict_keys first) data = Ok data.
Proof.
  induction 1 as [|row data Hrow _ IH]; [reflexivity|].
  simpl. munfold. rewrite (dict_to_row_same _ _ Hrow). simpl.
  rewrite IH. reflexivity.
Qed.

Lemma writerows_subset (first : record) (data : list record) :
  Forall (fun row => dom row ⊆ dom first) data ->
  exists rows,
    writerows (dict_keys first) data = Ok rows
    /\ Forall2 (fun row row' =>
                  dom row' = dom first
                  /\ forall f v, row !! f = Some v -> row' !! f = Some v)
               data rows.
Proof.
  induction 1 as [|row data Hrow _ (rows & IH & IH2)].
  - exists []. split; [reflexivity|constructor].
  - destruct (dict_to_row_subset first row Hrow) as (row' & Hr & Hd & Hl).
    exists (row' :: rows). simpl. munfold. rewrite Hr. simpl. rewrite IH.
    split; [reflexivity|]. constructor; [split; assumption|assumption].
Qed.

Section WriteRows.

Variable clock : nat -> datetime.

(** A write of rows that all have the fields of the first one stores them
    as they are, under the given key, stamped by the clock. *)
Lemma write_to_s3_same first data file_name st :
  Forall (fun row => dom row = dom first) (first :: data) ->
  write_to_s3 clock (first :: data) file_name st
  = (Ok (Some true),
     set_s3 (Bucket.put (mk_object file_name (clock (reads st)) (first :: data))
                        (s3 st))
            (set_reads (S (reads st)) st)).
Proof.
  intros H. pose proof (writerows_same first _ H) as Hw.
  unfold write_to_s3. munfold. unfold bindM, lift, getitem. simpl.
  simpl in Hw. munfold. rewrite Hw. reflexivity.
Qed.

(** A write of rows that have no field beyond those of the first one
    stores them with the missing fields empty. *)
Lemma write_to_s3_subset first data file_name st :
  Forall (fun row => dom row ⊆ dom first) (first :: data) ->
  exists rows,
    write_to_s3 clock (first :: data) file_name st
    = (Ok (Some true),
       set_s3 (Bucket.put (mk_object file_name (clock (reads st)) rows) (s3 st))
              (set_reads (S (reads st)) st))
    /\ Forall2 (fun row row' =>
                  dom row' = dom first
                  /\ forall f v, row !! f = Some v -> row' !! f = Some v)
               (first :: data) rows.
Proof.
  intros H. destruct (writerows_subset first _ H) as (rows & Hw & Hall).
  exists rows. split; [|exact Hall].
  unfold write_to_s3. munfold. unfold bindM, lift, getitem. simpl.
  simpl in Hw. munfold. rewrite Hw. reflexivity.
Qed.

End WriteRows.

(** ** What the candidates of a tick are *)

Lemma list_comp_id_inv {A} (cond : A -> result bool) (l r : list A) :
  list_comp cond Ok l = Ok r ->
  sublist r l /\ Forall (fun x => cond x = Ok true) r.
Proof.
  revert r. induction l as [|x l IH]; intros r H; simpl in H.
  - inversion H. split; constructor.
  - destruct (cond x) as [[|]|e] eqn:E; simpl in H; [| |discriminate].
    + destruct (list_comp cond Ok l) as [r'|e]; simpl in H; [|discriminate].
      inversion H. subst. destruct (IH r' eq_refl) as [Hs Hf].
      split; [apply sublist_skip; exact Hs|constructor; assumption].
    + destruct (IH r H) as [Hs Hf].
      split; [apply sublist_cons; exact Hs|exact Hf].
Qed.

Lemma dict_get_bind_true (d : record) (k : string) (f : string -> bool) :
  (v ← dict_get d k; Ok (f v)) = Ok true ->
  exists v, d !! k = Some v /\ f v = true.
Proof.
  unfold dict_get. munfold. destruct (d !! k) as [v|]; simpl; [|discriminate].
  intros H. inversion H. eauto.
Qed.

Section Candidates.

Variable notion_args : NotionSourceConfig.
Variable clock : nat -> datetime.
Variable notion_meta : nat -> result (list record).
Variable DictReader : list record -> list record.

Lemma filter_records_Ok_inv completed_tickets st filtered st' :
  __filter_records_marked_completed_not_notified notion_args DictReader completed_tickets st
  = (Ok filtered, st') ->
  sublist filtered completed_tickets
  /\ Forall (fun c => is_Some (ticket_id_of notion_args c)) filtered.
Proof.
  unfold __filter_records_marked_completed_not_notified. munfold.
  intros H.
  apply bindM_inv in H as [(prev & st1 & _ & H) | (e & _ & ?)]; [|discriminate].
  apply bindM_inv in H as [(prev' & st2 & _ & H) | (e & _ & ?)]; [|discriminate].
  apply bindM_inv in H as [(ids & st3 & _ & H) | (e & _ & ?)]; [|discriminate].
  apply bindM_inv in H as [(rec & st4 & H1 & H) | (e & _ & ?)]; [|discriminate].
  inversion H. subst. inversion H1 as [Hcomp].
  apply list_comp_id_inv in Hcomp as [Hsub Hall]. split; [exact Hsub|].
  eapply Forall_impl; [exact Hall|]. intros c Hc. simpl in Hc.
  apply dict_get_bind_true in Hc as (v & Hv & _). exists v. exact Hv.
Qed.

(** The candidates of a tick come from the pull of the tick, have a ticket
    id, and went through the dedup filter. *)
Lemma get_completed_tickets_Ok_inv st contacts st1 :
  get_completed_tickets notion_args clock notion_meta DictReader st = (Ok contacts, st1) ->
  exists current filtered st0,
    notion_meta (pulls st) = Ok current
    /\ sublist filtered current
    /\ Forall (fun c => is_Some (ticket_id_of notion_args c)) filtered
    /\ only_reads st st0
    /\ __check_notifications_log notion_args DictReader filtered st0 = (Ok contacts, st1).
Proof.
  unfold get_completed_tickets. munfold. intros H.
  apply bindM_inv in H as [(today & sta & Ha & H) | (e & _ & ?)]; [|discriminate].
  apply bindM_inv in H as [(current & stb & Hb & H) | (e & _ & ?)]; [|discriminate].
  apply bindM_inv in H as [(completed & stc & Hc & H) | (e & _ & ?)]; [|discriminate].
  apply bindM_inv in H as [(filtered & std & Hd & H) | (e & _ & ?)]; [|discriminate].
  apply bindM_inv in H as [(to_notify & ste & He & H) | (e & _ & ?)]; [|discriminate].
  inversion H. subst to_notify ste. clear H.
  pose proof (datetime_now_only_reads clock _ _ _ Ha) as Ra.
  pose proof (generate_meta_file_only_reads notion_meta _ _ _ Hb) as Rb.
  pose proof (filter_records_only_reads notion_args DictReader _ _ _ _ Hd) as Rd.
  inversion Ha. subst today sta. inversion Hb as [[Hpull Hstb]].
  inversion Hc as [[Hcomp Hstc]]. subst stc.
  apply list_comp_id_inv in Hcomp as [Hsub1 _].
  apply filter_records_Ok_inv in Hd as [Hsub2 Hids].
  exists current, filtered, std. simpl in Hpull.
  split; [exact Hpull|]. split; [etrans; eassumption|]. split; [exact Hids|].
  split; [|exact He].
  eapply only_reads_trans; [exact Ra|]. subst stb.
  eapply only_reads_trans; [exact Rb|exact Rd].
Qed.

End Candidates.

(** ** C5, C7: the log writer *)

Lemma log_entry_is_log_entry tid status notified_at :
  is_log_entry (log_entry tid status notified_at).
Proof.
  unfold is_log_entry, log_entry, log_fields.
  rewrite !dom_insert_L, dom_singleton_L. set_solver.
Qed.

Lemma is_log_entry_readable e : is_log_entry e -> readable_entry e.
Proof.
  unfold is_log_entry, readable_entry, log_fields. intros H.
  split; apply elem_of_dom; rewrite H; set_solver.
Qed.

Section LogWriter.

Variable notion_args : NotionSourceConfig.
Variable slack_channel : string.
Variable clock : nat -> datetime.
Variable chat_postMessage : nat -> bool.
Variable notion_meta : nat -> result (list record).
Variable strptime : string -> string -> option datetime.
Variable DictReader : list record -> list record.

Local Abbreviation get_completed_tickets :=
  (Job.get_completed_tickets notion_args clock notion_meta DictReader).
Local Abbreviation send_notifications :=
  (Job.send_notifications notion_args slack_channel clock chat_postMessage
                          strptime).
Local Abbreviation notify :=
  (Job.notify notion_args slack_channel clock chat_postMessage notion_meta
              strptime DictReader).

(** The key of the log snapshot written when the clock reads [now]. *)
Lemma log_notifications_writes prefix e data old st :
  notif_log st = Some old ->
  Forall is_log_entry ((e :: data) ++ old) ->
  log_notifications clock prefix (e :: data) st
  = (Ok tt,
     set_s3
       (Bucket.put
          (mk_object
             (prefix +:+ "/"
              +:+ strftime DateTimeFormats.date_file_name_format
                           (clock (reads st))
              +:+ ".csv")
             (clock (S (reads st)))
             ((e :: data) ++ old))
          (s3 st))
       (set_reads (S (S (reads st))) st)).
Proof.
  intros Hnl Hall.
  assert (Hdom : Forall (fun row => dom row = dom e) (e :: (data ++ old))).
  { inversion Hall as [|? ? He Hrest]. subst.
    constructor; [reflexivity|].
    eapply Forall_impl; [exact Hrest|]. intros r Hr.
    unfold is_log_entry in *. congruence. }
  unfold log_notifications. munfold.
  unfold bindM at 1. unfold datetime_now at 1.
  unfold bindM at 1. unfold get_notif_log at 1. simpl. rewrite Hnl.
  assert (Hdata : match old with
                  | [] => e :: data
                  | _ :: _ => (e :: data) ++ old
                  end = e :: (data ++ old)).
  { destruct old; simpl; [rewrite app_nil_r|]; reflexivity. }
  simpl in Hdata. rewrite Hdata.
  unfold bindM. rewrite (write_to_s3_same clock e (data ++ old) _ _ Hdom).
  reflexivity.
Qed.

Lemma log_notifications_unassigned prefix data st :
  notif_log st = None ->
  log_notifications clock prefix data st
  = (Raise (AttributeError "notif_log"), set_reads (S (reads st)) st).
Proof.
  intros Hnl. unfold log_notifications. munfold.
  unfold bindM, datetime_now, get_notif_log. simpl. rewrite Hnl. reflexivity.
Qed.

Lemma sent_entries_are_log_entries contacts st log st' :
  Forall (renderable notion_args strptime) contacts ->
  send_notifications contacts st = (Ok log, st') ->
  Forall is_log_entry log.
Proof.
  intros Hr Hsend.
  destruct (send_notifications_renderable notion_args slack_channel clock
              chat_postMessage strptime contacts st Hr)
    as (log' & st'' & Hsend' & Hlen & _ & _ & _ & _ & _ & Hith).
  rewrite Hsend in Hsend'. inversion Hsend'. subst log' st''.
  apply Forall_lookup. intros i e Hi.
  destruct (lookup_lt_is_Some_2 contacts i) as [c Hc].
  { rewrite <- Hlen. eapply lookup_lt_Some. exact Hi. }
  destruct (Hith i c Hc) as (tid & _ & He). rewrite Hi in He.
  inversion He. apply log_entry_is_log_entry.
Qed.

(** C7. In a tick with candidates whose notifier has not retrieved a
    previous log (the fetch raises, as on a first run), [self.notif_log] is
    never assigned: the notifications are sent, then the log writer raises
    [AttributeError], and the new entries are not persisted: the bucket is
    as it was before the tick. *)
Theorem notify_unassigned_log_not_persisted st contacts st1 e :
  notif_log st = None ->
  get_most_recent_modified_file DictReader "notifications" (s3 st) = Raise e ->
  get_completed_tickets st = (Ok contacts, st1) ->
  contacts <> [] ->
  Forall (renderable notion_args strptime) contacts ->
  exists new st2 st',
    send_notifications contacts st1 = (Ok new, st2)
    /\ length new = length contacts
    /\ posts st + length contacts <= posts st2
    /\ notify st = (Raise (AttributeError "notif_log"), st')
    /\ notif_log st' = None
    /\ s3 st' = s3 st
    /\ posts st' = posts st2 /\ outbox st' = outbox st2.
Proof.
  intros Hnone Hfetch Hget Hne Hr.
  pose proof (get_completed_tickets_same_bucket notion_args clock notion_meta
                DictReader                _ _ _ Hget) as [Hs3 _].
  destruct (get_completed_tickets_Ok_inv _ _ _ _ _ _ _ Hget)
    as (current & filtered & st0 & _ & _ & Hids & Hro & Hcheck).
  destruct Hro as (Hs0 & Hn0 & _ & Hp0 & _).
  rewrite <- Hs0 in Hfetch.
  rewrite (check_notifications_log_absent notion_args DictReader filtered st0 e Hfetch)
    in Hcheck.
  assert (Hst1 : st0 = st1) by congruence. subst st1. clear Hcheck.
  destruct (send_notifications_renderable notion_args slack_channel clock
              chat_postMessage strptime contacts st0 Hr)
    as (new & st2 & Hsend & Hlen & Hs2 & Hnl2 & _ & _ & Hposts & _).
  assert (Hnl : notif_log st2 = None) by congruence.
  exists new, st2, (set_reads (S (reads st2)) st2).
  split; [exact Hsend|]. split; [exact Hlen|]. split; [lia|]. split.
  - unfold Job.notify. munfold. rewrite (bindM_Ok _ _ _ _ _ Hget).
    destruct contacts as [|c contacts']; [contradiction|].
    rewrite (bindM_Ok _ _ _ _ _ Hsend).
    apply log_notifications_unassigned. exact Hnl.
  - simpl. repeat split; congruence.
Qed.

End LogWriter.

(** C5. A first run: the bucket has the placeholder of the snapshots and
    nothing under the prefix of the logs, ticket 1 is newly completed, and
    both of its messages are delivered, so the tick has one new entry, a
    [success].  The log writer does not write it: it raises
    [AttributeError] before the write, the bucket is left as it was, and
    the fetch of a log still finds none after the tick. *)
Theorem first_run_entries_not_logged :
  let st := Demo.initial Demo.unlogged in
  let candidates :=
    get_completed_tickets Demo.notion_args Demo.clock Demo.pull
                          Demo.DictReader st in
  let run :=
    notify Demo.notion_args Demo.team Demo.clock Demo.delivers Demo.pull
           Demo.strptime Demo.DictReader st in
  let after :=
    tick Demo.notion_args Demo.team "notifications" "data_tickets" Demo.clock
         Demo.delivers Demo.pull Demo.strptime Demo.DictReader st in
  candidates.1 = Ok [Demo.ticket "1" "Done"]
  /\ (send_notifications Demo.notion_args Demo.team Demo.clock Demo.delivers
                         Demo.strptime [Demo.ticket "1" "Done"] candidates.2).1
     = Ok [log_entry "1" "success" "2024-03-07 09:05:01"]
  /\ run.1 = Raise (AttributeError "notif_log")
  /\ map fst (outbox run.2) = ["U1"; "C0TEAM"]
  /\ s3 run.2 = Demo.unlogged
  /\ s3 after = Demo.unlogged
  /\ get_most_recent_modified_file Demo.DictReader "notifications" (s3 after)
     = Raise IndexError.
Proof. repeat split; vm_compute; reflexivity. Qed.

(** ** C8: pruning *)

Section Pruning.

Variable strptime : string -> string -> option datetime.

Lemma set_s3_same (st : state) : set_s3 (s3 st) st = st.
Proof. destruct st. reflexivity. Qed.

Lemma for_each_remove_object (files : list string) (st : state) :
  for_each files (fun file => remove_object (file +:+ ".csv")) st
  = (Ok tt,
     set_s3 (foldl (fun b file => Bucket.delete (file +:+ ".csv") b)
                   (s3 st) files) st).
Proof.
  revert st. induction files as [|f files IH]; intros st.
  - simpl. rewrite set_s3_same. reflexivity.
  - simpl. unfold bindM, remove_object, modify. rewrite IH. reflexivity.
Qed.

(** What a pruning does to the state: it deletes, for some keys that the
    bucket lists, the key followed by [.csv] once more, and nothing else. *)
Lemma delete_meta_files_inv prefix date_threshold st r st' :
  delete_meta_files strptime prefix date_threshold st = (r, st') ->
  exists files,
    Forall (fun file => file ∈ map key (s3 st)) files
    /\ st' = set_s3 (foldl (fun b file => Bucket.delete (file +:+ ".csv") b)
                           (s3 st) files) st.
Proof.
  unfold delete_meta_files. munfold. unfold bindM, gets, raise.
  destruct (strptime date_threshold DateTimeFormats.datetime_format)
    as [d|]; simpl.
  - set (files := map key (List.filter _ (objects_filter prefix (s3 st)))).
    assert (Hfiles : Forall (fun file => file ∈ map key (s3 st)) files).
    { apply Forall_forall. intros f Hf. apply list_elem_of_In.
      apply list_elem_of_In, in_map_iff in Hf as (o & <- & Ho).
      apply in_map. apply filter_In in Ho as [Ho _].
      unfold objects_filter in Ho. apply filter_In in Ho as [Ho _]. exact Ho. }
    destruct files as [|f files'] eqn:E.
    + intros H. inversion H. exists []. split; [constructor|].
      simpl. rewrite set_s3_same. reflexivity.
    + rewrite for_each_remove_object. intros H. inversion H.
      exists (f :: files'). split; [exact Hfiles|reflexivity].
  - intros H. inversion H. exists []. split; [constructor|].
    simpl. rewrite set_s3_same. reflexivity.
Qed.

End Pruning.

(** C8. A snapshot file older than the threshold is not deleted: the
    pruning asks the store to delete its key followed by [.csv] once more,
    a key that does not exist, and the bucket is left as it was. *)
Theorem delete_meta_files_keeps_old_file :
  let b := [mk_object "data_tickets/" Demo.old [];
            mk_object "data_tickets/20240301_1200.csv" Demo.old
                      [Demo.ticket "1" "Open"]] in
  Datetime.ltb Demo.old (mk_datetime 2024 3 5 0 0 0 0) = true
  /\ delete_meta_files Demo.strptime "data_tickets" "2024-03-05 00:00:00"
                       (Demo.initial b)
     = (Ok tt, Demo.initial b).
Proof. split; vm_compute; reflexivity. Qed.

(** ** C9: persisting a snapshot *)

Lemma digit_value (n : N) : N_of_ascii (digit n) = (48 + n mod 10)%N.
Proof.
  unfold digit. apply N_ascii_embedding.
  pose proof (N.mod_lt n 10). lia.
Qed.

Lemma digit_in_range (x : N) :
  (x < 10)%N -> ((48 <=? 48 + x) && (48 + x <=? 57))%N = true.
Proof. intros H. apply andb_true_iff. split; apply N.leb_le; lia. Qed.

(** [pad2] and [pad4] print the decimal digits of the number. *)
Lemma read_digits_pad2 (n : N) (s : string) :
  (n < 100)%N -> Demo.read_digits 2 (pad2 n +:+ s) 0 = Some (n, s).
Proof.
  intros H. unfold pad2. simpl. rewrite !digit_value.
  assert (H1 : (n / 10 < 10)%N) by (apply N.Div0.div_lt_upper_bound; lia).
  assert (H2 : (n mod 10 < 10)%N) by (apply N.mod_lt; lia).
  rewrite (N.mod_small (n / 10)) by exact H1.
  rewrite !digit_in_range by assumption.
  f_equal. f_equal. pose proof (N.Div0.div_mod n 10).
  generalize dependent (n / 10)%N. generalize dependent (n mod 10)%N.
  intros. lia.
Qed.

Lemma read_digits_pad4 (n : N) (s : string) :
  (n < 10000)%N -> Demo.read_digits 4 (pad4 n +:+ s) 0 = Some (n, s).
Proof.
  intros H. unfold pad4, pad2. simpl. rewrite !digit_value.
  assert (H1 : (n / 1000 < 10)%N) by (apply N.Div0.div_lt_upper_bound; lia).
  assert (H2 : ((n / 100) mod 10 < 10)%N) by (apply N.mod_lt; lia).
  assert (H3 : ((n / 10) mod 10 < 10)%N) by (apply N.mod_lt; lia).
  assert (H4 : (n mod 10 < 10)%N) by (apply N.mod_lt; lia).
  rewrite (N.mod_small (n / 1000)) by exact H1.
  rewrite !digit_in_range by assumption.
  f_equal. f_equal.
  pose proof (N.Div0.div_mod n 10) as E1.
  pose proof (N.Div0.div_mod (n / 10) 10) as E2.
  pose proof (N.Div0.div_mod (n / 100) 10) as E3.
  replace (n / 10 / 10)%N with (n / 100)%N in E2
    by (rewrite N.Div0.div_div; reflexivity).
  replace (n / 100 / 10)%N with (n / 1000)%N in E3
    by (rewrite N.Div0.div_div; reflexivity).
  generalize dependent ((n / 100) mod 10)%N.
  generalize dependent ((n / 10) mod 10)%N.
  generalize dependent (n mod 10)%N.
  generalize dependent (n / 1000)%N.
  generalize dependent (n / 100)%N.
  generalize dependent (n / 10)%N.
  intros. lia.
Qed.

(** The stamp of a file name reads back as the time of the write, to the
    minute; the stamp of a record reads back as that time, to the second. *)
Lemma file_stamp_reads_back (d : datetime) :
  valid d ->
  Demo.strptime (strftime DateTimeFormats.date_file_name_format d)
                DateTimeFormats.date_file_name_format
  = Some (mk_datetime (year d) (month d) (day d) (hour d) (minute d) 0 0).
Proof.
  intros (Hy & Hm & Hd & HH & HM & HS & Hu).
  change (strftime DateTimeFormats.date_file_name_format d)
    with (pad4 (year d) +:+ (pad2 (month d) +:+ (pad2 (day d) +:+
          String "_" (pad2 (hour d) +:+ (pad2 (minute d) +:+ ""))))).
  unfold Demo.strptime, DateTimeFormats.date_file_name_format.
  cbn -[Demo.read_digits pad4 pad2 String.append].
  rewrite read_digits_pad4 by lia.
  cbn -[Demo.read_digits pad4 pad2 String.append].
  rewrite read_digits_pad2 by lia.
  cbn -[Demo.read_digits pad4 pad2 String.append].
  rewrite read_digits_pad2 by lia.
  cbn -[Demo.read_digits pad4 pad2 String.append].
  rewrite read_digits_pad2 by lia.
  cbn -[Demo.read_digits pad4 pad2 String.append].
  rewrite read_digits_pad2 by lia.
  reflexivity.
Qed.

Lemma datetime_stamp_reads_back (d : datetime) :
  valid d ->
  Demo.strptime (strftime DateTimeFormats.datetime_format d)
                DateTimeFormats.datetime_format
  = Some (mk_datetime (year d) (month d) (day d) (hour d) (minute d)
                      (second d) 0).
Proof.
  intros (Hy & Hm & Hd & HH & HM & HS & Hu).
  change (strftime DateTimeFormats.datetime_format d)
    with (pad4 (year d) +:+ String "-" (pad2 (month d) +:+ String "-"
          (pad2 (day d) +:+ String " " (pad2 (hour d) +:+ String ":"
          (pad2 (minute d) +:+ String ":" (pad2 (second d) +:+ "")))))).
  unfold Demo.strptime, DateTimeFormats.datetime_format.
  cbn -[Demo.read_digits pad4 pad2 String.append].
  rewrite read_digits_pad4 by lia.
  cbn -[Demo.read_digits pad4 pad2 String.append].
  rewrite read_digits_pad2 by lia.
  cbn -[Demo.read_digits pad4 pad2 String.append].
  rewrite read_digits_pad2 by lia.
  cbn -[Demo.read_digits pad4 pad2 String.append].
  rewrite read_digits_pad2 by lia.
  cbn -[Demo.read_digits pad4 pad2 String.append].
  rewrite read_digits_pad2 by lia.
  cbn -[Demo.read_digits pad4 pad2 String.append].
  rewrite read_digits_pad2 by lia.
  reflexivity.
Qed.

Lemma file_stamp_length (d : datetime) :
  String.length (strftime DateTimeFormats.date_file_name_format d) = 13.
Proof. reflexivity. Qed.

Section Persist.

Variable clock : nat -> datetime.

(** C9, as amended. Persisting a snapshot that is not empty, and whose
    records have no field beyond those of its first record, writes one
    object: its key is the prefix, a slash, the stamp [YYYYMMDD_HHMM] of
    the time of the write and [.csv]; every row written carries the field
    [uploaded_at], equal to that time in the format
    [YYYY-MM-DD HH:MM:SS], and the fields of its record. *)
Theorem load_meta_file_names_and_stamps first meta prefix st :
  valid (clock (reads st)) ->
  Forall (fun r => dom r ⊆ dom first ∪ {[ "uploaded_at" ]}) meta ->
  let now := clock (reads st) in
  let stamp := strftime DateTimeFormats.date_file_name_format now in
  let written_at := strftime DateTimeFormats.datetime_format now in
  exists rows,
    load_meta_file clock (first :: meta) prefix st
    = (Ok tt,
       set_s3 (Bucket.put
                 (mk_object (prefix +:+ "/" +:+ stamp +:+ ".csv")
                            (clock (S (reads st))) rows)
                 (s3 st))
              (set_reads (S (S (reads st))) st))
    /\ stamp = pad4 (year now) +:+ pad2 (month now) +:+ pad2 (day now)
               +:+ "_" +:+ pad2 (hour now) +:+ pad2 (minute now)
    /\ Demo.strptime stamp DateTimeFormats.date_file_name_format
       = Some (mk_datetime (year now) (month now) (day now)
                           (hour now) (minute now) 0 0)
    /\ Demo.strptime written_at DateTimeFormats.datetime_format
       = Some (mk_datetime (year now) (month now) (day now)
                           (hour now) (minute now) (second now) 0)
    /\ Forall2 (fun r row =>
                  row !! "uploaded_at" = Some written_at
                  /\ forall f v, f <> "uploaded_at" -> r !! f = Some v ->
                                 row !! f = Some v)
               (first :: meta) rows.
Proof.
  intros Hvalid Hdom now stamp written_at.
  set (stamped := fun file : record => <["uploaded_at" := written_at]> file).
  assert (Hsub : Forall (fun row => dom row ⊆ dom (stamped first))
                        (stamped <$> (first :: meta))).
  { apply Forall_fmap. unfold compose. constructor; [reflexivity|].
    eapply Forall_impl; [exact Hdom|]. intros r Hr. simpl.
    unfold stamped. rewrite !dom_insert_L. intros f Hf.
    apply elem_of_union in Hf as [Hf|Hf]; [apply elem_of_union; left; exact Hf|].
    apply Hr in Hf. apply elem_of_union in Hf as [Hf|Hf].
    - apply elem_of_union. right. exact Hf.
    - apply elem_of_union. left. exact Hf. }
  rewrite fmap_cons in Hsub.
  destruct (write_to_s3_subset clock (stamped first) (stamped <$> meta)
              (prefix +:+ "/" +:+ stamp +:+ ".csv")
              (set_reads (S (reads st)) st) Hsub) as (rows & Hrows & Hall).
  rewrite <- fmap_cons in Hall.
  exists rows. split; [|split; [reflexivity|]].
  - unfold load_meta_file. munfold.
    unfold bindM at 1. unfold datetime_now at 1.
    rewrite fmap_cons. unfold bindM. fold now. fold written_at. fold stamp.
    fold stamped.
    change (<["uploaded_at":=written_at]> first) with (stamped first).
    rewrite Hrows. reflexivity.
  - split; [apply file_stamp_reads_back; exact Hvalid|].
    split; [apply datetime_stamp_reads_back; exact Hvalid|].
    apply Forall2_fmap_l in Hall.
    eapply Forall2_impl; [exact Hall|]. intros r row [_ Hlook]. simpl in Hlook.
    split.
    + apply Hlook. unfold stamped. apply lookup_insert_eq.
    + intros f v Hf Hv. apply Hlook. unfold stamped.
      rewrite lookup_insert_ne by congruence. exact Hv.
Qed.

End Persist.

(** C9, as stated, fails: persisting an empty snapshot raises [IndexError],
    and persisting a snapshot whose second record has a field that the
    first one lacks raises [ValueError]; neither writes a file. *)
Lemma load_meta_file_writes_no_file :
  (let r := load_meta_file Demo.clock [] "data_tickets" (Demo.initial []) in
   r.1 = Raise IndexError /\ s3 r.2 = [])
  /\ (let r := load_meta_file Demo.clock
                 [{[ "id" := "1" ]}; {[ "id" := "2"; "status" := "Done" ]}]
                 "data_tickets" (Demo.initial []) in
      r.1 = Raise ValueError /\ s3 r.2 = []).
Proof. split; split; vm_compute; reflexivity. Qed.

(** ** The order of datetimes *)

Lemma lex_compare_refl (a : list N) : lex_compare a a = Eq.
Proof.
  induction a as [|x a IH]; [reflexivity|]. simpl.
  rewrite N.compare_refl. exact IH.
Qed.

Lemma lex_compare_eq (a b : list N) : lex_compare a b = Eq -> a = b.
Proof.
  revert b. induction a as [|x a IH]; intros [|y b] H; simpl in H;
    try discriminate; [reflexivity|].
  destruct (N.compare x y) eqn:E; try discriminate.
  apply N.compare_eq in E. subst. f_equal. apply IH. exact H.
Qed.

Lemma lex_compare_antisym (a b : list N) :
  lex_compare b a = CompOpp (lex_compare a b).
Proof.
  revert b. induction a as [|x a IH]; intros [|y b]; simpl; try reflexivity.
  rewrite (N.compare_antisym x y).
  destruct (N.compare x y); simpl; [apply IH|reflexivity|reflexivity].
Qed.

Lemma lex_compare_trans (a b c : list N) :
  lex_compare a b = Lt -> lex_compare b c = Lt -> lex_compare a c = Lt.
Proof.
  revert b c. induction a as [|x a IH]; intros [|y b] [|z c] H1 H2;
    simpl in *; try discriminate; try reflexivity.
  destruct (N.compare x y) eqn:E1; try discriminate;
    destruct (N.compare y z) eqn:E2; try discriminate.
  - apply N.compare_eq in E1, E2. subst. rewrite N.compare_refl.
    eapply IH; eassumption.
  - apply N.compare_eq in E1. subst. rewrite E2. reflexivity.
  - apply N.compare_eq in E2. subst. rewrite E1. reflexivity.
  - rewrite N.compare_lt_iff in E1, E2.
    assert (E : (x ?= z)%N = Lt) by (apply N.compare_lt_iff; lia).
    rewrite E. reflexivity.
Qed.

Lemma datetime_fields_inj (a b : datetime) : fields a = fields b -> a = b.
Proof. destruct a, b. unfold fields. simpl. intros H. inversion H. reflexivity. Qed.

Lemma ltb_irrefl (a : datetime) : Datetime.ltb a a = false.
Proof. unfold Datetime.ltb, Datetime.compare. rewrite lex_compare_refl. reflexivity. Qed.

Lemma ltb_trans (a b c : datetime) :
  Datetime.ltb a b = true -> Datetime.ltb b c = true -> Datetime.ltb a c = true.
Proof.
  unfold Datetime.ltb, Datetime.compare. intros H1 H2.
  destruct (lex_compare (fields a) (fields b)) eqn:E1; try discriminate.
  destruct (lex_compare (fields b) (fields c)) eqn:E2; try discriminate.
  rewrite (lex_compare_trans _ _ _ E1 E2). reflexivity.
Qed.

Lemma ltb_asym (a b : datetime) :
  Datetime.ltb a b = true -> Datetime.ltb b a = false.
Proof.
  unfold Datetime.ltb, Datetime.compare. intros H.
  rewrite lex_compare_antisym.
  destruct (lex_compare (fields a) (fields b)); try discriminate. reflexivity.
Qed.

Lemma eqb_eq (a b : datetime) : Datetime.eqb a b = true <-> a = b.
Proof.
  unfold Datetime.eqb, Datetime.compare. split.
  - intros H. apply datetime_fields_inj. apply lex_compare_eq.
    destruct (lex_compare (fields a) (fields b)); try discriminate. reflexivity.
  - intros ->. rewrite lex_compare_refl. reflexivity.
Qed.

(** [a < b] and [b <= c] give [a < c]. *)
Lemma ltb_le_trans (a b c : datetime) :
  Datetime.ltb a b = true -> Datetime.ltb c b = false ->
  Datetime.ltb a c = true.
Proof.
  intros H1 H2. unfold Datetime.ltb, Datetime.compare in H2.
  destruct (lex_compare (fields c) (fields b)) eqn:E; try discriminate.
  - apply lex_compare_eq, datetime_fields_inj in E. subst. exact H1.
  - apply (ltb_trans a b c H1). unfold Datetime.ltb, Datetime.compare.
    rewrite lex_compare_antisym, E. reflexivity.
Qed.

(** [a <= b] and [b <= c] give [a <= c]. *)
Lemma leb_trans (a b c : datetime) :
  Datetime.ltb b a = false -> Datetime.ltb c b = false ->
  Datetime.ltb c a = false.
Proof.
  intros H1 H2. destruct (Datetime.ltb c a) eqn:E; [|reflexivity].
  rewrite (ltb_le_trans c a b E H1) in H2. discriminate.
Qed.

(** ** The most recent file *)

Lemma elem_of_insert_desc (d x : datetime) (l : list datetime) :
  x ∈ insert_desc d l <-> x = d \/ x ∈ l.
Proof.
  induction l as [|y l IH]; simpl.
  - rewrite list_elem_of_singleton. split; [intros ->; left; reflexivity|].
    intros [->|H]; [reflexivity|inversion H].
  - destruct (Datetime.ltb d y).
    + rewrite !elem_of_cons, IH. tauto.
    + rewrite !elem_of_cons. tauto.
Qed.

Lemma elem_of_sort_reverse (x : datetime) (l : list datetime) :
  x ∈ sort_reverse l <-> x ∈ l.
Proof.
  induction l as [|y l IH]; simpl; [reflexivity|].
  rewrite elem_of_insert_desc, elem_of_cons, IH. reflexivity.
Qed.

(** The first date of the sorted list is not before any date of the list. *)
Lemma sort_reverse_head (l : list datetime) (m : datetime) :
  sort_reverse l !! 0 = Some m ->
  m ∈ l /\ forall x, x ∈ l -> Datetime.ltb m x = false.
Proof.
  intros H. split.
  { apply elem_of_sort_reverse. eapply list_elem_of_lookup_2. exact H. }
  revert m H. induction l as [|y l IH]; intros m H x Hx.
  - inversion Hx.
  - simpl in H. destruct (sort_reverse l) as [|m' s] eqn:E.
    + simpl in H. inversion H. subst.
      assert (Hl : l = []).
      { destruct l as [|z l']; [reflexivity|].
        assert (Hz : z ∈ sort_reverse (z :: l'))
          by (apply elem_of_sort_reverse; left).
        rewrite E in Hz. inversion Hz. }
      subst. apply list_elem_of_singleton in Hx. subst. apply ltb_irrefl.
    + simpl in H. specialize (IH m' eq_refl).
      destruct (Datetime.ltb y m') eqn:Ey; simpl in H; inversion H; subst.
      * apply elem_of_cons in Hx as [->|Hx].
        -- apply ltb_asym. exact Ey.
        -- apply IH. exact Hx.
      * apply elem_of_cons in Hx as [->|Hx]; [apply ltb_irrefl|].
        apply (leb_trans x m' m); [apply IH; exact Hx|exact Ey].
Qed.

Lemma sort_reverse_nonempty (l : list datetime) :
  l <> [] -> exists m, sort_reverse l !! 0 = Some m.
Proof.
  destruct l as [|x l]; [contradiction|]. intros _.
  destruct (sort_reverse (x :: l)) as [|m s] eqn:E.
  - assert (Hx : x ∈ sort_reverse (x :: l))
      by (apply elem_of_sort_reverse; left).
    rewrite E in Hx. inversion Hx.
  - exists m. reflexivity.
Qed.

Lemma elem_of_objects_filter prefix b o :
  o ∈ objects_filter prefix b <-> o ∈ b /\ String.prefix prefix (key o) = true.
Proof.
  unfold objects_filter. rewrite !list_elem_of_In, filter_In. reflexivity.
Qed.

Lemma NoDup_key_inj (b : list s3_object) (o1 o2 : s3_object) :
  NoDup (map key b) -> o1 ∈ b -> o2 ∈ b -> key o1 = key o2 -> o1 = o2.
Proof.
  induction b as [|o b IH]; intros Hnd H1 H2 Hk; [inversion H1|].
  simpl in Hnd. apply NoDup_cons in Hnd as [Hnotin Hnd].
  apply elem_of_cons in H1 as [->|H1]; apply elem_of_cons in H2 as [->|H2].
  - reflexivity.
  - exfalso. apply Hnotin. rewrite Hk. apply list_elem_of_In, in_map.
    apply list_elem_of_In. exact H2.
  - exfalso. apply Hnotin. rewrite <- Hk. apply list_elem_of_In, in_map.
    apply list_elem_of_In. exact H1.
  - apply IH; assumption.
Qed.

Section MostRecent.

Variable DictReader : list record -> list record.

(** The file that [get_most_recent_modified_file] returns is that of an
    object under the prefix that no object under the prefix is newer than. *)
Lemma get_most_recent_Ok prefix b l name :
  NoDup (map key b) ->
  get_most_recent_modified_file DictReader prefix b = Ok (l, name) ->
  exists o,
    o ∈ b /\ String.prefix prefix (key o) = true
    /\ DictReader (body o) = l /\ key o = name
    /\ forall o', o' ∈ b -> String.prefix prefix (key o') = true ->
                  Datetime.ltb (last_modified o) (last_modified o') = false.
Proof.
  intros Hnd. unfold get_most_recent_modified_file, getitem, read_csv, Bucket.get.
  munfold.
  destruct (sort_reverse (map last_modified (objects_filter prefix b)) !! 0)
    as [m|] eqn:Em; simpl; [|discriminate].
  destruct (map key (List.filter _ (objects_filter prefix b)) !! 0)
    as [file_name|] eqn:Ef; simpl; [|discriminate].
  destruct (find _ b) as [o2|] eqn:Eo; simpl; [|discriminate].
  intros H. inversion H. subst l name. clear H.
  apply sort_reverse_head in Em as [_ Hmax].
  apply list_elem_of_lookup_2, list_elem_of_In, in_map_iff in Ef
    as (o1 & Hk1 & Hin1).
  apply filter_In in Hin1 as [Hin1 Hlm]. apply eqb_eq in Hlm.
  apply list_elem_of_In, elem_of_objects_filter in Hin1 as [Hin1 Hp1].
  apply find_some in Eo as [Hin2 Hk2]. apply String.eqb_eq in Hk2.
  apply list_elem_of_In in Hin2.
  assert (o2 = o1) by (apply (NoDup_key_inj b); congruence). subst o2.
  exists o1. split; [exact Hin1|]. split; [exact Hp1|].
  split; [reflexivity|]. split; [exact Hk1|].
  intros o' Hin' Hp'. rewrite Hlm. apply Hmax.
  apply list_elem_of_In, in_map, list_elem_of_In, elem_of_objects_filter.
  split; assumption.
Qed.

(** The fetch succeeds as soon as an object is under the prefix. *)
Lemma get_most_recent_defined prefix b o :
  o ∈ b -> String.prefix prefix (key o) = true ->
  exists l name, get_most_recent_modified_file DictReader prefix b = Ok (l, name).
Proof.
  intros Hin Hp. unfold get_most_recent_modified_file, getitem, read_csv, Bucket.get.
  munfold.
  destruct (sort_reverse_nonempty (map last_modified (objects_filter prefix b)))
    as [m Hm].
  { intros Hnil. apply map_eq_nil in Hnil.
    assert (Ho : o ∈ objects_filter prefix b)
      by (apply elem_of_objects_filter; split; assumption).
    rewrite Hnil in Ho. inversion Ho. }
  rewrite Hm. simpl.
  pose proof (sort_reverse_head _ _ Hm) as [Hmin _].
  apply list_elem_of_In, in_map_iff in Hmin as (o1 & Hlm & Hin1).
  destruct (map key (List.filter
                       (fun obj => Datetime.eqb (last_modified obj) m)
                       (objects_filter prefix b)) !! 0)
    as [file_name|] eqn:Ef; simpl.
  - apply list_elem_of_lookup_2, list_elem_of_In, in_map_iff in Ef
      as (o2 & Hk2 & Hin2).
    apply filter_In in Hin2 as [Hin2 _].
    apply list_elem_of_In, elem_of_objects_filter in Hin2 as [Hin2 _].
    destruct (find (fun o0 => String.eqb (key o0) file_name) b) as [o3|] eqn:Eo.
    + simpl. eauto.
    + exfalso. apply list_elem_of_In in Hin2.
      pose proof (find_none _ _ Eo o2 Hin2) as Hne. simpl in Hne.
      rewrite Hk2, String.eqb_refl in Hne. discriminate.
  - exfalso.
    assert (Hf : key o1 ∈ map key (List.filter
                       (fun obj => Datetime.eqb (last_modified obj) m)
                       (objects_filter prefix b))).
    { apply list_elem_of_In, in_map, filter_In. split; [exact Hin1|].
      apply eqb_eq. exact Hlm. }
    destruct (map key _) as [|k ks] eqn:E; [inversion Hf|discriminate].
Qed.

End MostRecent.

(** ** Puts and deletes *)

Lemma elem_of_insert_by_key (o x : s3_object) (b : list s3_object) :
  x ∈ insert_by_key o b <-> x = o \/ x ∈ b.
Proof.
  induction b as [|y b IH]; simpl.
  - rewrite list_elem_of_singleton. split; [intros ->; left; reflexivity|].
    intros [->|H]; [reflexivity|inversion H].
  - destruct (String.ltb (key o) (key y)).
    + rewrite !elem_of_cons. tauto.
    + rewrite !elem_of_cons, IH. tauto.
Qed.

Lemma elem_of_put (o x : s3_object) (b : list s3_object) :
  x ∈ Bucket.put o b <-> x = o \/ (x ∈ b /\ key x <> key o).
Proof.
  unfold Bucket.put. rewrite elem_of_insert_by_key.
  rewrite !list_elem_of_In, filter_In, negb_true_iff, String.eqb_neq.
  reflexivity.
Qed.

Lemma elem_of_delete (k : string) (x : s3_object) (b : list s3_object) :
  x ∈ Bucket.delete k b <-> x ∈ b /\ key x <> k.
Proof.
  unfold Bucket.delete.
  rewrite !list_elem_of_In, filter_In, negb_true_iff, String.eqb_neq.
  reflexivity.
Qed.

Lemma NoDup_keys_filter (f : s3_object -> bool) (b : list s3_object) :
  NoDup (map key b) -> NoDup (map key (List.filter f b)).
Proof.
  induction b as [|o b IH]; simpl; intros Hnd; [constructor|].
  apply NoDup_cons in Hnd as [Hnotin Hnd].
  destruct (f o); simpl; [|apply IH; exact Hnd].
  apply NoDup_cons. split; [|apply IH; exact Hnd].
  intros Hin. apply Hnotin.
  apply list_elem_of_In, in_map_iff in Hin as (x & Hk & Hx).
  apply filter_In in Hx as [Hx _]. rewrite <- Hk.
  apply list_elem_of_In, in_map. exact Hx.
Qed.

Lemma NoDup_keys_insert_by_key (o : s3_object) (b : list s3_object) :
  NoDup (map key b) -> key o ∉ map key b ->
  NoDup (map key (insert_by_key o b)).
Proof.
  induction b as [|y b IH]; simpl; intros Hnd Hnotin.
  - apply NoDup_singleton.
  - destruct (String.ltb (key o) (key y)); simpl.
    + apply NoDup_cons. split; assumption.
    + apply NoDup_cons in Hnd as [Hy Hnd].
      apply not_elem_of_cons in Hnotin as [Hne Hnotin].
      apply NoDup_cons. split; [|apply IH; assumption].
      intros Hin. apply list_elem_of_In, in_map_iff in Hin as (x & Hk & Hx).
      apply list_elem_of_In, elem_of_insert_by_key in Hx as [->|Hx].
      * congruence.
      * apply Hy. rewrite <- Hk. apply list_elem_of_In, in_map, list_elem_of_In.
        exact Hx.
Qed.

Lemma NoDup_keys_put (o : s3_object) (b : list s3_object) :
  NoDup (map key b) -> NoDup (map key (Bucket.put o b)).
Proof.
  intros Hnd. unfold Bucket.put. apply NoDup_keys_insert_by_key.
  - apply NoDup_keys_filter. exact Hnd.
  - intros Hin. apply list_elem_of_In, in_map_iff in Hin as (x & Hk & Hx).
    apply filter_In in Hx as [_ Hx].
    apply negb_true_iff, String.eqb_neq in Hx. contradiction.
Qed.

Lemma NoDup_keys_delete (k : string) (b : list s3_object) :
  NoDup (map key b) -> NoDup (map key (Bucket.delete k b)).
Proof. apply NoDup_keys_filter. Qed.

Lemma get_put_same (o : s3_object) (b : list s3_object) :
  Bucket.get (key o) (Bucket.put o b) = Some o.
Proof.
  unfold Bucket.get, Bucket.put.
  assert (H : forall b', (forall x, x ∈ b' -> key x <> key o) ->
            find (fun x => String.eqb (key x) (key o)) (insert_by_key o b')
            = Some o).
  { induction b' as [|y b' IH]; intros Hne; simpl.
    - rewrite String.eqb_refl. reflexivity.
    - destruct (String.ltb (key o) (key y)); simpl.
      + rewrite String.eqb_refl. reflexivity.
      + assert (Hy : key y <> key o) by (apply Hne; left).
        apply String.eqb_neq in Hy. rewrite Hy. apply IH.
        intros x Hx. apply Hne. right. exact Hx. }
  apply H. intros x Hx. apply list_elem_of_In, filter_In in Hx as [_ Hx].
  apply negb_true_iff, String.eqb_neq in Hx. exact Hx.
Qed.

Lemma get_put_other (o : s3_object) (b : list s3_object) (k : string) :
  k <> key o -> Bucket.get k (Bucket.put o b) = Bucket.get k b.
Proof.
  intros Hk. unfold Bucket.get, Bucket.put.
  assert (H1 : forall b', find (fun x => String.eqb (key x) k)
                            (insert_by_key o b')
                     = find (fun x => String.eqb (key x) k) b').
  { induction b' as [|y b' IH]; simpl.
    - apply not_eq_sym, String.eqb_neq in Hk. rewrite Hk. reflexivity.
    - destruct (String.ltb (key o) (key y)); simpl.
      + pose proof Hk as Hk'. apply not_eq_sym, String.eqb_neq in Hk'.
        rewrite Hk'. reflexivity.
      + rewrite IH. reflexivity. }
  rewrite H1. induction b as [|y b IH]; simpl; [reflexivity|].
  destruct (String.eqb (key y) (key o)) eqn:E; simpl.
  - apply String.eqb_eq in E.
    assert (Hy : key y <> k) by congruence.
    apply String.eqb_neq in Hy. rewrite Hy. exact IH.
  - rewrite IH. reflexivity.
Qed.

(** An object put after every object of the bucket was stamped is the most
    recent one under its prefix. *)
Lemma get_most_recent_put_newest DictReader prefix o b :
  NoDup (map key b) ->
  (forall x, x ∈ b ->
             Datetime.ltb (last_modified x) (last_modified o) = true) ->
  String.prefix prefix (key o) = true ->
  get_most_recent_modified_file DictReader prefix (Bucket.put o b)
  = Ok (DictReader (body o), key o).
Proof.
  intros Hnd Hpast Hp.
  assert (Ho : o ∈ Bucket.put o b) by (apply elem_of_put; left; reflexivity).
  destruct (get_most_recent_defined DictReader prefix _ o Ho Hp)
    as (rows & name & Hget).
  rewrite Hget.
  destruct (get_most_recent_Ok DictReader prefix _ rows name
              (NoDup_keys_put o _ Hnd) Hget)
    as (newest & Hin & _ & Hbody & Hkey & Hmax).
  apply elem_of_put in Hin as [->|[Hin _]].
  - subst. reflexivity.
  - exfalso. specialize (Hmax o Ho Hp).
    rewrite (Hpast newest Hin) in Hmax. discriminate.
Qed.

(** ** Keys of the log snapshots *)

Lemma string_length_app (a b : string) :
  String.length (a +:+ b) = String.length a + String.length b.
Proof. induction a as [|c a IH]; simpl; [reflexivity|]. rewrite IH. reflexivity. Qed.

Lemma string_app_assoc (a b c : string) : (a +:+ b) +:+ c = a +:+ (b +:+ c).
Proof.
  induction a as [|x a IH]; [reflexivity|].
  change (String x ((a +:+ b) +:+ c) = String x (a +:+ (b +:+ c))).
  f_equal. exact IH.
Qed.

Lemma string_app_inj_length (a b c d : string) :
  String.length a = String.length c -> a +:+ b = c +:+ d -> a = c /\ b = d.
Proof.
  revert c. induction a as [|x a IH]; intros [|y c] Hlen H; simpl in *;
    try discriminate.
  - split; [reflexivity|exact H].
  - inversion H. subst. destruct (IH c) as [-> ->]; [lia|assumption|].
    split; reflexivity.
Qed.

Lemma string_app_inj_r (a c s : string) : a +:+ s = c +:+ s -> a = c.
Proof.
  intros H. apply (string_app_inj_length a s c s); [|exact H].
  apply (f_equal String.length) in H. rewrite !string_length_app in H. lia.
Qed.

(** The key a pruning asks the store to delete, a listed key followed by
    [.csv], is never the key of a log. *)
Lemma pruned_key_not_log (b : list s3_object) (file : string) (o : s3_object) :
  (forall o, o ∈ b -> is_log o -> log_key (key o)) ->
  file ∈ map key b -> o ∈ b -> is_log o -> key o <> file +:+ ".csv".
Proof.
  intros Hkeys Hfile Ho Hlog Heq.
  destruct (Hkeys o Ho Hlog) as [Hk|(stamp & Hk & Hlen)]; rewrite Hk in Heq.
  - pose proof (f_equal String.length Heq) as Hl.
    rewrite string_length_app in Hl. simpl in Hl.
    change "notifications/" with ("notificati" +:+ "ons/") in Heq.
    apply string_app_inj_length in Heq as [_ Heq]; [discriminate|].
    simpl. lia.
  - assert (Hfile' : file = "notifications/" +:+ stamp).
    { apply (string_app_inj_r file ("notifications/" +:+ stamp) ".csv").
      rewrite <- Heq. symmetry. apply string_app_assoc. }
    apply list_elem_of_In, in_map_iff in Hfile as (o2 & Hk2 & Ho2).
    apply list_elem_of_In in Ho2.
    assert (Hlog2 : is_log o2).
    { unfold is_log. rewrite Hk2, Hfile'. reflexivity. }
    destruct (Hkeys o2 Ho2 Hlog2) as [Hk3|(stamp' & Hk3 & Hlen')];
      rewrite Hk2, Hfile' in Hk3.
    + apply (f_equal String.length) in Hk3.
      rewrite string_length_app in Hk3. simpl in Hk3. lia.
    + apply (f_equal String.length) in Hk3.
      rewrite !string_length_app in Hk3. simpl in Hk3. lia.
Qed.

(** ** The invariant of the bucket *)

Lemma count_success_app tid (l1 l2 : list record) :
  count_success tid (l1 ++ l2) = count_success tid l1 + count_success tid l2.
Proof. unfold count_success. rewrite filter_app, length_app. reflexivity. Qed.

Lemma count_success_zero tid (l : list record) :
  ~ has_success l tid -> count_success tid l = 0.
Proof.
  unfold has_success, count_success. intros H.
  induction l as [|e l IH]; [reflexivity|].
  rewrite filter_cons. destruct (decide (success_for tid e)) as [Hs|Hs].
  - exfalso. apply H. left. exact Hs.
  - apply IH. intros Hex. apply H. right. exact Hex.
Qed.

Lemma is_log_key (o o' : s3_object) : key o = key o' -> is_log o -> is_log o'.
Proof. unfold is_log. intros ->. auto. Qed.

Section Invariant.

Variable clock : nat -> datetime.
Hypothesis clock_increases :
  forall n, Datetime.ltb (clock n) (clock (S n)) = true.

Lemma clock_lt (n m : nat) :
  n < m -> Datetime.ltb (clock n) (clock m) = true.
Proof.
  induction 1 as [|m _ IH]; [apply clock_increases|].
  eapply ltb_trans; [exact IH|apply clock_increases].
Qed.

Lemma bucket_inv_later b r r' :
  bucket_inv clock b r -> r <= r' -> bucket_inv clock b r'.
Proof.
  intros [H1 H2 H3 H4 Hp H5 H6] Hle. split; try assumption.
  intros o Ho. destruct (decide (r = r')) as [<-|Hne]; [auto|].
  eapply ltb_trans; [apply H2; exact Ho|apply clock_lt; lia].
Qed.

Lemma bucket_inv_delete b r k :
  bucket_inv clock b r -> bucket_inv clock (Bucket.delete k b) r.
Proof.
  intros [H1 H2 H3 H4 Hp H5 H6].
  split; [apply NoDup_keys_delete; exact H1|..];
    intros; repeat match goal with
            | H : _ ∈ Bucket.delete _ _ |- _ =>
                apply elem_of_delete in H as [H _]
            end; eauto.
Qed.

Lemma bucket_inv_prune b r (g : string -> string) files :
  bucket_inv clock b r ->
  bucket_inv clock (foldl (fun b file => Bucket.delete (g file) b) b files) r.
Proof.
  revert b. induction files as [|f files IH]; intros b H; simpl; [exact H|].
  apply IH. apply bucket_inv_delete. exact H.
Qed.

Lemma elem_of_prune b (g : string -> string) files o :
  o ∈ foldl (fun b file => Bucket.delete (g file) b) b files
  <-> o ∈ b /\ forall file, file ∈ files -> key o <> g file.
Proof.
  revert b. induction files as [|f files IH]; intros b; simpl.
  - split; [intros H; split; [exact H|]|tauto]. intros f Hf. inversion Hf.
  - rewrite IH, elem_of_delete. split.
    + intros [[Ho Hne] Hall]. split; [exact Ho|].
      intros f' Hf'. apply elem_of_cons in Hf' as [->|Hf']; auto.
    + intros [Ho Hall]. split; [split; [exact Ho|]|].
      * apply Hall. left.
      * intros f' Hf'. apply Hall. right. exact Hf'.
Qed.

(** A pruning leaves the logs where they are. *)
Lemma notified_prune b r files tid :
  bucket_inv clock b r ->
  Forall (fun file => file ∈ map key b) files ->
  notified b tid ->
  notified (foldl (fun b file => Bucket.delete (file +:+ ".csv") b) b files) tid.
Proof.
  intros Hinv Hfiles (o & Ho & Hlog & Hs). exists o.
  split; [|split; assumption].
  apply elem_of_prune. split; [exact Ho|]. intros f Hf.
  rewrite Forall_forall in Hfiles.
  apply (pruned_key_not_log b f o (inv_log_keys _ _ _ Hinv)); auto.
Qed.

(** A put under a key that the notifier does not list. *)
Lemma bucket_inv_put_other b r o :
  bucket_inv clock b r -> ~ is_log o -> last_modified o = clock r ->
  bucket_inv clock (Bucket.put o b) (S r).
Proof.
  intros Hinv Hnot Hlm.
  pose proof (bucket_inv_later b r (S r) Hinv (Nat.le_succ_diag_r r))
    as [H1 H2 H3 H4 Hp H5 H6].
  split; [apply NoDup_keys_put; exact H1|..].
  - intros x Hx. apply elem_of_put in Hx as [->|[Hx _]]; [|auto].
    rewrite Hlm. apply clock_increases.
  - intros x Hx Hl. apply elem_of_put in Hx as [->|[Hx _]]; [contradiction|auto].
  - intros x Hx Hl. apply elem_of_put in Hx as [->|[Hx _]]; [contradiction|auto].
  - intros x Hx Hl. apply elem_of_put in Hx as [->|[Hx _]]; [contradiction|auto].
  - intros x tid Hx Hl.
    apply elem_of_put in Hx as [->|[Hx _]]; [contradiction|auto].
  - intros x x' tid Hx Hx' Hl Hl'.
    apply elem_of_put in Hx as [->|[Hx _]]; [contradiction|].
    apply elem_of_put in Hx' as [->|[Hx' _]]; [contradiction|]. eauto.
Qed.

Lemma notified_put_other b o tid :
  ~ is_log o -> notified b tid -> notified (Bucket.put o b) tid.
Proof.
  intros Hnot (x & Hx & Hl & Hs). exists x. split; [|split; assumption].
  apply elem_of_put. right. split; [exact Hx|].
  intros Hk. apply Hnot. eapply is_log_key; eassumption.
Qed.

(** The put of the log writer: the new entries in front of the entries of
    a log that no log is newer than. *)
Lemma bucket_inv_put_log b r k new newest :
  bucket_inv clock b r ->
  newest ∈ b -> is_log newest ->
  (forall o', o' ∈ b -> is_log o' ->
     Datetime.ltb (last_modified newest) (last_modified o') = false) ->
  String.prefix "notifications" k = true -> log_key k ->
  Forall is_log_entry new -> Forall printable_row new ->
  (forall tid, count_success tid new <= 1) ->
  (forall tid, has_success (body newest) tid -> count_success tid new = 0) ->
  bucket_inv clock
    (Bucket.put (mk_object k (clock r) (new ++ body newest)) b) (S r).
Proof.
  intros Hinv Hn Hnl Hmax Hk Hlk Hnew Hnewp Hcount Hfresh.
  pose proof (inv_past _ _ _ Hinv) as Hpast.
  pose proof (bucket_inv_later b r (S r) Hinv (Nat.le_succ_diag_r r))
    as [H1 H2 H3 H4 Hp H5 H6].
  set (o := mk_object k (clock r) (new ++ body newest)).
  assert (Hall : forall x tid, x ∈ b -> is_log x -> has_success (body x) tid ->
                               has_success (body o) tid).
  { intros x tid Hx Hl Hs. unfold has_success. simpl.
    apply Exists_app. right. apply (H6 newest x tid); auto. }
  split; [apply NoDup_keys_put; exact H1|..].
  - intros x Hx. apply elem_of_put in Hx as [->|[Hx _]]; [|auto].
    apply clock_increases.
  - intros x Hx Hl. apply elem_of_put in Hx as [->|[Hx _]]; [exact Hlk|auto].
  - intros x Hx Hl. apply elem_of_put in Hx as [->|[Hx _]]; [|auto].
    simpl. apply Forall_app. split; [exact Hnew|]. apply H4; assumption.
  - intros x Hx Hl. apply elem_of_put in Hx as [->|[Hx _]]; [|auto].
    simpl. apply Forall_app. split; [exact Hnewp|]. apply Hp; assumption.
  - intros x tid Hx Hl. apply elem_of_put in Hx as [->|[Hx _]]; [|auto].
    simpl. rewrite count_success_app.
    destruct (decide (has_success (body newest) tid)) as [Hs|Hs].
    + rewrite (Hfresh tid Hs). simpl. apply H5; assumption.
    + rewrite (count_success_zero tid _ Hs). specialize (Hcount tid). lia.
  - intros x x' tid Hx Hx' Hl Hl' Hle Hs.
    apply elem_of_put in Hx as [->|[Hx _]];
      apply elem_of_put in Hx' as [->|[Hx' _]].
    + exact Hs.
    + apply (Hall x'); assumption.
    + exfalso. simpl in Hle. rewrite (Hpast x Hx) in Hle. discriminate.
    + eauto.
Qed.

Lemma notified_put_log b r k new newest tid :
  bucket_inv clock b r ->
  newest ∈ b -> is_log newest ->
  (forall o', o' ∈ b -> is_log o' ->
     Datetime.ltb (last_modified newest) (last_modified o') = false) ->
  String.prefix "notifications" k = true ->
  notified b tid ->
  notified (Bucket.put (mk_object k (clock r) (new ++ body newest)) b) tid.
Proof.
  intros Hinv Hn Hnl Hmax Hk (x & Hx & Hl & Hs).
  exists (mk_object k (clock r) (new ++ body newest)).
  split; [apply elem_of_put; left; reflexivity|]. split; [exact Hk|].
  unfold has_success. simpl. apply Exists_app. right.
  apply (inv_history _ _ _ Hinv newest x tid); auto.
Qed.

End Invariant.

(** ** C1: no ticket is notified twice *)

Lemma omap_sublist {A B} (f : A -> option B) (l1 l2 : list A) :
  sublist l1 l2 -> sublist (omap f l1) (omap f l2).
Proof.
  induction 1 as [|x l1 l2 _ IH|x l1 l2 _ IH]; simpl.
  - constructor.
  - destruct (f x); [apply sublist_skip|]; exact IH.
  - destruct (f x); [apply sublist_cons|]; exact IH.
Qed.

Lemma log_entry_ticket_id tid status notified_at :
  log_entry tid status notified_at !! "ticket_id" = Some tid.
Proof. unfold log_entry. apply lookup_insert_eq. Qed.

Lemma Forall_sublist {A} (P : A -> Prop) (l1 l2 : list A) :
  sublist l1 l2 -> Forall P l2 -> Forall P l1.
Proof.
  induction 1 as [|x l1 l2 _ IH|x l1 l2 _ IH]; intros H.
  - constructor.
  - inversion H. subst. constructor; auto.
  - inversion H. subst. auto.
Qed.

(** The stamps of [strftime] and the two statuses are printable. *)
Lemma printable_digit (n : N) : printable_char (digit n) = true.
Proof.
  unfold printable_char. rewrite digit_value.
  pose proof (N.mod_lt n 10) as H. generalize dependent (n mod 10)%N.
  intros m H. apply andb_true_iff. split; apply N.leb_le; lia.
Qed.

Lemma printableb_pad2 (n : N) (s : string) :
  printableb (pad2 n +:+ s) = printableb s.
Proof.
  change (pad2 n +:+ s) with (String (digit (n / 10)) (String (digit n) s)).
  simpl. rewrite !printable_digit. reflexivity.
Qed.

Lemma printableb_pad4 (n : N) (s : string) :
  printableb (pad4 n +:+ s) = printableb s.
Proof.
  change (pad4 n +:+ s)
    with (String (digit (n / 1000)) (String (digit (n / 100)) (pad2 n +:+ s))).
  cbn [printableb]. rewrite !printable_digit, printableb_pad2. reflexivity.
Qed.

Lemma printable_datetime_stamp (d : datetime) :
  printable (strftime DateTimeFormats.datetime_format d).
Proof.
  unfold printable.
  change (strftime DateTimeFormats.datetime_format d)
    with (pad4 (year d) +:+ String "-" (pad2 (month d) +:+ String "-"
          (pad2 (day d) +:+ String " " (pad2 (hour d) +:+ String ":"
          (pad2 (minute d) +:+ String ":" (pad2 (second d) +:+ "")))))).
  rewrite printableb_pad4. cbn [printableb]. rewrite printableb_pad2.
  cbn [printableb]. rewrite printableb_pad2. cbn [printableb].
  rewrite printableb_pad2. cbn [printableb]. rewrite printableb_pad2.
  cbn [printableb]. rewrite printableb_pad2. reflexivity.
Qed.

Lemma printable_status chat p : printable (status_of_sends chat p).
Proof.
  unfold status_of_sends. destruct (chat p && chat (S p)); reflexivity.
Qed.

Lemma log_entry_printable tid status notified_at :
  printable tid -> printable status -> printable notified_at ->
  printable_row (log_entry tid status notified_at).
Proof.
  intros Ht Hs Hn. unfold printable_row, log_entry.
  apply map_Forall_insert_2; [exact Ht|].
  apply map_Forall_insert_2; [exact Hn|].
  apply map_Forall_singleton. exact Hs.
Qed.

Section Entries.

Variable notion_args : NotionSourceConfig.

(** The entries written for candidates with distinct ticket ids: at most
    one [success] entry for a ticket id, and none for a ticket id that no
    candidate has. *)
Lemma count_success_entries (contacts new : list record) (tid : string) :
  Forall2 (fun c e => exists t status notified_at,
             ticket_id_of notion_args c = Some t
             /\ e = log_entry t status notified_at) contacts new ->
  NoDup (omap (ticket_id_of notion_args) contacts) ->
  count_success tid new <= 1
  /\ (count_success tid new <> 0 ->
      exists c, c ∈ contacts /\ ticket_id_of notion_args c = Some tid).
Proof.
  induction 1 as [|c e contacts new (t & status & at_ & Ht & He) _ IH];
    intros Hnd.
  - unfold count_success. rewrite filter_nil. simpl.
    split; [lia|]. intros H. contradiction.
  - simpl in Hnd. rewrite Ht in Hnd. apply NoDup_cons in Hnd as [Hnotin Hnd].
    destruct (IH Hnd) as [IH1 IH2]. unfold count_success in *.
    rewrite filter_cons. destruct (decide (success_for tid e)) as [Hs|Hs].
    + destruct Hs as [Hs _]. rewrite He, log_entry_ticket_id in Hs.
      inversion Hs. subst t.
      assert (Hzero : length (filter (success_for tid) new) = 0).
      { destruct (length (filter (success_for tid) new)) eqn:E; [reflexivity|].
        exfalso. destruct IH2 as (c' & Hc' & Hid); [lia|].
        apply Hnotin. apply list_elem_of_omap. exists c'. split; assumption. }
      rewrite length_cons, Hzero. split; [lia|].
      intros _. exists c. split; [left|exact Ht].
    + split; [exact IH1|]. intros Hne. destruct (IH2 Hne) as (c' & Hc' & Hid).
      exists c'. split; [right; exact Hc'|exact Hid].
Qed.

End Entries.

Section Sent.

Variable notion_args : NotionSourceConfig.
Variable slack_channel : string.
Variable clock : nat -> datetime.
Variable chat_postMessage : nat -> bool.
Variable strptime : string -> string -> option datetime.

Local Abbreviation notification_record :=
  (Job.notification_record notion_args slack_channel clock chat_postMessage
                           strptime).
Local Abbreviation send_notifications :=
  (Job.send_notifications notion_args slack_channel clock chat_postMessage
                          strptime).

(** A candidate whose record was built could be rendered. *)
Lemma notification_record_Ok_renderable c st r st' :
  notification_record c st = (Ok r, st') -> renderable notion_args strptime c.
Proof.
  unfold Job.notification_record, renderable, ticket_id_of. munfold.
  unfold bindM, lift, dict_get, raise.
  destruct (c !! notion_page_title notion_args) as [ti|]; [|discriminate].
  destruct (c !! notion_page_created_at notion_args) as [v|]; [|discriminate].
  simpl.
  destruct (strptime v DateTimeFormats.datetime_format) as [d|] eqn:Ed;
    [|discriminate].
  simpl.
  destruct (c !! notion_page_due_date notion_args) as [du|]; [|discriminate].
  destruct (c !! notion_page_page_url notion_args) as [u|]; [|discriminate].
  destruct (c !! notion_page_slack_id notion_args) as [sl|]; [|discriminate].
  simpl.
  destruct (try_except _ _ _) as [[status|e] st1]; [|discriminate].
  destruct (c !! notion_page_ticket_id notion_args) as [tid|]; [|discriminate].
  intros _. repeat split; eauto.
Qed.

Lemma send_notifications_Ok_renderable contacts st log st' :
  send_notifications contacts st = (Ok log, st') ->
  Forall (renderable notion_args strptime) contacts.
Proof.
  revert st log st'. induction contacts as [|c contacts IH]; intros st log st' H.
  - constructor.
  - rewrite send_notifications_cons in H.
    destruct (notification_record c st) as [[r|e] st1] eqn:E; [|discriminate].
    destruct (send_notifications contacts st1) as [[rs|e] st2] eqn:E2;
      [|discriminate].
    constructor.
    + eapply notification_record_Ok_renderable. exact E.
    + eapply IH. exact E2.
Qed.

(** The entries of a run that returned, one for each candidate. *)
Lemma send_notifications_Ok_entries contacts st log st' :
  send_notifications contacts st = (Ok log, st') ->
  Forall2 (fun c e => exists t status notified_at,
             ticket_id_of notion_args c = Some t
             /\ e = log_entry t status notified_at) contacts log
  /\ Forall is_log_entry log
  /\ keeps_notifier st st'.
Proof.
  intros H.
  pose proof (send_notifications_Ok_renderable _ _ _ _ H) as Hr.
  pose proof (send_notifications_keeps_notifier notion_args slack_channel
                clock chat_postMessage strptime _ _ _ _ H) as Hk.
  pose proof (sent_entries_are_log_entries notion_args slack_channel clock
                chat_postMessage strptime _ _ _ _ Hr H) as He.
  split; [|split; assumption].
  destruct (send_notifications_renderable notion_args slack_channel clock
              chat_postMessage strptime contacts st Hr)
    as (log' & st'' & Hsend & Hlen & _ & _ & _ & _ & _ & Hith).
  rewrite H in Hsend. inversion Hsend. subst log' st''.
  apply Forall2_same_length_lookup_2; [symmetry; exact Hlen|].
  intros i c e Hc Hlog. destruct (Hith i c Hc) as (t & Ht & Hl).
  rewrite Hlog in Hl. inversion Hl. eauto.
Qed.

(** The entries of candidates with printable ticket ids are printable. *)
Lemma send_notifications_Ok_printable contacts st log st' :
  send_notifications contacts st = (Ok log, st') ->
  Forall (fun c => forall tid, ticket_id_of notion_args c = Some tid ->
                               printable tid) contacts ->
  Forall printable_row log.
Proof.
  intros H Hids.
  pose proof (send_notifications_Ok_renderable _ _ _ _ H) as Hr.
  destruct (send_notifications_renderable notion_args slack_channel clock
              chat_postMessage strptime contacts st Hr)
    as (log' & st'' & Hsend & Hlen & _ & _ & _ & _ & _ & Hith).
  rewrite H in Hsend. inversion Hsend. subst log' st''.
  apply Forall_lookup. intros i e Hi.
  destruct (lookup_lt_is_Some_2 contacts i) as [c Hc].
  { rewrite <- Hlen. eapply lookup_lt_Some. exact Hi. }
  destruct (Hith i c Hc) as (tid & Htid & He). rewrite Hi in He.
  inversion He. apply log_entry_printable.
  - rewrite Forall_lookup in Hids. apply (Hids i c Hc tid Htid).
  - apply printable_status.
  - apply printable_datetime_stamp.
Qed.

End Sent.

Section Tick.

Variable notion_args : NotionSourceConfig.
Variable slack_channel : string.
Variable notifications_log_prefix : string.
Variable clock : nat -> datetime.
Variable chat_postMessage : nat -> bool.
Variable notion_meta : nat -> result (list record).
Variable strptime : string -> string -> option datetime.
Variable DictReader : list record -> list record.

(** Every reading of the clock is later than the one before, and the
    tickets of a pull have distinct ticket ids. *)
Hypothesis clock_increases :
  forall n, Datetime.ltb (clock n) (clock (S n)) = true.
Hypothesis distinct_ids :
  forall n current,
    notion_meta n = Ok current ->
    NoDup (omap (ticket_id_of notion_args) current).

(** The ticket ids of a pull are printable, and a log of printable cells
    reads back as it was written. *)
Hypothesis printable_ids :
  forall n current,
    notion_meta n = Ok current ->
    Forall (fun c => forall tid, ticket_id_of notion_args c = Some tid ->
                                 printable tid) current.
Hypothesis log_reads_back :
  forall rows,
    Forall is_log_entry rows -> Forall printable_row rows ->
    DictReader rows = rows.

Local Abbreviation get_completed_tickets :=
  (Job.get_completed_tickets notion_args clock notion_meta DictReader).
Local Abbreviation send_notifications :=
  (Job.send_notifications notion_args slack_channel clock chat_postMessage
                          strptime).
Local Abbreviation notify :=
  (Job.notify notion_args slack_channel clock chat_postMessage notion_meta
              strptime DictReader).
Local Abbreviation background_jobs :=
  (Job.background_jobs notion_args slack_channel notifications_log_prefix
                       "data_tickets" clock chat_postMessage notion_meta
                       strptime DictReader).

Lemma advances_refl st : advances clock st st.
Proof. intros H. split; [exact H|auto]. Qed.

Lemma advances_trans st1 st2 st3 :
  advances clock st1 st2 -> advances clock st2 st3 -> advances clock st1 st3.
Proof.
  intros H12 H23 H1. destruct (H12 H1) as [H2 N12].
  destruct (H23 H2) as [H3 N23]. split; [exact H3|auto].
Qed.

Lemma same_bucket_advances st st' : same_bucket st st' -> advances clock st st'.
Proof.
  intros [Hs Hr] H. rewrite Hs. split; [|auto].
  eapply bucket_inv_later; eassumption.
Qed.

Lemma preserves_same_bucket_advances {A} (m : M A) :
  preserves same_bucket m -> preserves (advances clock) m.
Proof. apply preserves_weaken. apply same_bucket_advances. Qed.

Lemma delete_meta_files_advances prefix date_threshold :
  preserves (advances clock) (delete_meta_files strptime prefix date_threshold).
Proof.
  intros st r st' H. apply delete_meta_files_inv in H as (files & Hfiles & ->).
  intros Hinv. simpl. split.
  - apply bucket_inv_prune. exact Hinv.
  - intros tid. eapply notified_prune; eassumption.
Qed.

Lemma write_to_s3_inv data file_name st r st' :
  write_to_s3 clock data file_name st = (r, st') ->
  st' = st
  \/ exists rows,
       st' = set_s3 (Bucket.put (mk_object file_name (clock (reads st)) rows)
                                (s3 st))
                    (set_reads (S (reads st)) st).
Proof.
  unfold write_to_s3. munfold. unfold bindM, lift, getitem.
  destruct data as [|first data]; simpl.
  - intros H. inversion H. left. reflexivity.
  - match goal with
    | |- context [match ?x with Ok _ => _ | Raise _ => _ end] =>
        destruct x as [rows|e]
    end.
    + intros H. inversion H. right. exists rows. reflexivity.
    + intros H. inversion H. left. reflexivity.
Qed.

Lemma load_meta_file_advances meta_file :
  preserves (advances clock) (load_meta_file clock meta_file "data_tickets").
Proof.
  intros st r st' H. unfold load_meta_file in H. munfold.
  unfold bindM at 1 in H. unfold datetime_now at 1 in H.
  apply bindM_inv in H as [(x & st1 & Hw & H) | (e & Hw & _)].
  2: apply write_to_s3_inv in Hw as [->|(rows & ->)].
  1: inversion H; subst st1;
     apply write_to_s3_inv in Hw as [->|(rows & ->)].
  all: try (apply same_bucket_advances; split; simpl; [reflexivity|lia]).
  all: intros Hinv; simpl; split.
  all: try (apply bucket_inv_put_other;
            [exact clock_increases
            |apply (bucket_inv_later clock clock_increases _ (reads st)); [exact Hinv|lia]
            |unfold is_log; simpl; discriminate
            |reflexivity]).
  all: intros tid; apply notified_put_other; unfold is_log; simpl; discriminate.
Qed.

(** The log the notifier retrieves is the body of a log of the bucket that
    no log is newer than. *)
Lemma fetched_log b r old name :
  bucket_inv clock b r ->
  get_most_recent_modified_file DictReader "notifications" b = Ok (old, name) ->
  exists newest,
    newest ∈ b /\ is_log newest /\ body newest = old /\ key newest = name
    /\ forall o', o' ∈ b -> is_log o' ->
          Datetime.ltb (last_modified newest) (last_modified o') = false.
Proof.
  intros Hinv Hfetch.
  destruct (get_most_recent_Ok _ _ _ _ _ (inv_keys _ _ _ Hinv) Hfetch)
    as (newest & Hin & Hlog & Hbody & Hkey & Hmax).
  exists newest. split; [exact Hin|]. split; [exact Hlog|].
  split; [|split; [exact Hkey|exact Hmax]].
  rewrite <- Hbody. symmetry. apply log_reads_back.
  - apply (inv_entries _ _ _ Hinv newest Hin Hlog).
  - apply (inv_printable _ _ _ Hinv newest Hin Hlog).
Qed.

(** The candidates of a tick have distinct, printable ticket ids, and none
    of them has a [success] entry in the log the notifier retrieved. *)
Lemma candidates_fresh st contacts st1 :
  bucket_inv clock (s3 st) (reads st) ->
  get_completed_tickets st = (Ok contacts, st1) ->
  NoDup (omap (ticket_id_of notion_args) contacts)
  /\ Forall (fun c => forall tid, ticket_id_of notion_args c = Some tid ->
                                  printable tid) contacts
  /\ same_bucket st st1
  /\ match get_most_recent_modified_file DictReader "notifications" (s3 st) with
     | Ok (old, _) =>
         notif_log st1 = Some old
         /\ Forall (fun c => ~ already_notified notion_args old c) contacts
     | Raise _ => notif_log st1 = notif_log st
     end.
Proof.
  intros Hinv Hget.
  pose proof (get_completed_tickets_same_bucket notion_args clock notion_meta
                DictReader                _ _ _ Hget) as Hsb.
  destruct (get_completed_tickets_Ok_inv _ _ _ _ _ _ _ Hget)
    as (current & filtered & st0 & Hpull & Hsub & Hids & Hro & Hcheck).
  destruct Hro as (Hs0 & Hn0 & _).
  assert (Hndf : NoDup (omap (ticket_id_of notion_args) filtered)).
  { eapply sublist_NoDup; [eapply distinct_ids; exact Hpull|].
    apply omap_sublist. exact Hsub. }
  assert (Hpf : Forall (fun c => forall tid,
                          ticket_id_of notion_args c = Some tid ->
                          printable tid) filtered).
  { eapply Forall_sublist; [exact Hsub|]. eapply printable_ids. exact Hpull. }
  rewrite <- Hs0.
  destruct (get_most_recent_modified_file DictReader "notifications" (s3 st0))
    as [[old name]|e] eqn:Hfetch.
  - pose proof Hfetch as Hfetch'. rewrite Hs0 in Hfetch'.
    destruct (fetched_log _ _ _ _ Hinv Hfetch')
      as (newest & Hin & Hlog & Hbody & _ & _).
    assert (Hold : Forall readable_entry old).
    { rewrite <- Hbody. eapply Forall_impl;
        [apply (inv_entries _ _ _ Hinv newest Hin Hlog)|].
      apply is_log_entry_readable. }
    rewrite (check_notifications_log_fetched notion_args DictReader filtered st0 old name
               Hfetch Hold Hids) in Hcheck.
    assert (Hc : filter (fun c => ~ already_notified notion_args old c) filtered
                 = contacts) by congruence.
    assert (Hst : set_notif_log (Some old) st0 = st1) by congruence.
    split; [|split; [|split; [exact Hsb|split]]].
    + eapply sublist_NoDup; [exact Hndf|]. apply omap_sublist.
      rewrite <- Hc. apply sublist_filter.
    + eapply Forall_sublist; [|exact Hpf]. rewrite <- Hc. apply sublist_filter.
    + rewrite <- Hst. reflexivity.
    + rewrite <- Hc. apply Forall_forall. intros c Hc'.
      apply list_elem_of_filter in Hc' as [Hc' _]. exact Hc'.
  - rewrite (check_notifications_log_absent notion_args DictReader filtered st0 e Hfetch)
      in Hcheck.
    assert (Hc : filtered = contacts) by congruence.
    assert (Hst : st0 = st1) by congruence. subst.
    split; [exact Hndf|]. split; [exact Hpf|]. split; [exact Hsb|exact Hn0].
Qed.

(** A run of [notify] by a notifier just built keeps the invariant of the
    bucket and the tickets already notified. *)
Lemma notify_advances st r st' :
  notif_log st = None -> notify st = (r, st') -> advances clock st st'.
Proof.
  intros Hnone H Hinv. revert Hinv. change (advances clock st st').
  unfold Job.notify in H. munfold.
  apply bindM_inv in H as [(contacts & st1 & Hget & H) | (e & Hget & _)].
  2: { apply same_bucket_advances.
       eapply get_completed_tickets_same_bucket. exact Hget. }
  intros Hinv.
  destruct (candidates_fresh st contacts st1 Hinv Hget)
    as (Hnd & Hpr & Hsb1 & Hfetched).
  revert Hinv. change (advances clock st st').
  destruct contacts as [|c cs].
  { inversion H. subst. apply same_bucket_advances. exact Hsb1. }
  apply bindM_inv in H as [(new & st2 & Hsend & H) | (e & Hsend & _)].
  2: { apply same_bucket_advances. eapply same_bucket_trans; [exact Hsb1|].
       apply keeps_notifier_same_bucket.
       eapply send_notifications_keeps_notifier. exact Hsend. }
  destruct (send_notifications_Ok_entries _ _ _ _ _ _ _ _ _ Hsend)
    as (Hent & Hlogent & Hs2 & Hn2 & Hr2).
  destruct Hsb1 as [Hs1 Hr1].
  destruct (get_most_recent_modified_file DictReader "notifications" (s3 st))
    as [[old name]|e] eqn:Hfetch.
  - destruct Hfetched as [Hn1 Hfresh]. intros Hinv.
    destruct (fetched_log _ _ _ _ Hinv Hfetch)
      as (newest & Hin & Hlog & Hbody & _ & Hmax).
    assert (Hold : Forall is_log_entry old).
    { rewrite <- Hbody. apply (inv_entries _ _ _ Hinv newest Hin Hlog). }
    destruct new as [|e new']; [inversion Hent|].
    rewrite (log_notifications_writes clock "notifications" e new' old st2)
      in H.
    2: congruence.
    2: { apply Forall_app. split; assumption. }
    inversion H. subst r st'. clear H. simpl.
    rewrite Hs2, Hs1, <- Hbody.
    assert (Hinv' : bucket_inv clock (s3 st) (S (reads st2))).
    { eapply bucket_inv_later; [exact clock_increases|exact Hinv|lia]. }
    assert (Hcount : forall tid,
               count_success tid (e :: new') <= 1
               /\ (has_success (body newest) tid ->
                   count_success tid (e :: new') = 0)).
    { intros tid.
      destruct (count_success_entries notion_args _ _ tid Hent Hnd)
        as [Hle Hex].
      split; [exact Hle|]. intros Hs.
      destruct (count_success tid (e :: new')) eqn:E; [reflexivity|].
      exfalso. destruct Hex as (c' & Hc' & Hid); [lia|].
      rewrite Forall_forall in Hfresh. apply (Hfresh c' Hc').
      exists tid. split; [exact Hid|]. rewrite <- Hbody. exact Hs. }
    split.
    + apply (bucket_inv_put_log clock clock_increases (s3 st) (S (reads st2))
               _ (e :: new') newest);
        [ exact Hinv' | exact Hin | exact Hlog | exact Hmax | reflexivity
        | right; eexists; split; [reflexivity|apply file_stamp_length]
        | exact Hlogent
        | eapply send_notifications_Ok_printable; [exact Hsend|exact Hpr]
        | intros tid; apply Hcount
        | intros tid; apply Hcount ].
    + intros tid. apply (notified_put_log clock (s3 st) (S (reads st2))
                           _ (e :: new') newest);
        [ exact Hinv' | exact Hin | exact Hlog | exact Hmax | reflexivity ].
  - rewrite (log_notifications_unassigned clock "notifications" new st2) in H
      by congruence.
    inversion H. subst. apply same_bucket_advances.
    split; simpl; [congruence|lia].
Qed.

(** X15. The log writer, when the previous log is retrieved: [notify] puts
    one object, under the key of the time of the write, whose rows are the
    new entries of the tick followed by the entries of the previous log;
    this snapshot is what the fetch of the most recent log returns next,
    and the other objects are as before.  In a tick without candidates
    nothing is written. *)
Theorem notify_log_snapshot_is_fetched_next st contacts st1 old name :
  bucket_inv clock (s3 st) (reads st) ->
  get_most_recent_modified_file DictReader "notifications" (s3 st)
  = Ok (old, name) ->
  get_completed_tickets st = (Ok contacts, st1) ->
  Forall (renderable notion_args strptime) contacts ->
  (contacts = [] -> exists st', notify st = (Ok tt, st') /\ s3 st' = s3 st)
  /\ (contacts <> [] ->
      exists new st2 st',
        send_notifications contacts st1 = (Ok new, st2)
        /\ length new = length contacts
        /\ notify st = (Ok tt, st')
        /\ let file :=
             "notifications/"
             +:+ strftime DateTimeFormats.date_file_name_format
                          (clock (reads st2))
             +:+ ".csv" in
           Bucket.get file (s3 st')
           = Some (mk_object file (clock (S (reads st2))) (new ++ old))
           /\ get_most_recent_modified_file DictReader "notifications" (s3 st')
              = Ok (new ++ old, file)
           /\ forall k, k <> file ->
                 Bucket.get k (s3 st') = Bucket.get k (s3 st)).
Proof.
  intros Hinv Hfetch Hget Hr.
  destruct (candidates_fresh st contacts st1 Hinv Hget)
    as (Hnd & Hpr & [Hs1 Hr1] & Hfetched).
  rewrite Hfetch in Hfetched. destruct Hfetched as [Hn1 Hfresh].
  split.
  { intros ->. exists st1. split; [|exact Hs1].
    unfold Job.notify. munfold. rewrite (bindM_Ok _ _ _ _ _ Hget).
    reflexivity. }
  intros Hne.
  destruct (fetched_log _ _ _ _ Hinv Hfetch)
    as (newest & Hin & Hlog & Hbody & _ & Hmax).
  destruct (send_notifications_renderable notion_args slack_channel clock
              chat_postMessage strptime contacts st1 Hr)
    as (new & st2 & Hsend & Hlen & Hs2 & Hnl2 & _ & Hre2 & _).
  destruct (send_notifications_Ok_entries _ _ _ _ _ _ _ _ _ Hsend)
    as (_ & Hlogent & _).
  pose proof (send_notifications_Ok_printable _ _ _ _ _ _ _ _ _ Hsend Hpr)
    as Hnewp.
  assert (Hold : Forall is_log_entry old).
  { rewrite <- Hbody. apply (inv_entries _ _ _ Hinv newest Hin Hlog). }
  assert (Holdp : Forall printable_row old).
  { rewrite <- Hbody. apply (inv_printable _ _ _ Hinv newest Hin Hlog). }
  destruct new as [|e new'].
  { destruct contacts; [contradiction|discriminate]. }
  assert (Hall : Forall is_log_entry ((e :: new') ++ old))
    by (apply Forall_app; split; assumption).
  assert (Hnl : notif_log st2 = Some old) by congruence.
  pose proof (log_notifications_writes clock "notifications" e new' old st2
                Hnl Hall) as Hwrite.
  exists (e :: new'), st2. eexists.
  split; [exact Hsend|]. split; [exact Hlen|]. split.
  { unfold Job.notify. munfold. rewrite (bindM_Ok _ _ _ _ _ Hget).
    destruct contacts as [|c contacts']; [contradiction|].
    rewrite (bindM_Ok _ _ _ _ _ Hsend). exact Hwrite. }
  cbn zeta. cbn [s3 set_s3 set_reads reads]. rewrite Hs2, Hs1.
  set (o := mk_object _ (clock (S (reads st2))) ((e :: new') ++ old)).
  split; [apply (get_put_same o)|]. split.
  - rewrite (get_most_recent_put_newest DictReader "notifications" o).
    + cbn [body key o]. rewrite log_reads_back; [reflexivity|exact Hall|].
      apply Forall_app. split; assumption.
    + apply (inv_keys _ _ _ Hinv).
    + intros x Hx. cbn [last_modified o].
      apply (inv_past clock (s3 st) (S (reads st2))); [|exact Hx].
      eapply bucket_inv_later; [exact clock_increases|exact Hinv|lia].
    + reflexivity.
  - intros k Hk. apply (get_put_other o). exact Hk.
Qed.

(** The job of a tick keeps the invariant of the bucket and the tickets
    already notified. *)
Lemma background_jobs_advances st r st' :
  background_jobs st = (r, st') -> advances clock st st'.
Proof.
  unfold Job.background_jobs. munfold. intros H.
  apply bindM_inv in H as [(x & st1 & H1 & H) | (e & H1 & _)];
    [|inversion H1].
  inversion H1. subst x st1. clear H1.
  apply (advances_trans st (set_notif_log None st) st').
  { apply same_bucket_advances. split; simpl; [reflexivity|lia]. }
  apply bindM_inv in H as [(x & st2 & H2 & H) | (e & H2 & _)].
  2: { eapply notify_advances; [|exact H2]. reflexivity. }
  apply (advances_trans (set_notif_log None st) st2 st').
  { eapply notify_advances; [|exact H2]. reflexivity. }
  revert H. generalize st2 r st'. change (preserves (advances clock)
    (bindM (datetime_now clock) (fun today =>
       bindM (delete_meta_files strptime notifications_log_prefix
                (strftime DateTimeFormats.datetime_format
                          (minus_one_day (date today))))
         (fun _ => bindM (generate_meta_file notion_meta) (fun metafile =>
            bindM (load_meta_file clock metafile "data_tickets") (fun _ =>
              delete_meta_files strptime "data_tickets"
                (strftime DateTimeFormats.datetime_format
                          (minus_one_day (date today))))))))).
  repeat first
    [ apply delete_meta_files_advances
    | apply load_meta_file_advances
    | apply preserves_same_bucket_advances, preserves_only_reads_same_bucket,
        datetime_now_only_reads
    | apply preserves_same_bucket_advances, preserves_only_reads_same_bucket,
        generate_meta_file_only_reads
    | apply (preserves_bind (advances clock) advances_trans)
    | progress intros ].
Qed.

Local Abbreviation tick :=
  (Job.tick notion_args slack_channel notifications_log_prefix "data_tickets"
            clock chat_postMessage notion_meta strptime DictReader).
Local Abbreviation ticks :=
  (Job.ticks notion_args slack_channel notifications_log_prefix "data_tickets"
             clock chat_postMessage notion_meta strptime DictReader).

Lemma tick_advances st : advances clock st (tick st).
Proof.
  unfold Job.tick. destruct (background_jobs st) as [r st'] eqn:E.
  eapply background_jobs_advances. exact E.
Qed.

Lemma ticks_advance n st : advances clock st (ticks n st).
Proof.
  revert st. induction n as [|n IH]; intros st; simpl.
  - apply advances_refl.
  - eapply advances_trans; [apply tick_advances|apply IH].
Qed.

Lemma ticks_add n k st : ticks (n + k) st = ticks k (ticks n st).
Proof.
  revert st. induction n as [|n IH]; intros st; simpl; [reflexivity|apply IH].
Qed.

(** The log that the notifier retrieves has the [success] entries of every
    log of the bucket. *)
Lemma retrieved_log_has_history b r tid :
  bucket_inv clock b r -> notified b tid ->
  exists old name,
    get_most_recent_modified_file DictReader "notifications" b = Ok (old, name)
    /\ has_success old tid.
Proof.
  intros Hinv (o & Ho & Hlog & Hs).
  destruct (get_most_recent_defined DictReader "notifications" b o Ho Hlog)
    as (old & name & Hfetch).
  exists old, name. split; [exact Hfetch|].
  destruct (fetched_log _ _ _ _ Hinv Hfetch)
    as (newest & Hin & Hnl & Hbody & _ & Hmax).
  rewrite <- Hbody.
  apply (inv_history _ _ _ Hinv newest o tid); auto.
Qed.

(** A tick does not send for a ticket that a log has a [success] entry
    for. *)
Lemma tick_contacts_exclude_notified st tid c :
  bucket_inv clock (s3 st) (reads st) -> notified (s3 st) tid ->
  c ∈ tick_contacts notion_args clock notion_meta DictReader st ->
  ticket_id_of notion_args c <> Some tid.
Proof.
  intros Hinv Hnot Hc Hid. unfold tick_contacts in Hc.
  destruct (get_completed_tickets (set_notif_log None st))
    as [[contacts|e] st1] eqn:Hget; [|inversion Hc].
  destruct (candidates_fresh (set_notif_log None st) contacts st1 Hinv Hget)
    as (_ & _ & _ & Hfetched).
  simpl in Hfetched.
  destruct (retrieved_log_has_history _ _ tid Hinv Hnot)
    as (old & name & Hfetch & Hs).
  rewrite Hfetch in Hfetched. destruct Hfetched as [_ Hfresh].
  rewrite Forall_forall in Hfresh. apply (Hfresh c Hc).
  exists tid. split; assumption.
Qed.


End Tick.

Lemma notifiedb_true (b : list s3_object) (tid : string) :
  notifiedb b tid = true -> notified b tid.
Proof.
  unfold notifiedb. intros H. apply existsb_exists in H as (o & Ho & H).
  apply andb_true_iff in H as [Hlog H].
  apply existsb_exists in H as (e & He & Hs).
  apply bool_decide_eq_true in Hs.
  exists o. split; [apply list_elem_of_In; exact Ho|]. split; [exact Hlog|].
  apply Exists_exists. exists e. split; [apply list_elem_of_In; exact He|].
  exact Hs.
Qed.


(** ** The theorems at concrete inputs *)

Module Witness.

Import Demo.

(** The tickets of the examples have the fields of the messages. *)
Lemma ticket_renderable (id status : string) :
  renderable notion_args strptime (ticket id status).
Proof.
  repeat split;
    first [ eexists; vm_compute; reflexivity
          | exists "2024-03-01 10:00:00", (mk_datetime 2024 3 1 10 0 0 0);
            split; vm_compute; reflexivity ].
Qed.

Ltac demo_renderable :=
  repeat (apply List.Forall_cons; [apply ticket_renderable|]);
  apply List.Forall_nil.

(** C2 on the log of the bucket [logged]: ticket 7 was notified, the
    notification of ticket 2 failed. *)
Lemma check_notifications_log_dedup_witness :
  (__check_notifications_log notion_args DictReader
     [ticket "7" "Done"; ticket "2" "Done"] (initial logged)).1
  = Ok [ticket "2" "Done"].
Proof.
  assert (Hfetch :
    get_most_recent_modified_file DictReader "notifications" (s3 (initial logged))
    = Ok ([entry "7" "success" "2024-03-01 12:00:00";
           entry "2" "failed" "2024-03-01 12:00:00"],
          "notifications/20240301_1200.csv"))
    by (vm_compute; reflexivity).
  destruct (check_notifications_log_dedup notion_args DictReader
              [ticket "7" "Done"; ticket "2" "Done"] (initial logged))
    as [H _].
  - repeat constructor; eexists; vm_compute; reflexivity.
  - intros log name Hlog. rewrite Hfetch in Hlog. inversion Hlog.
    repeat constructor; eexists; vm_compute; reflexivity.
  - destruct (H _ _ Hfetch) as [-> _]. vm_compute. reflexivity.
Defined.

(** C4 on an empty bucket. *)
Lemma filter_records_fetch_failure_escapes_witness :
  get_most_recent_modified_file DictReader "data_tickets" (s3 (initial [])) = Raise IndexError
  /\ (__filter_records_marked_completed_not_notified
        notion_args DictReader [ticket "1" "Done"] (initial [])).1
     = Raise (UnboundLocalError "last_meta_file").
Proof.
  split; [reflexivity|].
  apply (filter_records_fetch_failure_escapes notion_args DictReader _ _
           IndexError).
  reflexivity.
Defined.

(** C6 on two candidates, the first send of the first one failing. *)
Lemma send_notifications_one_entry_per_candidate_witness :
  exists log st',
    send_notifications notion_args team clock first_fails strptime
      [ticket "1" "Done"; ticket "2" "Done"] (initial [])
    = (Ok log, st')
    /\ length log = 2
    /\ log !! 0 = Some (log_entry "1" "failed" "2024-03-07 09:05:00")
    /\ log !! 1 = Some (log_entry "2" "success" "2024-03-07 09:05:01").
Proof.
  destruct (send_notifications_one_entry_per_candidate notion_args team clock
              first_fails strptime [ticket "1" "Done"; ticket "2" "Done"]
              (initial []))
    as (log & st' & Hsend & Hlen & Hith).
  - demo_renderable.
  - exists log, st'. split; [exact Hsend|]. split; [exact Hlen|]. split.
    + destruct (Hith 0 (ticket "1" "Done") eq_refl) as (tid & Htid & Hlog).
      vm_compute in Htid. inversion Htid. subst tid. rewrite Hlog.
      vm_compute. reflexivity.
    + destruct (Hith 1 (ticket "2" "Done") eq_refl) as (tid & Htid & Hlog).
      vm_compute in Htid. inversion Htid. subst tid. rewrite Hlog.
      vm_compute. reflexivity.
Defined.

(** C7 on the bucket [unlogged]: nothing is under the prefix of the logs. *)
Lemma notify_unassigned_log_not_persisted_witness :
  exists st',
    notify notion_args team clock delivers pull strptime DictReader (initial unlogged)
    = (Raise (AttributeError "notif_log"), st')
    /\ s3 st' = unlogged
    /\ length (outbox st') = 2.
Proof.
  destruct (notify_unassigned_log_not_persisted notion_args team clock delivers
              pull strptime DictReader (initial unlogged) [ticket "1" "Done"]
              (get_completed_tickets notion_args clock pull DictReader
                                     (initial unlogged)).2
              IndexError)
    as (new & st2 & st' & Hsend & Hlen & Hposts & Hnotify & Hnone & Hs3 & Hp & Ho).
  - reflexivity.
  - vm_compute. reflexivity.
  - vm_compute. reflexivity.
  - discriminate.
  - demo_renderable.
  - exists st'. split; [exact Hnotify|]. split; [exact Hs3|].
    rewrite Ho. apply (f_equal snd) in Hsend. simpl in Hsend. rewrite <- Hsend.
    vm_compute. reflexivity.
Defined.

(** C9 on a snapshot of one ticket. *)
Lemma load_meta_file_names_and_stamps_witness :
  exists rows,
    load_meta_file clock [ticket "1" "Done"] "data_tickets" (initial [])
    = (Ok tt,
       set_s3 [mk_object "data_tickets/20240307_0905.csv" (clock 1) rows]
              (set_reads 2 (initial [])))
    /\ Forall (fun row => row !! "uploaded_at" = Some "2024-03-07 09:05:00")
              rows.
Proof.
  destruct (load_meta_file_names_and_stamps clock (ticket "1" "Done") []
              "data_tickets" (initial []))
    as (rows & Hload & _ & _ & _ & Hrows).
  - unfold valid. simpl. lia.
  - constructor.
  - exists rows. split; [exact Hload|].
    inversion Hrows as [|r row l l' [Hup _] Hrest]. subst.
    inversion Hrest. subst. constructor; [exact Hup|constructor].
Defined.

(** C1 from the bucket with the two placeholders, under the clock of the
    minutes: ticket 1 is notified in the first tick; in the second tick it
    is completed anew, with ticket 3, and only ticket 3 is a candidate. *)
Lemma minutes_increase (n : nat) :
  Datetime.ltb (minutes n) (minutes (S n)) = true.
Proof.
  assert (E : (N.of_nat n ?= N.of_nat (S n))%N = Lt)
    by (apply N.compare_lt_iff; lia).
  unfold Datetime.ltb, Datetime.compare, minutes, fields.
  cbn [lex_compare year month day hour minute second microsecond].
  rewrite !N.compare_refl, E. reflexivity.
Qed.

Lemma placeholders_inv : bucket_inv minutes placeholders 0.
Proof.
  split.
  - apply (bool_decide_unpack _). vm_compute. exact I.
  - intros o Ho. repeat (apply elem_of_cons in Ho as [->|Ho]);
      [reflexivity|reflexivity|inversion Ho].
  - intros o Ho Hlog. repeat (apply elem_of_cons in Ho as [->|Ho]);
      [discriminate Hlog|left; reflexivity|inversion Ho].
  - intros o Ho Hlog. repeat (apply elem_of_cons in Ho as [->|Ho]);
      [constructor|constructor|inversion Ho].
  - intros o Ho Hlog. repeat (apply elem_of_cons in Ho as [->|Ho]);
      [constructor|constructor|inversion Ho].
  - intros o tid Ho Hlog. repeat (apply elem_of_cons in Ho as [->|Ho]);
      [ unfold count_success; simpl; lia
      | unfold count_success; simpl; lia
      | inversion Ho ].
  - intros o o' tid Ho Ho' Hlog Hlog' _ Hs.
    repeat (apply elem_of_cons in Ho' as [->|Ho']);
      [inversion Hs|inversion Hs|inversion Ho'].
Qed.

Lemma reopened_ids (n : nat) (current : list record) :
  reopened n = Ok current ->
  NoDup (omap (ticket_id_of notion_args) current)
  /\ Forall (fun c => forall tid, ticket_id_of notion_args c = Some tid ->
                                  printable tid) current.
Proof.
  intros H.
  destruct n as [|[|n]]; inversion H; subst current; clear H; split;
    try (apply (bool_decide_unpack _); vm_compute; exact I);
    repeat constructor; intros tid Htid; vm_compute in Htid;
    inversion Htid; reflexivity.
Qed.


End Witness.

(** * Further properties of the connectors and of the job *)

(** ** The object store connector *)

(** X1. The fetch of the most recent file raises exactly when no object is
    under the prefix, and what it raises then is [IndexError]. *)
Theorem get_most_recent_raises_iff_nothing_listed DictReader prefix b :
  match get_most_recent_modified_file DictReader prefix b with
  | Ok _ => objects_filter prefix b <> []
  | Raise e => e = IndexError /\ objects_filter prefix b = []
  end.
Proof.
  destruct (objects_filter prefix b) as [|o l] eqn:E.
  - unfold get_most_recent_modified_file. rewrite E. simpl. split; reflexivity.
  - assert (Ho : o ∈ objects_filter prefix b) by (rewrite E; left).
    apply elem_of_objects_filter in Ho as [Ho Hp].
    destruct (get_most_recent_defined DictReader prefix b o Ho Hp) as (rows & name & ->).
    discriminate.
Qed.

(** X2. In a bucket with one object per key, the file fetched is that of an
    object under the prefix, with its key, and no object under the prefix
    was modified after it; the placeholder of the prefix is a candidate
    like any other object. *)
Theorem get_most_recent_is_newest DictReader prefix b rows name :
  NoDup (map key b) ->
  get_most_recent_modified_file DictReader prefix b = Ok (rows, name) ->
  exists o,
    o ∈ b /\ String.prefix prefix (key o) = true
    /\ DictReader (body o) = rows /\ key o = name
    /\ forall o', o' ∈ b -> String.prefix prefix (key o') = true ->
                  Datetime.ltb (last_modified o) (last_modified o') = false.
Proof. apply get_most_recent_Ok. Qed.

(** The row written for a record without fields beyond the header. *)
Lemma dict_to_row_lookup (first row : record) :
  dom row ⊆ dom first ->
  exists row',
    dict_to_row (dict_keys first) row = Ok row'
    /\ forall f, row' !! f
                 = if decide (f ∈ dom first)
                   then Some (default EmptyString (row !! f)) else None.
Proof.
  intros Hsub. unfold dict_to_row.
  assert (Hall : forallb (fun k => in_list k (dict_keys first)) (dict_keys row)
                 = true).
  { apply forallb_forall. intros k Hk. apply in_list_true.
    apply elem_of_dict_keys. apply Hsub. apply elem_of_dict_keys.
    apply list_elem_of_In. exact Hk. }
  rewrite Hall. eexists. split; [reflexivity|]. intros f.
  rewrite (lookup_written_row _ _ _ (NoDup_dict_keys first)).
  destruct (decide (f ∈ dict_keys first)) as [Hin|Hin];
    destruct (decide (f ∈ dom first)) as [Hd|Hd]; try reflexivity.
  - exfalso. apply Hd. apply elem_of_dict_keys. exact Hin.
  - exfalso. apply Hin. apply elem_of_dict_keys. exact Hd.
Qed.

Lemma writerows_lookup (first : record) (data : list record) :
  Forall (fun row => dom row ⊆ dom first) data ->
  exists rows,
    writerows (dict_keys first) data = Ok rows
    /\ Forall2 (fun row row' =>
                  forall f, row' !! f
                            = if decide (f ∈ dom first)
                              then Some (default EmptyString (row !! f))
                              else None)
               data rows.
Proof.
  induction 1 as [|row data Hrow _ (rows & IH & IH2)].
  - exists []. split; [reflexivity|constructor].
  - destruct (dict_to_row_lookup first row Hrow) as (row' & Hr & Hl).
    exists (row' :: rows). simpl. munfold. rewrite Hr. simpl. rewrite IH.
    split; [reflexivity|]. constructor; assumption.
Qed.

Section StoreRoundTrip.

Variable clock : nat -> datetime.
Variable DictReader : list record -> list record.

(** X3. A write whose rows have no field beyond those of the first row
    succeeds and puts one object under the key; its rows are the rows
    written, each with the fields of the first row, the missing ones empty
    (so rows with the same fields are stored as they are); [read_csv]
    returns what the reader makes of these rows, and the other files read
    as before. *)
Theorem write_to_s3_reads_back first data file_name st :
  Forall (fun row => dom row ⊆ dom first) data ->
  exists rows st',
    write_to_s3 clock (first :: data) file_name st = (Ok (Some true), st')
    /\ Bucket.get file_name (s3 st')
       = Some (mk_object file_name (clock (reads st)) rows)
    /\ read_csv DictReader file_name (s3 st') = Ok (DictReader rows)
    /\ Forall2 (fun row row' =>
                  forall f, row' !! f
                            = if decide (f ∈ dom first)
                              then Some (default EmptyString (row !! f))
                              else None)
               (first :: data) rows
    /\ (Forall (fun row => dom row = dom first) data -> rows = first :: data)
    /\ (forall k, k <> file_name ->
          read_csv DictReader k (s3 st') = read_csv DictReader k (s3 st)).
Proof.
  intros Hsub.
  assert (Hall : Forall (fun row => dom row ⊆ dom first) (first :: data))
    by (constructor; [reflexivity|exact Hsub]).
  destruct (writerows_lookup first _ Hall) as (rows & Hw & Hrows).
  exists rows. eexists.
  split; [|split; [|split; [|split; [exact Hrows|split]]]].
  - unfold write_to_s3. munfold. unfold bindM, lift, getitem. simpl.
    simpl in Hw. munfold. rewrite Hw. reflexivity.
  - simpl.
    apply (get_put_same (mk_object file_name (clock (reads st)) rows)).
  - simpl. unfold read_csv.
    rewrite (get_put_same (mk_object file_name (clock (reads st)) rows)).
    reflexivity.
  - intros Hsame.
    assert (Hsame' : Forall (fun row => dom row = dom first) (first :: data))
      by (constructor; [reflexivity|exact Hsame]).
    pose proof (writerows_same first _ Hsame') as Hw'.
    rewrite Hw in Hw'. inversion Hw'. reflexivity.
  - intros k Hk. simpl. unfold read_csv.
    rewrite get_put_other by exact Hk. reflexivity.
Qed.

(** X4. A write in which a row has a field that the first row lacks raises
    [ValueError] and stores nothing: the state is as before. *)
Theorem write_to_s3_extra_field first data file_name st :
  Exists (fun row => ~ dom row ⊆ dom first) data ->
  write_to_s3 clock (first :: data) file_name st = (Raise ValueError, st).
Proof.
  intros Hex.
  assert (Hrows : forall data,
             Exists (fun row => ~ dom row ⊆ dom first) data ->
             writerows (dict_keys first) data = Raise ValueError).
  { clear Hex data. intros data. induction 1 as [row data Hrow|row data _ IH];
      simpl; munfold.
    - unfold dict_to_row.
      destruct (forallb (fun k => in_list k (dict_keys first)) (dict_keys row))
        eqn:E; [|reflexivity].
      exfalso. apply Hrow. intros f Hf.
      rewrite forallb_forall in E.
      apply elem_of_dict_keys, in_list_true, E, list_elem_of_In,
        elem_of_dict_keys.
      exact Hf.
    - unfold dict_to_row at 1.
      destruct (forallb _ (dict_keys row)); [|reflexivity].
      simpl. rewrite IH. reflexivity. }
  unfold write_to_s3. munfold. unfold bindM, lift, getitem. simpl.
  destruct (dict_to_row_lookup first first) as (r & Hr & _); [reflexivity|].
  munfold. rewrite Hr. simpl. rewrite (Hrows data Hex). reflexivity.
Qed.

End StoreRoundTrip.

Section StoreNewest.

Variable clock : nat -> datetime.
Variable DictReader : list record -> list record.

(** X5. In a bucket with one object per key, all stamped before the next
    reading of the clock, a file written under a prefix is the one the
    fetch of the most recent file of that prefix returns next, with the
    reader's reading of the rows written. *)
Theorem written_file_is_most_recent prefix first data file_name st :
  NoDup (map key (s3 st)) ->
  (forall o, o ∈ s3 st ->
             Datetime.ltb (last_modified o) (clock (reads st)) = true) ->
  String.prefix prefix file_name = true ->
  Forall (fun row => dom row = dom first) data ->
  get_most_recent_modified_file DictReader prefix
    (s3 (write_to_s3 clock (first :: data) file_name st).2)
  = Ok (DictReader (first :: data), file_name).
Proof.
  intros Hnd Hpast Hp Hsame.
  assert (Hall : Forall (fun row => dom row = dom first) (first :: data))
    by (constructor; [reflexivity|exact Hsame]).
  rewrite (write_to_s3_same clock first data file_name st Hall). simpl.
  set (o := mk_object file_name (clock (reads st)) (first :: data)).
  assert (Ho : o ∈ Bucket.put o (s3 st)) by (apply elem_of_put; left; reflexivity).
  destruct (get_most_recent_defined DictReader prefix _ o Ho Hp) as (rows & name & Hget).
  rewrite Hget.
  destruct (get_most_recent_Ok DictReader prefix _ rows name
              (NoDup_keys_put o _ Hnd) Hget)
    as (newest & Hin & _ & Hbody & Hkey & Hmax).
  apply elem_of_put in Hin as [->|[Hin _]].
  - simpl in Hbody, Hkey. subst. reflexivity.
  - exfalso. specialize (Hmax o Ho Hp). simpl in Hmax.
    rewrite (Hpast newest Hin) in Hmax. discriminate.
Qed.

End StoreNewest.

(** ** Pruning *)

Lemma delete_absent (k : string) (b : list s3_object) :
  (forall o, o ∈ b -> key o <> k) -> Bucket.delete k b = b.
Proof.
  unfold Bucket.delete. induction b as [|y b IH]; intros H; [reflexivity|].
  simpl. assert (Hy : key y <> k) by (apply H; left).
  apply String.eqb_neq in Hy. rewrite Hy. simpl. f_equal.
  apply IH. intros o Ho. apply H. right. exact Ho.
Qed.

Lemma prune_absent (g : string -> string) (files : list string)
    (b : list s3_object) :
  (forall o file, o ∈ b -> file ∈ files -> key o <> g file) ->
  foldl (fun b file => Bucket.delete (g file) b) b files = b.
Proof.
  induction files as [|f files IH]; intros H; [reflexivity|]. simpl.
  rewrite delete_absent by (intros o Ho; apply H; [exact Ho|left]).
  apply IH. intros o file Ho Hf. apply H; [exact Ho|right; exact Hf].
Qed.

Section PruningFacts.

Variable strptime : string -> string -> option datetime.

(** The keys a pruning lists for deletion. *)
Lemma delete_meta_files_parsed prefix date_threshold d st :
  strptime date_threshold DateTimeFormats.datetime_format = Some d ->
  delete_meta_files strptime prefix date_threshold st
  = (Ok tt,
     set_s3
       (foldl (fun b file => Bucket.delete (file +:+ ".csv") b) (s3 st)
              (map key
                 (List.filter
                    (fun obj =>
                       Datetime.ltb (last_modified obj) d
                       && negb (String.eqb (key obj) (prefix +:+ "/")))
                    (objects_filter prefix (s3 st)))))
       st).
Proof.
  intros Hd. unfold delete_meta_files. munfold. unfold bindM, gets.
  rewrite Hd. simpl.
  destruct (map key _) as [|f files] eqn:E.
  - simpl. rewrite set_s3_same. reflexivity.
  - rewrite for_each_remove_object. reflexivity.
Qed.

Lemma delete_meta_files_unparsed prefix date_threshold st :
  strptime date_threshold DateTimeFormats.datetime_format = None ->
  delete_meta_files strptime prefix date_threshold st = (Raise ValueError, st).
Proof.
  intros Hd. unfold delete_meta_files. munfold. unfold bindM, raise.
  rewrite Hd. reflexivity.
Qed.

(** X6. What a pruning deletes.  With a threshold that does not parse, it
    raises [ValueError] and the state is as before.  Otherwise it returns,
    and the objects left are those whose key is not, followed by [.csv]
    once more, the key of an object under the prefix that was modified
    before the threshold and is not the placeholder: so an object is
    deleted for the age of another key, never for its own. *)
Theorem delete_meta_files_deletes prefix date_threshold st :
  match strptime date_threshold DateTimeFormats.datetime_format with
  | None =>
      delete_meta_files strptime prefix date_threshold st
      = (Raise ValueError, st)
  | Some d =>
      exists st',
        delete_meta_files strptime prefix date_threshold st = (Ok tt, st')
        /\ forall o,
             o ∈ s3 st'
             <-> o ∈ s3 st
                 /\ forall listed,
                      listed ∈ s3 st ->
                      String.prefix prefix (key listed) = true ->
                      Datetime.ltb (last_modified listed) d = true ->
                      key listed <> prefix +:+ "/" ->
                      key o <> key listed +:+ ".csv"
  end.
Proof.
  destruct (strptime date_threshold DateTimeFormats.datetime_format)
    as [d|] eqn:Hd.
  - eexists. split; [apply delete_meta_files_parsed; exact Hd|].
    intros o. simpl. rewrite elem_of_prune. split.
    + intros [Ho Hne]. split; [exact Ho|].
      intros listed Hl Hp Hlt Hph. apply Hne.
      apply list_elem_of_In, in_map, filter_In. split.
      * apply list_elem_of_In, elem_of_objects_filter. split; assumption.
      * rewrite Hlt. simpl. apply negb_true_iff, String.eqb_neq. exact Hph.
    + intros [Ho Hne]. split; [exact Ho|]. intros f Hf.
      apply list_elem_of_In, in_map_iff in Hf as (listed & <- & Hl).
      apply filter_In in Hl as [Hl Hc].
      apply list_elem_of_In, elem_of_objects_filter in Hl as [Hl Hp].
      apply andb_true_iff in Hc as [Hlt Hph].
      apply negb_true_iff, String.eqb_neq in Hph.
      apply Hne; assumption.
  - apply delete_meta_files_unparsed. exact Hd.
Qed.

(** X7. In a bucket in which no key is another key followed by [.csv], as
    when every file was named by the job, a pruning deletes nothing,
    whatever the threshold: the bucket is as before. *)
Theorem delete_meta_files_deletes_nothing prefix date_threshold st :
  (forall o o', o ∈ s3 st -> o' ∈ s3 st -> key o' <> key o +:+ ".csv") ->
  s3 (delete_meta_files strptime prefix date_threshold st).2 = s3 st.
Proof.
  intros Hno.
  destruct (delete_meta_files strptime prefix date_threshold st)
    as [r st'] eqn:E.
  apply delete_meta_files_inv in E as (files & Hfiles & ->). simpl.
  apply prune_absent. intros o f Ho Hf.
  rewrite Forall_forall in Hfiles. pose proof (Hfiles f Hf) as Hin.
  apply list_elem_of_In, in_map_iff in Hin as (o0 & <- & Ho0).
  apply Hno; [apply list_elem_of_In; exact Ho0|exact Ho].
Qed.

(** X8. A pruning is idempotent: pruning again, with the same prefix and
    threshold, gives the same result and leaves the state as the first
    pruning left it. *)
Theorem delete_meta_files_idempotent prefix date_threshold st :
  let first := delete_meta_files strptime prefix date_threshold st in
  delete_meta_files strptime prefix date_threshold first.2 = first.
Proof.
  simpl.
  destruct (strptime date_threshold DateTimeFormats.datetime_format)
    as [d|] eqn:Hd.
  - rewrite (delete_meta_files_parsed prefix date_threshold d st Hd). simpl.
    rewrite (delete_meta_files_parsed prefix date_threshold d _ Hd). simpl.
    f_equal.
    set (files := map key (List.filter _ (objects_filter prefix (s3 st)))).
    set (b1 := foldl _ (s3 st) files).
    rewrite prune_absent.
    + unfold set_s3. simpl. reflexivity.
    + intros o f Ho Hf. apply elem_of_prune in Ho as [_ Hne]. apply Hne.
      apply list_elem_of_In, in_map_iff in Hf as (listed & <- & Hl).
      apply filter_In in Hl as [Hl Hc].
      apply list_elem_of_In, elem_of_objects_filter in Hl as [Hl Hp].
      apply elem_of_prune in Hl as [Hl _].
      apply list_elem_of_In, in_map, filter_In. split; [|exact Hc].
      apply list_elem_of_In, elem_of_objects_filter. split; assumption.
  - rewrite (delete_meta_files_unparsed prefix date_threshold st Hd). simpl.
    apply delete_meta_files_unparsed. exact Hd.
Qed.

End PruningFacts.

(** ** The completion diff and the candidates *)

Lemma list_comp_raises {A B} (cond : A -> result bool) (out : A -> result B)
    (e : exn) (l : list A) :
  Forall (fun x => cond x = Raise e
                   \/ exists b, cond x = Ok b
                                /\ (b = true -> exists y, out x = Ok y)) l ->
  Exists (fun x => cond x = Raise e) l ->
  list_comp cond out l = Raise e.
Proof.
  induction 1 as [|x l Hx Hl IH]; intros Hex; [inversion Hex|].
  simpl. destruct Hx as [Hx|(b & Hx & Hout)].
  - rewrite Hx. reflexivity.
  - rewrite Hx. simpl.
    assert (Hrest : Exists (fun x => cond x = Raise e) l).
    { inversion Hex as [? ? Hc|? ? Hc]; subst; [|exact Hc]. congruence. }
    destruct b.
    + destruct (Hout eq_refl) as (y & ->). simpl. rewrite (IH Hrest).
      reflexivity.
    + apply IH. exact Hrest.
Qed.

Section DiffFacts.

Variable notion_args : NotionSourceConfig.
Variable clock : nat -> datetime.
Variable notion_meta : nat -> result (list record).
Variable DictReader : list record -> list record.

(** X9. With a previous snapshot retrieved whose records carry a status,
    and a ticket id when they are completed, the diff returns the completed
    tickets whose ticket id was not that of a completed record of the
    previous snapshot, in their order, and changes nothing. *)
Theorem diff_keeps_newly_completed completed_tickets st previous name :
  get_most_recent_modified_file DictReader "data_tickets" (s3 st)
  = Ok (previous, name) ->
  Forall (fun r => is_Some (r !! notion_page_status notion_args)) previous ->
  Forall (fun r => completed notion_args r ->
                   is_Some (ticket_id_of notion_args r)) previous ->
  Forall (fun c => is_Some (ticket_id_of notion_args c)) completed_tickets ->
  __filter_records_marked_completed_not_notified notion_args DictReader
    completed_tickets st
  = (Ok (filter (fun c => ~ previously_completed notion_args previous c)
                completed_tickets), st).
Proof. apply filter_records_previous_present. Qed.

(** X10. When the previous snapshot retrieved has no rows, as when the
    placeholder is the most recent object under the prefix, the diff returns
    every completed ticket: this is how a cold start takes place. *)
Theorem diff_of_empty_snapshot completed_tickets st name :
  get_most_recent_modified_file DictReader "data_tickets" (s3 st)
  = Ok ([], name) ->
  Forall (fun c => is_Some (ticket_id_of notion_args c)) completed_tickets ->
  __filter_records_marked_completed_not_notified notion_args DictReader
    completed_tickets st
  = (Ok completed_tickets, st).
Proof.
  intros Hget Hids.
  rewrite (filter_records_previous_present notion_args DictReader
             completed_tickets st [] name Hget);
    [|constructor|constructor|exact Hids].
  f_equal. f_equal. clear Hids.
  induction completed_tickets as [|c l IH]; [reflexivity|].
  rewrite filter_cons. rewrite decide_True.
  - rewrite IH. reflexivity.
  - intros (tid & _ & Hex). inversion Hex.
Qed.

(** X11. When the pull returns and one of its records has no status, the
    computation of the candidates raises [KeyError] for the status field;
    the bucket, the notifier and the outbox are as before. *)
Theorem get_completed_tickets_missing_status st current :
  notion_meta (pulls st) = Ok current ->
  Exists (fun r => r !! notion_page_status notion_args = None) current ->
  exists st',
    get_completed_tickets notion_args clock notion_meta DictReader st
    = (Raise (KeyError (notion_page_status notion_args)), st')
    /\ only_reads st st'.
Proof.
  intros Hpull Hex.
  assert (Hcomp :
    list_comp
      (fun dct =>
         v ← dict_get dct (notion_page_status notion_args);
         Ok (in_list v (notion_page_completion_labels notion_args)))
      Ok current
    = Raise (KeyError (notion_page_status notion_args))).
  { apply list_comp_raises.
    - apply Forall_forall. intros r _. unfold dict_get. munfold.
      destruct (r !! notion_page_status notion_args) as [v|]; simpl.
      + right. eexists. split; [reflexivity|]. intros _. eauto.
      + left. reflexivity.
    - eapply Exists_impl; [exact Hex|]. intros r Hr. simpl in Hr.
      unfold dict_get. munfold. rewrite Hr. reflexivity. }
  unfold get_completed_tickets. munfold.
  unfold bindM, datetime_now, generate_meta_file, lift. simpl.
  rewrite Hpull. munfold. rewrite Hcomp.
  eexists. split; [reflexivity|]. unfold only_reads. simpl.
  repeat split; lia.
Qed.

End DiffFacts.

(** ** The sends of the notifier *)

Section SendFacts.

Variable notion_args : NotionSourceConfig.
Variable slack_channel : string.
Variable clock : nat -> datetime.
Variable chat_postMessage : nat -> bool.
Variable strptime : string -> string -> option datetime.

Local Abbreviation notification_record :=
  (Job.notification_record notion_args slack_channel clock chat_postMessage
                           strptime).
Local Abbreviation send_notifications :=
  (Job.send_notifications notion_args slack_channel clock chat_postMessage
                          strptime).

(** X12. The sends of one candidate.  When the send to the owner raises,
    the send to the team is not attempted and nothing is delivered.  When
    the send to the owner delivers and the send to the team raises, the
    owner has the message and the entry still says [failed].  When both
    deliver, the owner and then the team channel have a message and the
    entry says [success]. *)
Theorem notification_record_sends c st :
  renderable notion_args strptime c ->
  exists entry st',
    notification_record c st = (Ok entry, st')
    /\ entry !! "notification_status"
       = Some (status_of_sends chat_postMessage (posts st))
    /\ posts st' = (if chat_postMessage (posts st)
                    then S (S (posts st)) else S (posts st))
    /\ map fst (outbox st')
       = map fst (outbox st)
         ++ (if chat_postMessage (posts st)
             then default EmptyString (c !! notion_page_slack_id notion_args)
                  :: (if chat_postMessage (S (posts st))
                      then [slack_channel] else [])
             else []).
Proof.
  intros ([ti Hti] & (v & d & Hv & Hd) & [du Hdu] & [u Hu] & [sl Hsl] & [tid Htid]).
  unfold Job.notification_record, status_of_sends.
  munfold. unfold bindM, try_except, lift, dict_get, datetime_now, post_message.
  unfold ticket_id_of in *.
  rewrite Hti, Hv, Hd, Hdu, Hu, Hsl. simpl.
  destruct (chat_postMessage (posts st)) eqn:E1; simpl.
  - destruct (chat_postMessage (S (posts st))) eqn:E2; simpl;
      rewrite Htid; simpl; eexists; eexists; (split; [reflexivity|]); simpl;
      (split; [reflexivity|]); (split; [reflexivity|]);
      rewrite ?map_app, <- ?app_assoc; reflexivity.
  - rewrite Htid. simpl. eexists. eexists. split; [reflexivity|]. simpl.
    split; [reflexivity|]. split; [reflexivity|]. rewrite app_nil_r.
    reflexivity.
Qed.

Lemma send_notifications_app l1 l2 st :
  send_notifications (l1 ++ l2) st
  = match send_notifications l1 st with
    | (Ok r1, st1) =>
        match send_notifications l2 st1 with
        | (Ok r2, st2) => (Ok (r1 ++ r2), st2)
        | (Raise e, st2) => (Raise e, st2)
        end
    | (Raise e, st1) => (Raise e, st1)
    end.
Proof.
  revert st. induction l1 as [|c l1 IH]; intros st.
  - simpl. change (send_notifications [] st) with (Ok (@nil record), st).
    destruct (send_notifications l2 st) as [[r2|e] st2]; reflexivity.
  - rewrite <- app_comm_cons.
    rewrite (send_notifications_cons notion_args slack_channel clock
               chat_postMessage strptime c (l1 ++ l2)).
    rewrite (send_notifications_cons notion_args slack_channel clock
               chat_postMessage strptime c l1).
    destruct (notification_record c st) as [[r|e] st1]; [|reflexivity].
    rewrite IH.
    destruct (send_notifications l1 st1) as [[r1|e] st2]; [|reflexivity].
    destruct (send_notifications l2 st2) as [[r2|e] st3]; reflexivity.
Qed.

(** X13. A candidate that lacks the title stops the loop with a [KeyError]
    for the title: the candidates before it have had their sends, in the
    state these left, and neither their entries nor those of the candidates
    after it are returned. *)
Theorem send_notifications_stops_at_missing_title before c after st :
  Forall (renderable notion_args strptime) before ->
  c !! notion_page_title notion_args = None ->
  send_notifications (before ++ c :: after) st
  = (Raise (KeyError (notion_page_title notion_args)),
     (send_notifications before st).2)
  /\ posts st + length before <= posts (send_notifications before st).2.
Proof.
  intros Hr Hc.
  destruct (send_notifications_renderable notion_args slack_channel clock
              chat_postMessage strptime before st Hr)
    as (log & st1 & Hsend & _ & _ & _ & _ & _ & Hposts & _).
  rewrite send_notifications_app, Hsend. simpl. split; [|exact Hposts].
  rewrite (send_notifications_cons notion_args slack_channel clock
             chat_postMessage strptime c after).
  unfold Job.notification_record. munfold. unfold bindM, lift, dict_get.
  rewrite Hc. reflexivity.
Qed.

(** X14. When every send delivers, the notifier delivers, for each
    candidate in turn, a message to its owner and then one to the team
    channel, and every entry says [success]. *)
Theorem send_notifications_all_delivered meta_data st :
  (forall n, chat_postMessage n = true) ->
  Forall (renderable notion_args strptime) meta_data ->
  exists log st',
    send_notifications meta_data st = (Ok log, st')
    /\ Forall (fun e => e !! "notification_status" = Some "success") log
    /\ map fst (outbox st')
       = map fst (outbox st)
         ++ flat_map
              (fun c =>
                 [default EmptyString (c !! notion_page_slack_id notion_args);
                  slack_channel])
              meta_data.
Proof.
  intros Hchat H. revert st. induction H as [|c l Hc _ IH]; intros st.
  - exists [], st. split; [reflexivity|]. split; [constructor|].
    simpl. rewrite app_nil_r. reflexivity.
  - destruct (notification_record_sends c st Hc)
      as (entry & st1 & Hrec & Hstatus & _ & Hout).
    destruct (IH st1) as (log & st2 & Hsend & Hall & Hout2).
    exists (entry :: log), st2.
    rewrite (send_notifications_cons notion_args slack_channel clock
               chat_postMessage strptime c l), Hrec, Hsend.
    split; [reflexivity|]. split.
    + constructor; [|exact Hall]. rewrite Hstatus. unfold status_of_sends.
      rewrite !Hchat. reflexivity.
    + rewrite Hout2, Hout, !Hchat. simpl. rewrite <- app_assoc. reflexivity.
Qed.

End SendFacts.

(** ** The job over many ticks *)

Section Ticks.

Variable notion_args : NotionSourceConfig.
Variable slack_channel : string.
Variable notifications_log_prefix : string.
Variable metafile_prefix : string.
Variable clock : nat -> datetime.
Variable chat_postMessage : nat -> bool.
Variable notion_meta : nat -> result (list record).
Variable strptime : string -> string -> option datetime.
Variable DictReader : list record -> list record.

Local Abbreviation get_completed_tickets :=
  (Job.get_completed_tickets notion_args clock notion_meta DictReader).
Local Abbreviation notify :=
  (Job.notify notion_args slack_channel clock chat_postMessage notion_meta
              strptime DictReader).
Local Abbreviation background_jobs :=
  (Job.background_jobs notion_args slack_channel notifications_log_prefix
                       metafile_prefix clock chat_postMessage notion_meta
                       strptime DictReader).
Local Abbreviation tick :=
  (Job.tick notion_args slack_channel notifications_log_prefix
            metafile_prefix clock chat_postMessage notion_meta strptime
            DictReader).
Local Abbreviation ticks :=
  (Job.ticks notion_args slack_channel notifications_log_prefix
             metafile_prefix clock chat_postMessage notion_meta strptime
             DictReader).

(** Without an object under the prefix of the snapshots, the candidates
    cannot be computed. *)
Lemma get_completed_tickets_no_snapshot st :
  objects_filter "data_tickets" (s3 st) = [] ->
  exists e st',
    get_completed_tickets st = (Raise e, st')
    /\ s3 st' = s3 st /\ outbox st' = outbox st.
Proof.
  intros Hnone.
  assert (Hfetch : forall st0, s3 st0 = s3 st ->
            get_most_recent_modified_file DictReader "data_tickets" (s3 st0)
            = Raise IndexError).
  { intros st0 ->. unfold get_most_recent_modified_file. rewrite Hnone.
    reflexivity. }
  unfold Job.get_completed_tickets. munfold.
  unfold bindM at 1. unfold datetime_now at 1.
  unfold bindM at 1. unfold generate_meta_file at 1.
  destruct (notion_meta _) as [current|e]; [|eauto].
  unfold bindM at 1. unfold lift at 1.
  match goal with
  | |- context [list_comp ?c ?o current] =>
      destruct (list_comp c o current) as [completed|e]
  end; [|eauto].
  unfold bindM at 1.
  rewrite (filter_records_previous_absent notion_args DictReader completed _
             IndexError) by (apply Hfetch; reflexivity).
  eauto.
Qed.

(** X16. A bucket without an object under the prefix [data_tickets], not
    even its placeholder, never gets one: every tick raises before a
    message is sent or a file is written, whatever the workspace database
    returns, so the bucket and the outbox stay as they are. *)
Theorem empty_prefix_never_starts st n :
  objects_filter "data_tickets" (s3 st) = [] ->
  s3 (ticks n st) = s3 st /\ outbox (ticks n st) = outbox st.
Proof.
  revert st. induction n as [|n IH]; intros st Hnone; simpl; [auto|].
  assert (Htick : s3 (tick st) = s3 st /\ outbox (tick st) = outbox st).
  { destruct (get_completed_tickets_no_snapshot (set_notif_log None st) Hnone)
      as (e & st' & Hget & Hs & Ho).
    assert (Hjob : background_jobs st = (Raise e, st')).
    { unfold Job.background_jobs. munfold.
      unfold bindM at 1. unfold modify at 1.
      unfold bindM at 1. unfold Job.notify at 1. munfold. unfold bindM at 1.
      rewrite Hget. reflexivity. }
    unfold Job.tick. rewrite Hjob. simpl. split; assumption. }
  destruct Htick as [Hs Ho].
  destruct (IH (tick st)) as [Hs' Ho']; [rewrite Hs; exact Hnone|].
  split; congruence.
Qed.

End Ticks.

(** ** A deployment without a log *)

Lemma no_log_fetch_raises DictReader (b : list s3_object) :
  no_log b ->
  get_most_recent_modified_file DictReader "notifications" b
  = Raise IndexError.
Proof.
  intros Hno.
  assert (Hnone : objects_filter "notifications" b = []).
  { destruct (objects_filter "notifications" b) as [|o l] eqn:E;
      [reflexivity|].
    assert (Ho : o ∈ objects_filter "notifications" b) by (rewrite E; left).
    apply elem_of_objects_filter in Ho as [Ho Hp].
    exfalso. apply (Hno o Ho). exact Hp. }
  unfold get_most_recent_modified_file. rewrite Hnone. reflexivity.
Qed.

Lemma keeps_no_log_refl st : keeps_no_log st st.
Proof. intros H. exact H. Qed.

Lemma keeps_no_log_trans st1 st2 st3 :
  keeps_no_log st1 st2 -> keeps_no_log st2 st3 -> keeps_no_log st1 st3.
Proof. unfold keeps_no_log. auto. Qed.

Lemma same_bucket_keeps_no_log st st' :
  same_bucket st st' -> keeps_no_log st st'.
Proof. intros [Hs _] H. rewrite Hs. exact H. Qed.

Section WithoutLog.

Variable notion_args : NotionSourceConfig.
Variable slack_channel : string.
Variable notifications_log_prefix : string.
Variable clock : nat -> datetime.
Variable chat_postMessage : nat -> bool.
Variable notion_meta : nat -> result (list record).
Variable strptime : string -> string -> option datetime.
Variable DictReader : list record -> list record.

Local Abbreviation get_completed_tickets :=
  (Job.get_completed_tickets notion_args clock notion_meta DictReader).
Local Abbreviation send_notifications :=
  (Job.send_notifications notion_args slack_channel clock chat_postMessage
                          strptime).
Local Abbreviation notify :=
  (Job.notify notion_args slack_channel clock chat_postMessage notion_meta
              strptime DictReader).
Local Abbreviation background_jobs :=
  (Job.background_jobs notion_args slack_channel notifications_log_prefix
                       "data_tickets" clock chat_postMessage notion_meta
                       strptime DictReader).
Local Abbreviation tick :=
  (Job.tick notion_args slack_channel notifications_log_prefix
            "data_tickets" clock chat_postMessage notion_meta strptime
            DictReader).
Local Abbreviation ticks :=
  (Job.ticks notion_args slack_channel notifications_log_prefix
             "data_tickets" clock chat_postMessage notion_meta strptime
             DictReader).

(** Without a log in the bucket, a notifier just built writes none. *)
Lemma notify_without_log st r st' :
  no_log (s3 st) -> notif_log st = None ->
  notify st = (r, st') -> s3 st' = s3 st.
Proof.
  intros Hno Hnone H. unfold Job.notify in H. munfold.
  apply bindM_inv in H as [(contacts & st1 & Hget & H) | (e & Hget & _)].
  2: { eapply get_completed_tickets_same_bucket. exact Hget. }
  pose proof (get_completed_tickets_same_bucket notion_args clock notion_meta
                DictReader _ _ _ Hget) as [Hs1 _].
  destruct contacts as [|c cs]; [inversion H; subst; exact Hs1|].
  destruct (get_completed_tickets_Ok_inv _ _ _ _ _ _ _ Hget)
    as (current & filtered & st0 & _ & _ & _ & Hro & Hcheck).
  destruct Hro as (Hs0 & Hn0 & _).
  rewrite (check_notifications_log_absent notion_args DictReader filtered st0
             IndexError) in Hcheck
    by (apply no_log_fetch_raises; rewrite Hs0; exact Hno).
  assert (Hst : st0 = st1) by congruence. subst st1.
  apply bindM_inv in H as [(new & st2 & Hsend & H) | (e & Hsend & _)].
  - destruct (send_notifications_keeps_notifier notion_args slack_channel
                clock chat_postMessage strptime _ _ _ _ Hsend)
      as (Hs2 & Hn2 & _).
    rewrite (log_notifications_unassigned clock "notifications" new st2) in H
      by congruence.
    inversion H. subst. simpl. congruence.
  - destruct (send_notifications_keeps_notifier notion_args slack_channel
                clock chat_postMessage strptime _ _ _ _ Hsend)
      as (Hs2 & _).
    congruence.
Qed.

Lemma delete_meta_files_keeps_no_log prefix date_threshold :
  preserves keeps_no_log (delete_meta_files strptime prefix date_threshold).
Proof.
  intros st r st' H. apply delete_meta_files_inv in H as (files & _ & ->).
  intros Hno o Ho. simpl in Ho. apply elem_of_prune in Ho as [Ho _].
  apply (Hno o Ho).
Qed.

Lemma load_meta_file_keeps_no_log meta_file :
  preserves keeps_no_log (load_meta_file clock meta_file "data_tickets").
Proof.
  intros st r st' H. unfold load_meta_file in H. munfold.
  unfold bindM at 1 in H. unfold datetime_now at 1 in H.
  assert (Hw : exists x, write_to_s3 clock
                 ((fun file => <["uploaded_at" :=
                      strftime DateTimeFormats.datetime_format
                               (clock (reads st))]> file) <$> meta_file)
                 ("data_tickets" +:+ "/"
                  +:+ strftime DateTimeFormats.date_file_name_format
                               (clock (reads st)) +:+ ".csv")
                 (set_reads (S (reads st)) st) = (x, st')).
  { apply bindM_inv in H as [(x & st1 & Hw & H) | (e & Hw & _)].
    - inversion H. subst. eauto.
    - eauto. }
  destruct Hw as (x & Hw).
  apply write_to_s3_inv in Hw as [->|(rows & ->)]; intros Hno o Ho.
  - apply (Hno o Ho).
  - simpl in Ho. apply elem_of_put in Ho as [->|[Ho _]].
    + unfold is_log. simpl. discriminate.
    + apply (Hno o Ho).
Qed.

Lemma background_jobs_keeps_no_log st r st' :
  background_jobs st = (r, st') -> keeps_no_log st st'.
Proof.
  unfold Job.background_jobs. munfold. intros H Hno.
  apply bindM_inv in H as [(x & st1 & H1 & H) | (e & H1 & _)];
    [|inversion H1].
  inversion H1. subst x st1. clear H1.
  apply bindM_inv in H as [(x & st2 & H2 & H) | (e & H2 & _)].
  2: { rewrite (notify_without_log (set_notif_log None st) _ _ Hno eq_refl H2).
       exact Hno. }
  assert (Hno2 : no_log (s3 st2)).
  { rewrite (notify_without_log (set_notif_log None st) _ _ Hno eq_refl H2).
    exact Hno. }
  revert Hno2. change (keeps_no_log st2 st').
  revert H. generalize st2 r st'. change (preserves keeps_no_log
    (bindM (datetime_now clock) (fun today =>
       bindM (delete_meta_files strptime notifications_log_prefix
                (strftime DateTimeFormats.datetime_format
                          (minus_one_day (date today))))
         (fun _ => bindM (generate_meta_file notion_meta) (fun metafile =>
            bindM (load_meta_file clock metafile "data_tickets") (fun _ =>
              delete_meta_files strptime "data_tickets"
                (strftime DateTimeFormats.datetime_format
                          (minus_one_day (date today))))))))).
  repeat first
    [ apply delete_meta_files_keeps_no_log
    | apply load_meta_file_keeps_no_log
    | apply (preserves_weaken same_bucket keeps_no_log _
               same_bucket_keeps_no_log),
        preserves_only_reads_same_bucket, datetime_now_only_reads
    | apply (preserves_weaken same_bucket keeps_no_log _
               same_bucket_keeps_no_log),
        preserves_only_reads_same_bucket, generate_meta_file_only_reads
    | apply (preserves_bind keeps_no_log keeps_no_log_trans)
    | progress intros ].
Qed.

(** X17. A deployment whose bucket has no object under the prefix
    [notifications], not even its placeholder, never gets a log: the log
    writer of every tick with candidates raises before its write, and the
    rest of the job writes under the prefix of the snapshots only.  So
    after any number of ticks the fetch of a log still raises, and the
    dedup filter still lets every candidate through. *)
Theorem no_log_is_ever_written st n :
  no_log (s3 st) ->
  no_log (s3 (ticks n st))
  /\ get_most_recent_modified_file DictReader "notifications" (s3 (ticks n st))
     = Raise IndexError.
Proof.
  intros Hno.
  assert (H : no_log (s3 (ticks n st))).
  { revert st Hno. induction n as [|n IH]; intros st Hno; simpl; [exact Hno|].
    apply IH. unfold Job.tick.
    destruct (background_jobs st) as [r st'] eqn:E. simpl.
    apply (background_jobs_keeps_no_log _ _ _ E Hno). }
  split; [exact H|]. apply no_log_fetch_raises. exact H.
Qed.

End WithoutLog.

(** ** Who gets the messages of a tick *)

Lemma same_outbox_refl st : same_outbox st st.
Proof. reflexivity. Qed.

Lemma same_outbox_trans st1 st2 st3 :
  same_outbox st1 st2 -> same_outbox st2 st3 -> same_outbox st1 st3.
Proof. unfold same_outbox. congruence. Qed.

Lemma only_reads_same_outbox st st' : only_reads st st' -> same_outbox st st'.
Proof. intros (_ & _ & H & _). exact H. Qed.

Lemma preserves_only_reads_same_outbox {A} (m : M A) :
  preserves only_reads m -> preserves same_outbox m.
Proof. apply preserves_weaken. apply only_reads_same_outbox. Qed.

Lemma modify_same_outbox (f : state -> state) :
  (forall st, outbox (f st) = outbox st) -> preserves same_outbox (modify f).
Proof. intros Hf st r st' H. inversion H. apply Hf. Qed.

Lemma for_each_same_outbox {A} (l : list A) (body : A -> M unit) :
  (forall x, preserves same_outbox (body x)) ->
  preserves same_outbox (for_each l body).
Proof.
  intros Hb. induction l as [|x l IH]; simpl.
  - intros st r st' H. inversion H. reflexivity.
  - intros st r st' H.
    apply bindM_inv in H as [(u & st1 & H1 & H2) | (e & H1 & _)].
    + eapply same_outbox_trans; [eapply Hb; exact H1|eapply IH; exact H2].
    + eapply Hb. exact H1.
Qed.

Section Messages.

Variable notion_args : NotionSourceConfig.
Variable slack_channel : string.
Variable notifications_log_prefix : string.
Variable metafile_prefix : string.
Variable clock : nat -> datetime.
Variable chat_postMessage : nat -> bool.
Variable notion_meta : nat -> result (list record).
Variable strptime : string -> string -> option datetime.
Variable DictReader : list record -> list record.

Local Abbreviation notification_record :=
  (Job.notification_record notion_args slack_channel clock chat_postMessage
                           strptime).
Local Abbreviation send_notifications :=
  (Job.send_notifications notion_args slack_channel clock chat_postMessage
                          strptime).
Local Abbreviation get_completed_tickets :=
  (Job.get_completed_tickets notion_args clock notion_meta DictReader).
Local Abbreviation notify :=
  (Job.notify notion_args slack_channel clock chat_postMessage notion_meta
              strptime DictReader).
Local Abbreviation background_jobs :=
  (Job.background_jobs notion_args slack_channel notifications_log_prefix
                       metafile_prefix clock chat_postMessage notion_meta
                       strptime DictReader).
Local Abbreviation tick :=
  (Job.tick notion_args slack_channel notifications_log_prefix
            metafile_prefix clock chat_postMessage notion_meta strptime
            DictReader).

Hint Resolve same_outbox_refl same_outbox_trans : frames.
Hint Resolve preserves_only_reads_same_outbox : frames.
Hint Resolve datetime_now_only_reads generate_meta_file_only_reads
  get_notif_log_only_reads filter_records_only_reads : frames.

Lemma write_to_s3_same_outbox data file_name :
  preserves same_outbox (write_to_s3 clock data file_name).
Proof.
  intros st r st' H.
  apply write_to_s3_inv in H as [->|(rows & ->)]; reflexivity.
Qed.

Lemma delete_meta_files_same_outbox prefix date_threshold :
  preserves same_outbox (delete_meta_files strptime prefix date_threshold).
Proof.
  intros st r st' H. apply delete_meta_files_inv in H as (files & _ & ->).
  reflexivity.
Qed.

Hint Resolve write_to_s3_same_outbox delete_meta_files_same_outbox : frames.

Lemma load_meta_file_same_outbox meta_file prefix :
  preserves same_outbox (load_meta_file clock meta_file prefix).
Proof. unfold load_meta_file. frame. Qed.

Lemma log_notifications_same_outbox prefix data :
  preserves same_outbox (log_notifications clock prefix data).
Proof. unfold log_notifications. frame. Qed.

Lemma check_notifications_log_same_outbox ticket_data :
  preserves same_outbox
    (__check_notifications_log notion_args DictReader ticket_data).
Proof.
  unfold __check_notifications_log.
  assert (Hm : forall l, preserves same_outbox (modify (set_notif_log l)))
    by (intros l; apply modify_same_outbox; reflexivity).
  frame.
Qed.

Hint Resolve load_meta_file_same_outbox log_notifications_same_outbox
  check_notifications_log_same_outbox : frames.

Lemma get_completed_tickets_same_outbox :
  preserves same_outbox get_completed_tickets.
Proof. unfold Job.get_completed_tickets. frame. Qed.

(** The messages of one candidate go to its chat-user id and to the team
    channel, in this order. *)
Lemma notification_record_destinations c st r st' :
  notification_record c st = (r, st') ->
  exists d,
    map fst (outbox st') = map fst (outbox st) ++ d
    /\ sublist d (destinations notion_args slack_channel c).
Proof.
  assert (Hnil : forall r0 st0,
            (r0, st0) = (r, st') -> outbox st0 = outbox st ->
            exists d,
              map fst (outbox st') = map fst (outbox st) ++ d
              /\ sublist d (destinations notion_args slack_channel c)).
  { intros r0 st0 H Ho. inversion H. subst. exists [].
    rewrite app_nil_r, Ho. split; [reflexivity|apply sublist_nil_l]. }
  unfold Job.notification_record. munfold.
  unfold bindM, lift, dict_get, raise, ret.
  destruct (c !! notion_page_title notion_args) as [ti|];
    [|intros H; apply (Hnil _ _ H); reflexivity].
  destruct (c !! notion_page_created_at notion_args) as [v|];
    [|intros H; apply (Hnil _ _ H); reflexivity].
  destruct (strptime v DateTimeFormats.datetime_format) as [dt|];
    [|intros H; apply (Hnil _ _ H); reflexivity].
  destruct (c !! notion_page_due_date notion_args) as [du|];
    [|intros H; apply (Hnil _ _ H); reflexivity].
  destruct (c !! notion_page_page_url notion_args) as [u|];
    [|intros H; apply (Hnil _ _ H); reflexivity].
  destruct (c !! notion_page_slack_id notion_args) as [sl|] eqn:Esl;
    [|intros H; apply (Hnil _ _ H); reflexivity].
  clear Hnil. unfold destinations. rewrite Esl.
  unfold try_except, datetime_now, post_message. simpl.
  destruct (chat_postMessage (posts st)); simpl.
  - destruct (chat_postMessage (S (posts st))); simpl;
      destruct (c !! notion_page_ticket_id notion_args); simpl;
      intros H; inversion H; subst; simpl.
    + exists [sl; slack_channel]. rewrite !map_app, <- app_assoc.
      split; reflexivity.
    + exists [sl; slack_channel]. rewrite !map_app, <- app_assoc.
      split; reflexivity.
    + exists [sl]. rewrite map_app. split; [reflexivity|].
      apply sublist_skip, sublist_nil_l.
    + exists [sl]. rewrite map_app. split; [reflexivity|].
      apply sublist_skip, sublist_nil_l.
  - destruct (c !! notion_page_ticket_id notion_args); simpl;
      intros H; inversion H; subst; simpl; exists []; rewrite app_nil_r;
      (split; [reflexivity|apply sublist_nil_l]).
Qed.

Lemma send_notifications_destinations contacts st r st' :
  send_notifications contacts st = (r, st') ->
  exists d,
    map fst (outbox st') = map fst (outbox st) ++ d
    /\ sublist d (flat_map (destinations notion_args slack_channel) contacts).
Proof.
  revert st r st'. induction contacts as [|c l IH]; intros st r st' H.
  - inversion H. subst. exists []. rewrite app_nil_r.
    split; [reflexivity|constructor].
  - rewrite send_notifications_cons in H.
    destruct (notification_record c st) as [[e|x] st1] eqn:E.
    + destruct (notification_record_destinations _ _ _ _ E) as (d1 & Hd1 & Hs1).
      destruct (Job.send_notifications notion_args slack_channel clock
                  chat_postMessage strptime l st1) as [r2 st2] eqn:E2.
      destruct (IH _ _ _ E2) as (d2 & Hd2 & Hs2).
      assert (Hst : st2 = st') by (destruct r2; inversion H; reflexivity).
      subst st2. exists (d1 ++ d2). rewrite Hd2, Hd1, <- app_assoc.
      split; [reflexivity|].
      change (flat_map (destinations notion_args slack_channel) (c :: l))
        with (destinations notion_args slack_channel c
              ++ flat_map (destinations notion_args slack_channel) l).
      apply sublist_app; assumption.
    + destruct (notification_record_destinations _ _ _ _ E) as (d1 & Hd1 & Hs1).
      inversion H. subst. exists d1. split; [exact Hd1|].
      change (flat_map (destinations notion_args slack_channel) (c :: l))
        with (destinations notion_args slack_channel c
              ++ flat_map (destinations notion_args slack_channel) l).
      apply sublist_inserts_r. exact Hs1.
Qed.

(** X18. The messages that a tick delivers go to the chat-user ids of its
    candidates and to the team channel, in the order of the candidates:
    the destinations added to the outbox are taken, in order, from those
    of the candidates; nothing else in the job sends a message. *)
Theorem tick_messages_go_to_candidates st :
  exists d,
    map fst (outbox (tick st)) = map fst (outbox st) ++ d
    /\ sublist d
         (flat_map (destinations notion_args slack_channel)
                   (tick_contacts notion_args clock notion_meta DictReader st)).
Proof.
  assert (Hnotify : forall r st',
            notify (set_notif_log None st) = (r, st') ->
            exists d,
              map fst (outbox st') = map fst (outbox st) ++ d
              /\ sublist d
                   (flat_map (destinations notion_args slack_channel)
                      (tick_contacts notion_args clock notion_meta DictReader
                                     st))).
  { intros r st' H. unfold tick_contacts. unfold Job.notify in H. munfold.
    apply bindM_inv in H as [(contacts & st1 & Hget & H) | (e & Hget & _)].
    - pose proof (get_completed_tickets_same_outbox _ _ _ Hget) as Ho1.
      unfold same_outbox in Ho1. simpl in Ho1. rewrite Hget.
      destruct contacts as [|c cs].
      + inversion H. subst. exists []. rewrite app_nil_r, Ho1.
        split; [reflexivity|constructor].
      + apply bindM_inv in H as [(new & st2 & Hsend & H) | (e & Hsend & _)].
        * destruct (send_notifications_destinations _ _ _ _ Hsend)
            as (d & Hd & Hsub).
          apply log_notifications_same_outbox in H. unfold same_outbox in H.
          exists d. rewrite H, Hd, Ho1. split; [reflexivity|exact Hsub].
        * destruct (send_notifications_destinations _ _ _ _ Hsend)
            as (d & Hd & Hsub).
          exists d. rewrite Hd, Ho1. split; [reflexivity|exact Hsub].
    - pose proof (get_completed_tickets_same_outbox _ _ _ Hget) as Ho1.
      unfold same_outbox in Ho1. simpl in Ho1. exists [].
      rewrite app_nil_r, Ho1. split; [reflexivity|apply sublist_nil_l]. }
  unfold Job.tick. destruct (background_jobs st) as [r st'] eqn:E. simpl.
  unfold Job.background_jobs in E. munfold.
  apply bindM_inv in E as [(x & st1 & H1 & E) | (e & H1 & _)];
    [|inversion H1].
  inversion H1. subst x st1. clear H1.
  apply bindM_inv in E as [(x & st2 & H2 & E) | (e & H2 & _)].
  2: { apply (Hnotify _ _ H2). }
  destruct (Hnotify _ _ H2) as (d & Hd & Hsub).
  assert (Hrest : same_outbox st2 st').
  { revert E. generalize st2 r st'. change (preserves same_outbox
      (bindM (datetime_now clock) (fun today =>
         bindM (delete_meta_files strptime notifications_log_prefix
                  (strftime DateTimeFormats.datetime_format
                            (minus_one_day (date today))))
           (fun _ => bindM (generate_meta_file notion_meta) (fun metafile =>
              bindM (load_meta_file clock metafile metafile_prefix) (fun _ =>
                delete_meta_files strptime metafile_prefix
                  (strftime DateTimeFormats.datetime_format
                            (minus_one_day (date today))))))))).
    frame. }
  exists d. unfold same_outbox in Hrest. rewrite Hrest.
  split; [exact Hd|exact Hsub].
Qed.

End Messages.

(** ** The further properties at concrete inputs *)

Module Examples.

Import Demo.

Ltac decided := apply (bool_decide_unpack _); vm_compute; exact I.

Ltac renderable_tickets :=
  repeat (apply List.Forall_cons; [apply Witness.ticket_renderable|]);
  apply List.Forall_nil.

(** A bucket with a snapshot in which ticket 1 was completed and ticket 2
    was open. *)
Lemma get_most_recent_is_newest_witness :
  exists o,
    o ∈ logged /\ String.prefix "notifications" (key o) = true
    /\ DictReader (body o)
       = [entry "7" "success" "2024-03-01 12:00:00";
          entry "2" "failed" "2024-03-01 12:00:00"]
    /\ key o = "notifications/20240301_1200.csv"
    /\ forall o', o' ∈ logged -> String.prefix "notifications" (key o') = true ->
                  Datetime.ltb (last_modified o) (last_modified o') = false.
Proof.
  apply (get_most_recent_is_newest DictReader "notifications" logged).
  - decided.
  - vm_compute. reflexivity.
Defined.

Lemma write_to_s3_reads_back_witness :
  let first : record := {[ "id" := "1"; "status" := "Done" ]} in
  let second : record := {[ "id" := "2" ]} in
  let file := "data_tickets/20240307_0905.csv" in
  exists rows st',
    write_to_s3 clock [first; second] file (initial []) = (Ok (Some true), st')
    /\ Bucket.get file (s3 st') = Some (mk_object file (clock 0) rows)
    /\ read_csv DictReader file (s3 st') = Ok (DictReader rows)
    /\ Forall2 (fun row row' =>
                  forall f, row' !! f
                            = if decide (f ∈ dom first)
                              then Some (default EmptyString (row !! f))
                              else None)
               [first; second] rows
    /\ (Forall (fun row => dom row = dom first) [second] ->
        rows = [first; second])
    /\ (forall k, k <> file ->
          read_csv DictReader k (s3 st') = read_csv DictReader k (s3 (initial []))).
Proof.
  intros first second file.
  apply (write_to_s3_reads_back clock DictReader first [second] file
           (initial [])).
  repeat constructor. decided.
Defined.

Lemma write_to_s3_extra_field_witness :
  write_to_s3 clock [{[ "id" := "1" ]}; {[ "id" := "2"; "status" := "Done" ]}]
              "data_tickets/20240307_0905.csv" (initial [])
  = (Raise ValueError, initial []).
Proof.
  apply (write_to_s3_extra_field clock {[ "id" := "1" ]}
           [{[ "id" := "2"; "status" := "Done" ]}]).
  left. decided.
Defined.

Lemma written_file_is_most_recent_witness :
  get_most_recent_modified_file DictReader "data_tickets"
    (s3 (write_to_s3 clock [{[ "id" := "1"; "status" := "Done" ]}]
                     "data_tickets/20240307_0905.csv"
                     (initial placeholders)).2)
  = Ok (DictReader [{[ "id" := "1"; "status" := "Done" ]}],
        "data_tickets/20240307_0905.csv").
Proof.
  apply (written_file_is_most_recent clock DictReader "data_tickets"
           {[ "id" := "1"; "status" := "Done" ]} []
           "data_tickets/20240307_0905.csv" (initial placeholders)).
  - decided.
  - intros o Ho. repeat (apply elem_of_cons in Ho as [->|Ho]);
      [reflexivity|reflexivity|inversion Ho].
  - reflexivity.
  - constructor.
Defined.

(** The bucket of the pruning that keeps its old file. *)
Lemma delete_meta_files_deletes_nothing_witness :
  let b := [mk_object "data_tickets/" old [];
            mk_object "data_tickets/20240301_1200.csv" old []] in
  s3 (delete_meta_files strptime "data_tickets" "2024-03-05 00:00:00"
                        (initial b)).2
  = b.
Proof.
  intros b.
  apply (delete_meta_files_deletes_nothing strptime "data_tickets"
           "2024-03-05 00:00:00" (initial b)).
  intros o o' Ho Ho'.
  repeat (apply elem_of_cons in Ho as [->|Ho]); [| |inversion Ho];
    (repeat (apply elem_of_cons in Ho' as [->|Ho']); [| |inversion Ho']);
    discriminate.
Defined.

(** Ticket 1 was completed in the previous snapshot, ticket 2 was open. *)
Lemma diff_keeps_newly_completed_witness :
  let previous := [ticket "1" "Done"; ticket "2" "Open"] in
  let st := initial [mk_object "data_tickets/20240301_1200.csv" old previous] in
  let completed_tickets := [ticket "1" "Done"; ticket "2" "Done"] in
  __filter_records_marked_completed_not_notified notion_args DictReader
    completed_tickets st
  = (Ok (filter (fun c => ~ previously_completed notion_args previous c)
                completed_tickets), st)
  /\ filter (fun c => ~ previously_completed notion_args previous c)
            completed_tickets
     = [ticket "2" "Done"].
Proof.
  intros previous st completed_tickets. split.
  - apply (diff_keeps_newly_completed notion_args DictReader completed_tickets
             st previous "data_tickets/20240301_1200.csv").
    + vm_compute. reflexivity.
    + repeat constructor; eexists; vm_compute; reflexivity.
    + repeat constructor; intros _; eexists; vm_compute; reflexivity.
    + repeat constructor; eexists; vm_compute; reflexivity.
  - vm_compute. reflexivity.
Defined.

Lemma diff_of_empty_snapshot_witness :
  __filter_records_marked_completed_not_notified notion_args DictReader
    [ticket "1" "Done"] (initial placeholders)
  = (Ok [ticket "1" "Done"], initial placeholders).
Proof.
  apply (diff_of_empty_snapshot notion_args DictReader [ticket "1" "Done"]
           (initial placeholders) "data_tickets/").
  - vm_compute. reflexivity.
  - repeat constructor. eexists. vm_compute. reflexivity.
Defined.

Lemma get_completed_tickets_missing_status_witness :
  let current : list record := [ticket "1" "Done"; {[ "id" := "2" ]}] in
  exists st',
    get_completed_tickets notion_args clock (fun _ => Ok current) DictReader
                          (initial placeholders)
    = (Raise (KeyError "status"), st')
    /\ only_reads (initial placeholders) st'.
Proof.
  intros current.
  apply (get_completed_tickets_missing_status notion_args clock
           (fun _ => Ok current) DictReader (initial placeholders) current).
  - reflexivity.
  - right. left. vm_compute. reflexivity.
Defined.

(** The first send fails: the owner of ticket 1 gets no message, the team
    is not tried, and the entry says [failed]. *)
Lemma notification_record_sends_witness :
  exists entry st',
    notification_record notion_args team clock first_fails strptime
                        (ticket "1" "Done") (initial [])
    = (Ok entry, st')
    /\ entry !! "notification_status" = Some "failed"
    /\ posts st' = 1
    /\ map fst (outbox st') = [].
Proof.
  destruct (notification_record_sends notion_args team clock first_fails
              strptime (ticket "1" "Done") (initial []))
    as (entry & st' & H1 & H2 & H3 & H4).
  - apply Witness.ticket_renderable.
  - exists entry, st'. split; [exact H1|]. split; [exact H2|].
    split; [exact H3|exact H4].
Defined.

Lemma send_notifications_stops_at_missing_title_witness :
  let st := initial [] in
  let before := [ticket "1" "Done"] in
  send_notifications notion_args team clock delivers strptime
    (before ++ base.delete "title" (ticket "2" "Done") :: [ticket "3" "Done"])
    st
  = (Raise (KeyError "title"),
     (send_notifications notion_args team clock delivers strptime before st).2)
  /\ posts st + length before
     <= posts (send_notifications notion_args team clock delivers strptime
                                  before st).2.
Proof.
  intros st before.
  apply (send_notifications_stops_at_missing_title notion_args team clock
           delivers strptime before (base.delete "title" (ticket "2" "Done"))
           [ticket "3" "Done"] st).
  - renderable_tickets.
  - vm_compute. reflexivity.
Defined.

Lemma send_notifications_all_delivered_witness :
  exists log st',
    send_notifications notion_args team clock delivers strptime
      [ticket "1" "Done"; ticket "2" "Done"] (initial [])
    = (Ok log, st')
    /\ Forall (fun e => e !! "notification_status" = Some "success") log
    /\ map fst (outbox st') = ["U1"; "C0TEAM"; "U2"; "C0TEAM"].
Proof.
  destruct (send_notifications_all_delivered notion_args team clock delivers
              strptime [ticket "1" "Done"; ticket "2" "Done"] (initial []))
    as (log & st' & H1 & H2 & H3).
  - reflexivity.
  - renderable_tickets.
  - exists log, st'. split; [exact H1|]. split; [exact H2|].
    rewrite H3. vm_compute. reflexivity.
Defined.

(** A bucket with the placeholder of the logs only. *)
Lemma empty_prefix_never_starts_witness :
  let st := initial [mk_object "notifications/" old []] in
  let after :=
    ticks notion_args team "notifications" "data_tickets" clock delivers pull
          strptime DictReader 3 st in
  s3 after = s3 st /\ outbox after = outbox st.
Proof.
  intros st after.
  apply (empty_prefix_never_starts notion_args team "notifications"
           "data_tickets" clock delivers pull strptime DictReader st 3).
  reflexivity.
Defined.

(** The bucket of a first run. *)
Lemma no_log_is_ever_written_witness :
  let after :=
    ticks notion_args team "notifications" "data_tickets" clock delivers pull
          strptime DictReader 2 (initial unlogged) in
  no_log (s3 after)
  /\ get_most_recent_modified_file DictReader "notifications" (s3 after)
     = Raise IndexError.
Proof.
  intros after.
  apply (no_log_is_ever_written notion_args team "notifications" clock delivers
           pull strptime DictReader (initial unlogged) 2).
  intros o Ho. apply list_elem_of_singleton in Ho. subst o. discriminate.
Defined.

(** The first tick from the bucket with the two placeholders: the log
    retrieved is that of the placeholder, without rows. *)
Lemma notify_log_snapshot_is_fetched_next_witness :
  let st := initial placeholders in
  let contacts := [ticket "1" "Done"] in
  let st1 := (get_completed_tickets notion_args minutes reopened DictReader
                                    st).2 in
  exists new st2 st',
    send_notifications notion_args team minutes delivers strptime contacts st1
    = (Ok new, st2)
    /\ length new = length contacts
    /\ notify notion_args team minutes delivers reopened strptime DictReader st
       = (Ok tt, st')
    /\ let file :=
         "notifications/"
         +:+ strftime DateTimeFormats.date_file_name_format
                      (minutes (reads st2))
         +:+ ".csv" in
       Bucket.get file (s3 st')
       = Some (mk_object file (minutes (S (reads st2))) (new ++ []))
       /\ get_most_recent_modified_file DictReader "notifications" (s3 st')
          = Ok (new ++ [], file)
       /\ forall k, k <> file ->
             Bucket.get k (s3 st') = Bucket.get k (s3 st).
Proof.
  intros st contacts st1.
  apply (notify_log_snapshot_is_fetched_next notion_args team minutes delivers
           reopened strptime DictReader Witness.minutes_increase
           (fun n current H => proj1 (Witness.reopened_ids n current H))
           (fun n current H => proj2 (Witness.reopened_ids n current H))
           (fun rows _ _ => eq_refl)
           st contacts st1 [] "notifications/").
  - exact Witness.placeholders_inv.
  - vm_compute. reflexivity.
  - vm_compute. reflexivity.
  - renderable_tickets.
  - discriminate.
Defined.

End Examples.
